(** * facemesh/src/index.ts: the face estimation layer

    A shallow embedding of [flipFaceHorizontal], [FaceMesh.clearPipelineROIs]
    and [FaceMesh.estimateFaces], with the part of the tensor runtime
    ([tf.slice], [tf.concat], [tf.sub], [mul], [dispose], [array]) and of the
    pipeline facade that these functions call.

    Conventions of the embedding.
    - A JavaScript [number] and an entry of a tensor are rationals ([Qc]);
      NaN, the infinities and the sign of zero are not represented.  The
      operations of [flipFaceHorizontal] in this first part are exact.  The
      rounding of the runtime (binary64 for numbers, binary32 for the entries
      of tensors) is [roundTo] further down, and [flipFaceHorizontalIn] is the
      flip with the arithmetic as a parameter: a statement that depends on
      rounding is made in the arithmetic of the runtime, [ieee].
    - A tensor is an immutable value (id, shape, row-major values); the only
      mutable part of the runtime is the id counter and the set of tensors
      on which [dispose] has run.  Two handles are the same tensor object
      when they carry the same id, and every tensor has its own data.  An
      operation of the runtime is represented by the tensor it returns: the
      tensors that the runtime allocates and disposes inside an operation
      are not, so the number of ids that an operation takes is not the
      runtime's.
    - An [async] function is a computation in a state-and-exception monad;
      a rejected promise is [Throw]. *)

From Stdlib Require Import QArith Qcanon Qround Qpower Lqa.
From Stdlib Require Qabs Qcabs.
From stdpp Require Import base numbers list strings gmap.

Set Default Proof Using "Type".
Set Warnings "-clear-no-such-hyp".
Local Open Scope Qc_scope.

(** ** Numbers *)

Definition number : Type := Qc.

(** [a < b] on numbers, as a boolean. *)
Definition ltb (a b : number) : bool :=
  match a ?= b with Lt => true | _ => false end.

Definition of_nat (n : nat) : number := Qc_of_Z (Z.of_nat n).

(** A decimal literal [n / d], such as [0.9 = 9 / 10]. *)
Definition dec (n : Z) (d : positive) : number := Q2Qc (n # d).

(** A point [[x, y]], the type [[number, number]] of the source. *)
Definition Point : Type := number * number.

(** ** Data *)

(** [tf.Tensor]: [id] is the runtime's unique tensor id, [values] the
    row-major contents. *)
Record Tensor := mkTensor {
  id : nat;
  shape : list nat;
  values : list number
}.

(** The state of the tensor runtime that the code observes.  Disposal is
    recorded per tensor object. *)
Record Engine := mkEngine {
  nextTensorId : nat;
  disposedTensors : gset nat
}.

(** Declarations of ./pipeline used by index.ts. *)
Record Box := mkBox {
  startPoint : Tensor;
  endPoint : Tensor
}.

Record Prediction := mkPrediction {
  coords : Tensor;
  scaledCoords : Tensor;
  box : Box;
  flag : Tensor
}.

(** Modelled from the spec: the state of [Pipeline] (./pipeline is not among
    the sources).  The facade keeps the regions of interest it tracks from
    one call to the next; that cache is all the orchestration layer can
    reach, through [clearROIs]. *)
Record Pipeline := mkPipeline {
  regionsOfInterest : list Box
}.

(** Modelled from the spec: [Pipeline.clearROIs] discards the cached regions
    of interest, so that the next call runs a fresh detection pass.  It is
    idempotent. *)
Definition clearROIs (p : Pipeline) : Pipeline :=
  {| regionsOfInterest := [] |}.

(** The fields of [class FaceMesh]. *)
Record FaceMesh := mkFaceMesh {
  pipeline : Pipeline;
  detectionConfidence : number
}.

(** Default of [load]'s [detectionConfidence] option. *)
Definition defaultDetectionConfidence : number := dec 9 10.

Record State := mkState {
  engine : Engine;
  self : FaceMesh
}.

(** [boundingBox: {topLeft, bottomRight}] *)
Record BoundingBox (P : Type) := mkBoundingBox {
  topLeft : P;
  bottomRight : P
}.
Arguments mkBoundingBox {P} _ _.
Arguments topLeft {P} _.
Arguments bottomRight {P} _.

(** A JavaScript object used as a map from names to values: its own
    properties in creation order, which is the order [for ... in] visits
    them (names that are not array indices). *)
Definition Obj (V : Type) : Type := list (string * V).

(** [annotations: {[key: string]: number[][]}].  An entry of a value is
    [None] where the source reads [scaledMesh[index]] out of range and gets
    [undefined]. *)
Definition Annotations : Type := Obj (list (option Point)).

(** [AnnotatedPrediction], for one choice of the types of its fields. *)
Record Face (C P L : Type) := mkFace {
  faceInViewConfidence : C;
  boundingBox : BoundingBox P;
  mesh : L;
  scaledMesh : L;
  annotations : option Annotations
}.
Arguments mkFace {C P L} _ _ _ _ _.
Arguments faceInViewConfidence {C P L} _.
Arguments boundingBox {C P L} _.
Arguments mesh {C P L} _.
Arguments scaledMesh {C P L} _.
Arguments annotations {C P L} _.

(** The two shapes of [AnnotatedPrediction] that [estimateFaces] builds:
    every field a plain array ([number], [[number, number]], [number[][]]),
    or every field a tensor. *)
Definition ArrayFace : Type := Face number Point (list Point).
Definition TensorFace : Type := Face Tensor Tensor Tensor.

Inductive AnnotatedPrediction :=
| Arrays (face : ArrayFace)
| Tensors (face : TensorFace).

(** The input of [estimateFaces]: a [tf.Tensor3D], or a pixel source
    ([ImageData], video, image or canvas element) of which [fromPixels]
    reads [height], [width] and the RGBA bytes. *)
Inductive Input :=
| InTensor (t : Tensor)
| InPixels (height width : nat) (rgba : list number).

(** ** Computations *)

Inductive Error :=
| TensorDisposed          (* "Tensor is disposed." *)
| ShapeError              (* a failed shape assertion of the runtime *)
| CastError               (* a value that is not of the type of its cast *)
| Rejected (reason : string).  (* the facade's predict promise rejected *)

Inductive Outcome (A : Type) :=
| Ok (a : A)
| Throw (e : Error).
Arguments Ok {A} _.
Arguments Throw {A} _.

Definition M (A : Type) : Type := State -> Outcome A * State.

Definition ret {A} (a : A) : M A := fun s => (Ok a, s).

Definition throw {A} (e : Error) : M A := fun s => (Throw e, s).

Definition bind {A B} (m : M A) (k : A -> M B) : M B :=
  fun s =>
    match m s with
    | (Ok a, s') => k a s'
    | (Throw e, s') => (Throw e, s')
    end.

Notation "x <- c1 ;; c2" := (bind c1 (fun x => c2))
  (at level 100, c1 at next level, right associativity).
Notation "c1 ;;; c2" := (bind c1 (fun _ => c2))
  (at level 100, right associativity).

(** An unchecked [as] cast, made checked. *)
Definition cast {A} (o : option A) : M A :=
  match o with
  | Some a => ret a
  | None => throw CastError
  end.

Fixpoint mapM {A B} (f : A -> M B) (l : list A) : M (list B) :=
  match l with
  | [] => ret []
  | a :: l' => b <- f a;; bs <- mapM f l';; ret (b :: bs)
  end.

(** [Promise.all] over computations that have all been started: every one
    runs, also after one of them has failed; the result is the list of their
    results, in the order of the list, or the first failure.  The model
    continues them in the order of the list and reports the first failure
    of the list; the runtime may continue them in another order and reports
    the failure that comes first in time, which changes the ids of the
    tensors they allocate and, when two computations fail differently, the
    error, and nothing else that is stated below. *)
Fixpoint promiseAll {A} (ks : list (M A)) : M (list A) :=
  fun s =>
    match ks with
    | [] => (Ok [], s)
    | k :: ks' =>
        let (r, s1) := k s in
        let (rs, s2) := promiseAll ks' s1 in
        (match r, rs with
         | Ok a, Ok l => Ok (a :: l)
         | Throw e, _ => Throw e
         | Ok _, Throw e => Throw e
         end, s2)
    end.

(** ** The tensor runtime *)

Module tf.

(** A new tensor takes the next id of the runtime. *)
Definition make (sh : list nat) (vs : list number) : M Tensor :=
  fun s =>
    let e := engine s in
    (Ok (mkTensor (nextTensorId e) sh vs),
     mkState (mkEngine (S (nextTensorId e)) (disposedTensors e)) (self s)).

Definition isDisposed (t : Tensor) (s : State) : bool :=
  bool_decide (id t ∈ disposedTensors (engine s)).

(** [throwIfDisposed], the first step of every operation that reads a
    tensor. *)
Definition throwIfDisposed (t : Tensor) : M unit :=
  fun s => if isDisposed t s then (Throw TensorDisposed, s) else (Ok (), s).

(** [t.dispose()]: no effect on a tensor that is disposed already. *)
Definition dispose (t : Tensor) : M unit :=
  fun s =>
    let e := engine s in
    (Ok (),
     mkState (mkEngine (nextTensorId e) ({[id t]} ∪ disposedTensors e))
             (self s)).

(** Number of values of a tensor of shape [sh]. *)
Definition sizeFromShape (sh : list nat) : nat := foldr Nat.mul 1%nat sh.

(** [tf.scalar v], which is also how a [number] operand of [tf.sub] becomes
    a tensor; the runtime disposes that tensor when [tf.sub] returns, the
    model leaves it. *)
Definition scalar (v : number) : M Tensor := make [] [v].

(** [tf.tensor1d vs] *)
Definition tensor1d (vs : list number) : M Tensor := make [length vs] vs.

(** [t.slice(begin, size)] with two numbers: rows [begin .. begin+size) of
    the first axis, everything of the other axes. *)
Definition slice (t : Tensor) (begin size : nat) : M Tensor :=
  throwIfDisposed t;;;
  match shape t with
  | [] => throw ShapeError
  | d :: rest =>
      if (begin + size <=? d)%nat
      then make (size :: rest)
                (take (size * sizeFromShape rest)
                      (drop (begin * sizeFromShape rest) (values t)))
      else throw ShapeError
  end.

(** [tf.concat(ts)], along axis 0: the tensors have the same rank, at
    least 1, and the same shape apart from the first axis.  The runtime
    reshapes its operands into tensors that it disposes; the model allocates
    the result only. *)
Definition concat (ts : list Tensor) : M Tensor :=
  mapM throwIfDisposed ts;;;
  match ts with
  | [] => throw ShapeError
  | t0 :: _ =>
      match shape t0 with
      | [] => throw ShapeError
      | _ :: rest =>
          if forallb (fun t => bool_decide (tail (shape t) = rest)
                               && negb (bool_decide (shape t = []))) ts
          then make (sum_list (map (fun t => hd 0%nat (shape t)) ts) :: rest)
                    (flat_map values ts)
          else throw ShapeError
      end
  end.

(** Broadcasting.  [broadcastShape] is the runtime's
    [assertAndGetBroadcastShape]: shapes are aligned at their last axis,
    a missing axis counts as 1, and two sizes are compatible when they are
    equal or one of them is 1. *)
Fixpoint broadcastRev (ra rb : list nat) : option (list nat) :=
  match ra, rb with
  | [], r | r, [] => Some r
  | a :: ra', b :: rb' =>
      if (a =? 1)%nat then cons b <$> broadcastRev ra' rb'
      else if (b =? 1)%nat then cons a <$> broadcastRev ra' rb'
      else if (a =? b)%nat then cons a <$> broadcastRev ra' rb'
      else None
  end.

Definition broadcastShape (sa sb : list nat) : option (list nat) :=
  reverse <$> broadcastRev (reverse sa) (reverse sb).

(** [n] consecutive pieces of [sz] values. *)
Fixpoint chunks (n sz : nat) (l : list number) : list (list number) :=
  match n with
  | O => []
  | S n' => take sz l :: chunks n' sz (drop sz l)
  end.

(** The values of [f a b] for operands of the same rank whose shapes
    broadcast: an axis of size 1 repeats its single piece. *)
Fixpoint broadcastValues (f : number -> number -> number)
    (sa sb : list nat) (a b : list number) {struct sa} : list number :=
  match sa, sb with
  | da :: sa', db :: sb' =>
      let ca := chunks da (sizeFromShape sa') a in
      let cb := chunks db (sizeFromShape sb') b in
      if (da =? db)%nat
      then mjoin (zip_with (broadcastValues f sa' sb') ca cb)
      else if (da =? 1)%nat
      then mjoin (map (broadcastValues f sa' sb' a) cb)
      else mjoin (map (fun x => broadcastValues f sa' sb' x b) ca)
  | _, _ =>
      match a, b with
      | x :: _, y :: _ => [f x y]
      | _, _ => []
      end
  end.

(** [sh] with axes of size 1 in front, up to rank [r]. *)
Definition padShape (r : nat) (sh : list nat) : list nat :=
  replicate (r - length sh) 1%nat ++ sh.

(** An elementwise operation with broadcasting.  [tf.sub] and [mul] read
    the data of their operands without a check of the handles: they fail on
    an operand whose data is gone, which is every disposed operand here,
    where every tensor has its own data. *)
Definition binaryOp (f : number -> number -> number) (a b : Tensor)
    : M Tensor :=
  throwIfDisposed a;;;
  throwIfDisposed b;;;
  match broadcastShape (shape a) (shape b) with
  | None => throw ShapeError
  | Some sh =>
      let r := length sh in
      make sh (broadcastValues f (padShape r (shape a)) (padShape r (shape b))
                               (values a) (values b))
  end.

(** [tf.sub(a, b)] and [a.mul(b)], without rounding. *)
Definition sub : Tensor -> Tensor -> M Tensor := binaryOp Qcminus.
Definition mul : Tensor -> Tensor -> M Tensor := binaryOp Qcmult.

(** [tf.browser.fromPixels(pixels)]: a tensor of shape
    [[height, width, 3]] with the red, green and blue bytes of every
    pixel. *)
Fixpoint dropAlpha (rgba : list number) : list number :=
  match rgba with
  | r :: g :: b :: _ :: rest => r :: g :: b :: dropAlpha rest
  | _ => []
  end.

Definition fromPixels (height width : nat) (rgba : list number) : M Tensor :=
  make [height; width; 3%nat] (dropAlpha rgba).

(** [t.toFloat()]: a new tensor with the same values. *)
Definition toFloat (t : Tensor) : M Tensor :=
  throwIfDisposed t;;; make (shape t) (values t).

(** [t.expandDims(0)] *)
Definition expandDims0 (t : Tensor) : M Tensor :=
  throwIfDisposed t;;; make (1%nat :: shape t) (values t).

(** [t.array()]: the read fails on a disposed tensor.  Tensors are
    immutable, so the values read are those the tensor carries; the model
    reads them off the tensor where the source casts the result of [array()]
    to a type, and makes the cast checked: a [tf.Scalar] gives a [number], a
    tensor of shape [[2]] a [[number, number]], a tensor of shape [[n, 2]]
    a [number[][]] of [n] points. *)
Definition array (t : Tensor) : M Tensor :=
  throwIfDisposed t;;; ret t.

Definition asNumber (t : Tensor) : option number :=
  match shape t, values t with
  | [], [v] => Some v
  | _, _ => None
  end.

Definition asPoint (t : Tensor) : option Point :=
  match shape t, values t with
  | [2%nat], [x; y] => Some (x, y)
  | _, _ => None
  end.

Fixpoint points (vs : list number) : list Point :=
  match vs with
  | x :: y :: rest => (x, y) :: points rest
  | _ => []
  end.

Definition asPoints (t : Tensor) : option (list Point) :=
  match shape t with
  | [n; 2%nat] =>
      if (length (values t) =? n * 2)%nat then Some (points (values t))
      else None
  | _ => None
  end.

End tf.

(** ** index.ts *)

(** [getInputTensorDimensions]: [[shape[0], shape[1]]] of a tensor,
    [[height, width]] of a pixel source.  The input type [tf.Tensor3D] gives
    the shape three entries; the default of [nth] is never read on such a
    shape. *)
Definition getInputTensorDimensions (input : Input) : nat * nat :=
  match input with
  | InTensor t => (nth 0 (shape t) 0%nat, nth 1 (shape t) 0%nat)
  | InPixels height width _ => (height, width)
  end.

(** The callback of both [map] calls of the array branch:
    [coord => [imageWidth - 1 - coord[0], coord[1]]], which is also how the
    two corners are rebuilt.  Without rounding; [flipCoordIn] has the
    arithmetic as a parameter. *)
Definition flipCoord (imageWidth : number) (coord : Point) : Point :=
  (imageWidth - 1 - coord.1, coord.2).

(** The corner expression of the tensor branch:
    [tf.concat([tf.sub(imageWidth - 1, corner.slice(0, 1)),
                corner.slice(1, 1)])]. *)
Definition flipCornerTensor (imageWidth : number) (corner : Tensor)
    : M Tensor :=
  x <- tf.slice corner 0 1;;
  w <- tf.scalar (imageWidth - 1);;
  flipped <- tf.sub w x;;
  y <- tf.slice corner 1 1;;
  tf.concat [flipped; y].

(** The mesh expression of the tensor branch:
    [tf.sub(tf.tensor1d([imageWidth - 1, 0]), mesh)
       .mul(tf.tensor1d([1, -1]))]. *)
Definition flipMeshTensor (imageWidth : number) (m : Tensor) : M Tensor :=
  a <- tf.tensor1d [imageWidth - 1; 0];;
  d <- tf.sub a m;;
  b <- tf.tensor1d [1; - 1];;
  tf.mul d b.

(** [flipFaceHorizontal].  [Object.assign({}, face, {...})] copies the
    fields of [face] that the third argument does not name:
    [faceInViewConfidence] and, when present, [annotations]. *)
Definition flipFaceHorizontal (face : AnnotatedPrediction)
    (imageWidth : number) : M AnnotatedPrediction :=
  match face with
  | Tensors face =>
      tl <- flipCornerTensor imageWidth (topLeft (boundingBox face));;
      br <- flipCornerTensor imageWidth (bottomRight (boundingBox face));;
      m <- flipMeshTensor imageWidth (mesh face);;
      sm <- flipMeshTensor imageWidth (scaledMesh face);;
      ret (Tensors (mkFace (faceInViewConfidence face)
                           (mkBoundingBox tl br) m sm (annotations face)))
  | Arrays face =>
      ret (Arrays (mkFace (faceInViewConfidence face)
                     (mkBoundingBox
                        (flipCoord imageWidth (topLeft (boundingBox face)))
                        (flipCoord imageWidth (bottomRight (boundingBox face))))
                     (map (flipCoord imageWidth) (mesh face))
                     (map (flipCoord imageWidth) (scaledMesh face))
                     (annotations face)))
  end.

(** [annotations[key] = v] on a plain object: an existing property keeps its
    place, a new one comes last. *)
Definition objSet {V} (o : Obj V) (key : string) (v : V) : Obj V :=
  if bool_decide (key ∈ o.*1)
  then map (fun kv => if bool_decide (kv.1 = key) then (key, v) else kv) o
  else o ++ [(key, v)].

(** [o[key]] *)
Fixpoint objGet {V} (o : Obj V) (key : string) : option V :=
  match o with
  | [] => None
  | (k, v) :: o' => if bool_decide (k = key) then Some v else objGet o' key
  end.

(** [this.pipeline.clearROIs()] *)
Definition pipelineClearROIs : M unit :=
  fun s =>
    (Ok (),
     mkState (engine s)
             (mkFaceMesh (clearROIs (pipeline (self s)))
                         (detectionConfidence (self s)))).

(** [FaceMesh.clearPipelineROIs] *)
Definition clearPipelineROIs (flag : number) : M unit :=
  fun s =>
    if ltb flag (detectionConfidence (self s))
    then pipelineClearROIs s
    else (Ok (), s).

(** [if (!(input instanceof tf.Tensor)) input = tf.browser.fromPixels(input)]
    at the head of [estimateFaces]. *)
Definition inputTensor (input : Input) : M Tensor :=
  match input with
  | InTensor t => ret t
  | InPixels height width rgba => tf.fromPixels height width rgba
  end.

(** A read that was issued in state [s0] and is awaited later: whether it
    fails was decided in [s0]. *)
Definition issuedAt {A} (s0 : State) (read : M A) : M A :=
  fun s => ((read s0).1, s).

Section EstimateFaces.

(** [MESH_ANNOTATIONS] of ./keypoints: for every region name, the indices
    of its landmarks. *)
Variable MESH_ANNOTATIONS : Obj (list nat).

(** [Pipeline.predict] of ./pipeline: the facade, which may allocate and
    dispose tensors and update its regions of interest, and which resolves
    to an array of predictions or to nothing, or rejects. *)
Variable predict : Tensor -> M (option (list Prediction)).

(** The loop [for (const key in MESH_ANNOTATIONS) annotations[key] = ...]
    over a materialized [scaledMesh]. *)
Definition annotate (scaledMesh : list Point) : Annotations :=
  foldl (fun annotations '(key, indices) =>
           objSet annotations key
                  (map (fun index : nat => scaledMesh !! index) indices))
        [] MESH_ANNOTATIONS.

(** [tensorsToRead]: the confidence, and unless tensors are returned the
    two meshes and the two corners. *)
Definition tensorsToRead (returnTensors : bool) (prediction : Prediction)
    : list Tensor :=
  [flag prediction]
  ++ (if returnTensors then []
      else [coords prediction; scaledCoords prediction;
            startPoint (box prediction); endPoint (box prediction)]).

(** The callback of [predictions.map], started in state [s0]: it runs up to
    its [await] when [map] calls it, so the reads of all predictions are
    issued in [s0], before any callback continues.  [tensorValues] holds the
    tensors that were read, in the order of [tensorsToRead]. *)
Definition estimateFace (returnTensors flipHorizontal : bool) (width : nat)
    (s0 : State) (prediction : Prediction) : M AnnotatedPrediction :=
  tensorValues <-
    issuedAt s0 (mapM tf.array (tensorsToRead returnTensors prediction));;
  flagValue <- cast (tensorValues !! 0%nat ≫= tf.asNumber);;
  tf.dispose (flag prediction);;;
  clearPipelineROIs flagValue;;;
  if returnTensors then
    let annotatedPrediction :=
      Tensors (mkFace (flag prediction)
                      (mkBoundingBox (startPoint (box prediction))
                                     (endPoint (box prediction)))
                      (coords prediction) (scaledCoords prediction) None) in
    if flipHorizontal
    then flipFaceHorizontal annotatedPrediction (of_nat width)
    else ret annotatedPrediction
  else
    arrays <- cast (match drop 1 tensorValues with
                    | [coords; scaledCoords; startPoint; endPoint] =>
                        coordsArr ← tf.asPoints coords;
                        coordsArrScaled ← tf.asPoints scaledCoords;
                        topLeft ← tf.asPoint startPoint;
                        bottomRight ← tf.asPoint endPoint;
                        Some (coordsArr, coordsArrScaled, topLeft, bottomRight)
                    | _ => None
                    end);;
    let '(coordsArr, coordsArrScaled, topLeft, bottomRight) := arrays in
    tf.dispose (scaledCoords prediction);;;
    tf.dispose (coords prediction);;;
    let annotatedPrediction :=
      Arrays (mkFace flagValue (mkBoundingBox topLeft bottomRight)
                     coordsArr coordsArrScaled None) in
    annotatedPrediction <-
      (if flipHorizontal
       then flipFaceHorizontal annotatedPrediction (of_nat width)
       else ret annotatedPrediction);;
    match annotatedPrediction with
    | Arrays face =>
        ret (Arrays (mkFace (faceInViewConfidence face) (boundingBox face)
                            (mesh face) (scaledMesh face)
                            (Some (annotate (scaledMesh face)))))
    | Tensors _ => throw CastError
    end.

(** [FaceMesh.estimateFaces]; [None] is the [null] result. *)
Definition estimateFaces (input : Input)
    (returnTensors flipHorizontal : bool)
    : M (option (list AnnotatedPrediction)) :=
  input <- inputTensor input;;
  let width := (getInputTensorDimensions (InTensor input)).2 in
  inputToFloat <- tf.toFloat input;;
  image <- tf.expandDims0 inputToFloat;;
  predictions <- predict image;;
  tf.dispose input;;;
  tf.dispose inputToFloat;;;
  match predictions with
  | Some ((_ :: _) as predictions) =>
      results <- (fun s0 =>
                    promiseAll
                      (map (estimateFace returnTensors flipHorizontal width s0)
                           predictions) s0);;
      ret (Some results)
  | _ => ret None
  end.

End EstimateFaces.


(** * Vocabulary of the statements *)

(** The state in which the tracked regions of interest are gone and
    everything else is as in [s]. *)
Definition cleared (s : State) : State :=
  mkState (engine s)
          (mkFaceMesh (clearROIs (pipeline (self s)))
                      (detectionConfidence (self s))).

(** The state after [n] more tensors have been allocated. *)
Definition bump (n : nat) (s : State) : State :=
  mkState (mkEngine (n + nextTensorId (engine s)) (disposedTensors (engine s)))
          (self s).

(** The runtime hands out ids in increasing order: a disposed tensor was
    allocated before. *)
Definition engineOk (e : Engine) : bool :=
  bool_decide (set_Forall (fun i => (i < nextTensorId e)%nat)
                          (disposedTensors e)).

(** [t] was allocated by the runtime in state [s] or before. *)
Definition allocated (s : State) (t : Tensor) : Prop :=
  (id t < nextTensorId (engine s))%nat.

Definition live (s : State) (t : Tensor) : Prop := tf.isDisposed t s = false.

(** The coordinates held by a face: the two corners, the mesh and the
    scaled mesh. *)
Definition Coordinates : Type := Point * Point * list Point * list Point.

Definition arrayCoordinates (face : ArrayFace) : Coordinates :=
  (topLeft (boundingBox face), bottomRight (boundingBox face),
   mesh face, scaledMesh face).

(** The point held by a corner tensor, x and y along the first axis: a
    tensor of shape [[2]], which [array()] reads as [[x, y]], or the
    [tf.Tensor2D] of shape [[2, 1]]. *)
Definition cornerPoint (t : Tensor) : option Point :=
  match shape t, values t with
  | [2%nat], [x; y] | [2%nat; 1%nat], [x; y] => Some (x, y)
  | _, _ => None
  end.

Definition tensorCoordinates (face : TensorFace) : option Coordinates :=
  tl ← cornerPoint (topLeft (boundingBox face));
  br ← cornerPoint (bottomRight (boundingBox face));
  m ← tf.asPoints (mesh face);
  sm ← tf.asPoints (scaledMesh face);
  Some (tl, br, m, sm).

(** The four buffers of a tensor face are live in [s]. *)
Definition buffersLive (s : State) (face : TensorFace) : Prop :=
  live s (topLeft (boundingBox face)) /\
  live s (bottomRight (boundingBox face)) /\
  live s (mesh face) /\ live s (scaledMesh face).

(** The array branch on the coordinates of a face, without rounding. *)
Definition flipCoordinates (W : number) (c : Coordinates) : Coordinates :=
  let '(tl, br, m, sm) := c in
  (flipCoord W tl, flipCoord W br, map (flipCoord W) m, map (flipCoord W) sm).

(** Lines 147 to 153 of [estimateFaces]: the input as a tensor, its float
    conversion and the batched image handed to the facade. *)
Definition prepareImage (input : Input) : M (Tensor * Tensor * Tensor) :=
  input <- inputTensor input;;
  inputToFloat <- tf.toFloat input;;
  image <- tf.expandDims0 inputToFloat;;
  ret (input, inputToFloat, image).

(** The state after [input.dispose(); inputToFloat.dispose()]. *)
Definition released (input inputToFloat : Tensor) (s : State) : State :=
  (tf.dispose inputToFloat (tf.dispose input s).2).2.

(** A run of [promiseAll] in which every computation succeeds. *)
Inductive runAll {A} : list (M A) -> State -> list A -> State -> Prop :=
| runAll_nil s : runAll [] s [] s
| runAll_cons k ks s a s1 l s2 :
    k s = (Ok a, s1) -> runAll ks s1 l s2 ->
    runAll (k :: ks) s (a :: l) s2.

(** [m] disposes no tensor outside [D], revives none, and never lowers the
    id counter, whatever its outcome. *)
Definition disposesWithin {A} (D : gset nat) (m : M A) : Prop :=
  forall s,
    disposedTensors (engine s) ⊆ disposedTensors (engine (m s).2) /\
    disposedTensors (engine (m s).2) ⊆ D ∪ disposedTensors (engine s) /\
    (nextTensorId (engine s) <= nextTensorId (engine (m s).2))%nat.

(** A tensor that [m] returns was allocated by [m]. *)
Definition returnsFresh (m : M Tensor) : Prop :=
  forall s t s',
    m s = (Ok t, s') ->
    (nextTensorId (engine s) <= id t < nextTensorId (engine s'))%nat.

(** The input tensor and its float conversion are released by the end of
    the run of [estimateFaces], however it ends. *)
Definition releasesOnEveryPath (MESH_ANNOTATIONS : Obj (list nat))
    (predict : Tensor -> M (option (list Prediction)))
    (input : Input) (returnTensors flipHorizontal : bool) (s : State)
    : Prop :=
  forall input' inputToFloat image s1,
    prepareImage input s = (Ok (input', inputToFloat, image), s1) ->
    let s' := (estimateFaces MESH_ANNOTATIONS predict input returnTensors
                 flipHorizontal s).2 in
    tf.isDisposed input' s' = true /\ tf.isDisposed inputToFloat s' = true.

(** The result [r] carries the confidence of the prediction [p]: the flag
    tensor itself, or the number read from it. *)
Definition sameConfidence (p : Prediction) (r : AnnotatedPrediction) : Prop :=
  match r with
  | Tensors face => faceInViewConfidence face = flag p
  | Arrays face => tf.asNumber (flag p) = Some (faceInViewConfidence face)
  end.

(** The tensors that a call of [estimateFaces] releases when tensors are
    returned: the input, its float conversion and the confidence tensor of
    every prediction. *)
Definition releasedTensors (input inputToFloat : Tensor)
    (predictions : list Prediction) : list Tensor :=
  input :: inputToFloat :: map flag predictions.

(** The buffers of a prediction other than its confidence. *)
Definition predictionBuffers (p : Prediction) : list Tensor :=
  [coords p; scaledCoords p; startPoint (box p); endPoint (box p)].

(** The buffers embedded in a tensor face. *)
Definition faceBuffers (face : TensorFace) : list Tensor :=
  [mesh face; scaledMesh face;
   topLeft (boundingBox face); bottomRight (boundingBox face)].

(** The values of [n] rows of two: the inverse of [tf.points]. *)
Fixpoint unpoints (l : list Point) : list number :=
  match l with
  | [] => []
  | (x, y) :: l' => x :: y :: unpoints l'
  end.

(** ** Sample data *)

Definition emptyState : State :=
  mkState (mkEngine 10 ∅)
          (mkFaceMesh (mkPipeline []) defaultDetectionConfidence).

(** An input tensor of one row of 640 black pixels, a table of two regions,
    and facades that resolve to three faces, to no face, to nothing, or
    reject. *)
Definition sampleInput : Tensor :=
  mkTensor 0 [1%nat; 640%nat; 3%nat] (replicate 1920 0).

Definition sampleTable : Obj (list nat) :=
  [("silhouette", [0%nat; 2%nat]); ("lipsUpperOuter", [1%nat])].

Definition samplePrediction (i : nat) (confidence : number) : Prediction :=
  mkPrediction
    (mkTensor (i + 1) [3%nat; 2%nat]
       [dec 1 10; dec 2 1; dec 3 1; dec 4 1; dec 5 1; dec 0 1])
    (mkTensor (i + 2) [3%nat; 2%nat]
       [dec 110 1; dec 60 1; dec 200 1; dec 150 1; dec 290 1; dec 240 1])
    (mkBox (mkTensor (i + 3) [2%nat] [dec 100 1; dec 50 1])
           (mkTensor (i + 4) [2%nat] [dec 300 1; dec 250 1]))
    (mkTensor i [] [confidence]).

Definition samplePredictions : list Prediction :=
  [samplePrediction 20 (dec 95 100); samplePrediction 25 (dec 5 10);
   samplePrediction 30 (dec 99 100)].

(** The facade allocates the tensors 20 to 34 and tracks one region. *)
Definition samplePredict (image : Tensor) : M (option (list Prediction)) :=
  fun s =>
    (Ok (Some samplePredictions),
     mkState (mkEngine 40 (disposedTensors (engine s)))
             (mkFaceMesh (mkPipeline [box (samplePrediction 20 (dec 95 100))])
                         (detectionConfidence (self s)))).

Definition emptyPredict (image : Tensor) : M (option (list Prediction)) :=
  ret (Some []).

Definition absentPredict (image : Tensor) : M (option (list Prediction)) :=
  ret None.

Definition rejectingPredict (image : Tensor) : M (option (list Prediction)) :=
  throw (Rejected "predict failed").

(** The float conversion and the batched image of [sampleInput], and the
    states before and after the call of [samplePredict]. *)
Definition sampleFloat : Tensor :=
  mkTensor 10 (shape sampleInput) (values sampleInput).

Definition sampleImage : Tensor :=
  mkTensor 11 (1%nat :: shape sampleInput) (values sampleInput).

Definition preparedState : State := bump 2 emptyState.

Definition predictedState : State :=
  mkState (mkEngine 40 ∅)
          (mkFaceMesh (mkPipeline [box (samplePrediction 20 (dec 95 100))])
                      defaultDetectionConfidence).

(** A 640 pixel wide image; a face with corners (100, 50) and (300, 250)
    and a mesh of three landmarks, as arrays and as tensors. *)
Definition sampleArrayFace : ArrayFace :=
  mkFace (dec 95 100)
         (mkBoundingBox (dec 100 1, dec 50 1) (dec 300 1, dec 250 1))
         [(dec 1 10, dec 2 1); (dec 3 1, dec 4 1); (dec 5 1, dec 0 1)]
         [(dec 110 1, dec 60 1); (dec 200 1, dec 150 1); (dec 290 1, dec 240 1)]
         None.

Definition sampleTensorFace : TensorFace :=
  mkFace (mkTensor 1 [] [dec 95 100])
         (mkBoundingBox (mkTensor 2 [2%nat] [dec 100 1; dec 50 1])
                        (mkTensor 3 [2%nat] [dec 300 1; dec 250 1]))
         (mkTensor 4 [3%nat; 2%nat]
                   [dec 1 10; dec 2 1; dec 3 1; dec 4 1; dec 5 1; dec 0 1])
         (mkTensor 5 [3%nat; 2%nat]
                   [dec 110 1; dec 60 1; dec 200 1; dec 150 1;
                    dec 290 1; dec 240 1])
         None.

Definition trackedBox : Box :=
  mkBox (mkTensor 0 [2%nat] [dec 5 1; dec 5 1])
        (mkTensor 1 [2%nat] [dec 25 1; dec 25 1]).

Definition trackingState : State :=
  mkState (mkEngine 3 ∅)
          (mkFaceMesh (mkPipeline [trackedBox]) defaultDetectionConfidence).

(** ** Vocabulary of the further properties *)

(** A successful run of [m] leaves the state as it is. *)
Definition staysOnOk {A} (m : M A) : Prop :=
  forall s a s', m s = (Ok a, s') -> s' = s.

(** A successful run of [m] allocates [n] tensors and does nothing else. *)
Definition bumpsOnOk {A} (n : nat) (m : M A) : Prop :=
  forall s a s', m s = (Ok a, s') -> s' = bump n s.

(** [m] leaves the fields of the [FaceMesh] object as they are, whatever its
    outcome. *)
Definition keepsSelf {A} (m : M A) : Prop :=
  forall s, self (m s).2 = self s.


(** The ids of a list of tensors. *)
Definition idsOf (ts : list Tensor) : gset nat := list_to_set (map id ts).

(** The tensors that the callback of one prediction disposes. *)
Definition disposedByFace (returnTensors : bool) (p : Prediction)
    : list Tensor :=
  flag p :: (if returnTensors then [] else [scaledCoords p; coords p]).

(** The confidences that the flag tensors of [ps] hold. *)
Definition confidenceValues (ps : list Prediction) : list number :=
  omap (fun p => tf.asNumber (flag p)) ps.




(** The array result that the tensors of a prediction hold: the confidence,
    the corners and the meshes as they are read, and the annotations of the
    scaled mesh. *)
Definition materialize (MESH_ANNOTATIONS : Obj (list nat)) (p : Prediction)
    : option AnnotatedPrediction :=
  flagValue ← tf.asNumber (flag p);
  coordsArr ← tf.asPoints (coords p);
  coordsArrScaled ← tf.asPoints (scaledCoords p);
  tl ← tf.asPoint (startPoint (box p));
  br ← tf.asPoint (endPoint (box p));
  Some (Arrays (mkFace flagValue (mkBoundingBox tl br) coordsArr
                       coordsArrScaled
                       (Some (annotate MESH_ANNOTATIONS coordsArrScaled)))).

(** The tensor result made of the tensors of a prediction themselves. *)
Definition handedOver (p : Prediction) : AnnotatedPrediction :=
  Tensors (mkFace (flag p)
                  (mkBoundingBox (startPoint (box p)) (endPoint (box p)))
                  (coords p) (scaledCoords p) None).


(** ** More sample data *)

(** A face with three-dimensional landmarks. *)
Definition sampleTensorFace3D : TensorFace :=
  mkFace (mkTensor 1 [] [dec 95 100])
         (mkBoundingBox (mkTensor 2 [2%nat] [dec 100 1; dec 50 1])
                        (mkTensor 3 [2%nat] [dec 300 1; dec 250 1]))
         (mkTensor 4 [2%nat; 3%nat]
                   [dec 1 1; dec 2 1; dec 3 1; dec 4 1; dec 5 1; dec 6 1])
         (mkTensor 5 [2%nat; 3%nat]
                   [dec 1 1; dec 2 1; dec 3 1; dec 4 1; dec 5 1; dec 6 1])
         None.

(** A state in which the scaled mesh of [sampleTensorFace] is disposed. *)
Definition staleState : State :=
  mkState (mkEngine 10 {[5%nat]})
          (mkFaceMesh (mkPipeline []) defaultDetectionConfidence).

(** A state in which the [bottomRight] of [sampleTensorFace] is disposed. *)
Definition staleCornerState : State :=
  mkState (mkEngine 10 {[3%nat]})
          (mkFaceMesh (mkPipeline []) defaultDetectionConfidence).

(** A pixel source of one row of two pixels. *)
Definition samplePixels : Input :=
  InPixels 1 2 [dec 1 1; dec 2 1; dec 3 1; dec 255 1;
                dec 4 1; dec 5 1; dec 6 1; dec 255 1].

(** A face whose corners are rows [[x, y]], of shape [[1, 2]]. *)
Definition sampleRowFace : TensorFace :=
  mkFace (mkTensor 1 [] [dec 95 100])
         (mkBoundingBox (mkTensor 2 [1%nat; 2%nat] [dec 100 1; dec 50 1])
                        (mkTensor 3 [1%nat; 2%nat] [dec 300 1; dec 250 1]))
         (mkTensor 4 [3%nat; 2%nat]
            [dec 1 10; dec 2 1; dec 3 1; dec 4 1; dec 5 1; dec 0 1])
         (mkTensor 5 [3%nat; 2%nat]
            [dec 110 1; dec 60 1; dec 200 1; dec 150 1; dec 290 1; dec 240 1])
         None.

(** ** The arithmetic of the runtime

    A JavaScript [number] is a binary64 float and the entries of a tensor
    are binary32 floats: every operation returns the float nearest to its
    exact result, ties to even.  [roundTo p] is that rounding for floats of
    [p] significant bits, on rationals: the exponent is unbounded, so that
    overflow to an infinity is not represented, and neither are NaN and the
    sign of zero.  On floats of the runtime it agrees with the runtime
    where no operation overflows: a difference of two floats that falls in
    the subnormal range is exact in both. *)

Section Rounding.

Local Open Scope Q_scope.

(** [floor (log2 q)], for [0 < q]. *)
Definition ilog2 (q : Q) : Z :=
  let k := (Z.log2 (Qnum q) - Z.log2 (Zpos (Qden q)))%Z in
  if Qle_bool (2 ^ k) q then k else (k - 1)%Z.

(** The integer nearest to [q], the even one of two that are as near. *)
Definition nearestEven (q : Q) : Z :=
  let f := Qfloor q in
  match Qcompare (q - inject_Z f) (1 # 2) with
  | Lt => f
  | Gt => (f + 1)%Z
  | Eq => if Z.even f then f else (f + 1)%Z
  end.

(** For [0 < q]: the multiple of the unit in the last place of [q] nearest
    to [q]. *)
Definition roundPos (p : Z) (q : Q) : Q :=
  let u := 2 ^ (ilog2 q - p + 1) in
  inject_Z (nearestEven (q / u)) * u.

Definition roundQ (p : Z) (q : Q) : Q :=
  match Qcompare q 0 with
  | Eq => 0
  | Gt => roundPos p q
  | Lt => - roundPos p (- q)
  end.

End Rounding.

Definition roundTo (p : Z) (q : number) : number := Q2Qc (roundQ p q).

(** Rounding to a [number], and to an entry of a [float32] tensor. *)
Definition binary64 : number -> number := roundTo 53.
Definition binary32 : number -> number := roundTo 24.

Definition pow2 (e : Z) : number := Q2Qc (2 ^ e)%Q.

(** The largest relative error of [roundTo p]. *)
Definition unitRoundoff (p : Z) : number := pow2 (- p).

Definition magnitude (v : number) : number := Qcabs.Qcabs v.

Definition distance (a b : number) : number := magnitude (a - b).

(** What the flip computes with: [minus] is the [-] of JavaScript, [store]
    the conversion of a [number] to an entry of a tensor, and [tminus] and
    [ttimes] are the operations of [tf.sub] and [mul] on two entries. *)
Record Arithmetic := mkArithmetic {
  minus : number -> number -> number;
  store : number -> number;
  tminus : number -> number -> number;
  ttimes : number -> number -> number
}.

(** The arithmetic of the runtime. *)
Definition ieee : Arithmetic :=
  mkArithmetic (fun a b => binary64 (a - b)) binary32
               (fun a b => binary32 (a - b)) (fun a b => binary32 (a * b)).

(** Arithmetic without rounding, which [flipFaceHorizontal] above has. *)
Definition exact : Arithmetic :=
  mkArithmetic Qcminus (fun v => v) Qcminus Qcmult.

Section FlipIn.

Variable A : Arithmetic.

(** [coord => [imageWidth - 1 - coord[0], coord[1]]] *)
Definition flipCoordIn (imageWidth : number) (coord : Point) : Point :=
  (minus A (minus A imageWidth 1) coord.1, coord.2).

(** [tf.concat([tf.sub(imageWidth - 1, corner.slice(0, 1)),
                corner.slice(1, 1)])] *)
Definition flipCornerTensorIn (imageWidth : number) (corner : Tensor)
    : M Tensor :=
  x <- tf.slice corner 0 1;;
  w <- tf.scalar (store A (minus A imageWidth 1));;
  flipped <- tf.binaryOp (tminus A) w x;;
  y <- tf.slice corner 1 1;;
  tf.concat [flipped; y].

(** [tf.sub(tf.tensor1d([imageWidth - 1, 0]), mesh)
       .mul(tf.tensor1d([1, -1]))] *)
Definition flipMeshTensorIn (imageWidth : number) (m : Tensor) : M Tensor :=
  a <- tf.tensor1d (map (store A) [minus A imageWidth 1; 0]);;
  d <- tf.binaryOp (tminus A) a m;;
  b <- tf.tensor1d (map (store A) [1; - 1]);;
  tf.binaryOp (ttimes A) d b.

(** [flipFaceHorizontal], with the arithmetic [A]. *)
Definition flipFaceHorizontalIn (face : AnnotatedPrediction)
    (imageWidth : number) : M AnnotatedPrediction :=
  match face with
  | Tensors face =>
      tl <- flipCornerTensorIn imageWidth (topLeft (boundingBox face));;
      br <- flipCornerTensorIn imageWidth (bottomRight (boundingBox face));;
      m <- flipMeshTensorIn imageWidth (mesh face);;
      sm <- flipMeshTensorIn imageWidth (scaledMesh face);;
      ret (Tensors (mkFace (faceInViewConfidence face)
                           (mkBoundingBox tl br) m sm (annotations face)))
  | Arrays face =>
      ret (Arrays (mkFace (faceInViewConfidence face)
                     (mkBoundingBox
                        (flipCoordIn imageWidth (topLeft (boundingBox face)))
                        (flipCoordIn imageWidth
                           (bottomRight (boundingBox face))))
                     (map (flipCoordIn imageWidth) (mesh face))
                     (map (flipCoordIn imageWidth) (scaledMesh face))
                     (annotations face)))
  end.

(** What the corner expression and the mesh expression of the tensor branch
    compute for a point. *)
Definition cornerFormula (imageWidth : number) (p : Point) : Point :=
  (tminus A (store A (minus A imageWidth 1)) p.1, p.2).

Definition meshFormula (imageWidth : number) (p : Point) : Point :=
  (ttimes A (tminus A (store A (minus A imageWidth 1)) p.1) (store A 1),
   ttimes A (tminus A (store A 0) p.2) (store A (- 1))).

Definition flipTensorCoordinates (imageWidth : number) (c : Coordinates)
    : Coordinates :=
  let '(tl, br, m, sm) := c in
  (cornerFormula imageWidth tl, cornerFormula imageWidth br,
   map (meshFormula imageWidth) m, map (meshFormula imageWidth) sm).

End FlipIn.

(** ** Vocabulary of the flip in the arithmetic of the runtime *)

(** [x] goes to [f x] and [y] stays, for both corners and every point of
    both meshes, position by position. *)
Definition mirrorsBy (f : number -> number) (p p' : Point) : Prop :=
  p'.1 = f p.1 /\ p'.2 = p.2.

Definition mirroredBy (f : number -> number) (c c' : Coordinates) : Prop :=
  let '(tl, br, m, sm) := c in
  let '(tl', br', m', sm') := c' in
  mirrorsBy f tl tl' /\ mirrorsBy f br br' /\
  Forall2 (mirrorsBy f) m m' /\ Forall2 (mirrorsBy f) sm sm'.

(** [(W - 1) - x] as the array branch computes it, in binary64, and as the
    tensor branch computes it, in binary32 from the entry that holds
    [W - 1]. *)
Definition mirror64 (W x : number) : number :=
  binary64 (binary64 (W - 1) - x).

Definition mirror32 (W x : number) : number :=
  binary32 (binary32 (binary64 (W - 1)) - x).

(** The numbers of some coordinates. *)
Definition coordinateValues (c : Coordinates) : list number :=
  let '(tl, br, m, sm) := c in
  [tl.1; tl.2; br.1; br.2] ++ unpoints m ++ unpoints sm.

(** The width and the coordinates are of magnitude at most [2 ^ e]: with
    [e] well below the largest exponent of the floats, no operation of the
    flip overflows. *)
Definition belowOverflow (e : Z) (W : number) (c : Coordinates) : Prop :=
  magnitude W <= pow2 e /\
  Forall (fun v => magnitude v <= pow2 e) (coordinateValues c).

(** The coordinates are binary32 floats, as the entries of a [float32]
    tensor are. *)
Definition float32Values (c : Coordinates) : Prop :=
  Forall (fun v => binary32 v = v) (coordinateValues c).

(** [p'] is [p] within the tolerance of two mirrorings about [w] that round
    with relative error [eps]. *)
Definition closePoint (eps w : number) (p p' : Point) : Prop :=
  distance p'.1 p.1
  <= eps * (magnitude p.1 + (1 + eps) * magnitude (w - p.1)) /\
  distance p'.2 p.2 <= eps * magnitude p.2.

Definition withinTolerance (eps w : number) (c c' : Coordinates) : Prop :=
  let '(tl, br, m, sm) := c in
  let '(tl', br', m', sm') := c' in
  closePoint eps w tl tl' /\ closePoint eps w br br' /\
  Forall2 (closePoint eps w) m m' /\ Forall2 (closePoint eps w) sm sm'.

(** The two variants of the flip compute the same coordinates on [af] and
    on a tensor face [tf] that holds the coordinates of [af]. *)
Definition variantsAgree (A : Arithmetic) (W : number) (af : ArrayFace)
    (tf : TensorFace) (s : State) : Prop :=
  tensorCoordinates tf = Some (arrayCoordinates af) ->
  exists af' tf' s',
    flipFaceHorizontalIn A (Arrays af) W s = (Ok (Arrays af'), s) /\
    flipFaceHorizontalIn A (Tensors tf) W s = (Ok (Tensors tf'), s') /\
    tensorCoordinates tf' = Some (arrayCoordinates af').

(** A face whose first landmark has the x-coordinate 0.1 of a [float32]
    tensor, as arrays and as tensors. *)
Definition sampleFloatArrayFace : ArrayFace :=
  mkFace (dec 3 4)
         (mkBoundingBox (dec 100 1, dec 50 1) (dec 300 1, dec 250 1))
         [(binary32 (dec 1 10), dec 2 1); (dec 3 1, dec 4 1);
          (dec 5 1, dec 0 1)]
         [(dec 110 1, dec 60 1); (dec 200 1, dec 150 1);
          (dec 290 1, dec 240 1)]
         None.

Definition sampleFloatTensorFace : TensorFace :=
  mkFace (mkTensor 1 [] [dec 3 4])
         (mkBoundingBox (mkTensor 2 [2%nat] [dec 100 1; dec 50 1])
                        (mkTensor 3 [2%nat] [dec 300 1; dec 250 1]))
         (mkTensor 4 [3%nat; 2%nat]
            [binary32 (dec 1 10); dec 2 1; dec 3 1; dec 4 1; dec 5 1;
             dec 0 1])
         (mkTensor 5 [3%nat; 2%nat]
            [dec 110 1; dec 60 1; dec 200 1; dec 150 1; dec 290 1; dec 240 1])
         None.

(** * Properties *)

(** ** Numbers *)

Lemma ltb_lt (a b : number) : ltb a b = true <-> a < b.
Proof.
  unfold ltb. rewrite Qclt_alt.
  destruct (a ?= b); split; congruence.
Qed.

Lemma ltb_ge (a b : number) : ltb a b = false <-> b ≤ a.
Proof.
  rewrite Qcle_ngt, <- ltb_lt. destruct (ltb a b); split; congruence.
Qed.


(** ** Confidence threshold *)

(** C2: [clearPipelineROIs c] clears the tracked regions of interest when
    [c] is strictly below the configured threshold and leaves the state as it
    is when [c] is at or above it; on a state that tracks a region, the
    regions are gone afterwards exactly when [c < t].  With the default
    threshold 0.9, the confidence 0.89 clears and 0.90 and 0.91 do not. *)
Theorem clearPipelineROIs_threshold (c : number) (s : State) :
  let t := detectionConfidence (self s) in
  (c < t -> clearPipelineROIs c s = (Ok (), cleared s)) /\
  (t ≤ c -> clearPipelineROIs c s = (Ok (), s)) /\
  (regionsOfInterest (pipeline (self s)) <> [] ->
   regionsOfInterest (pipeline (self (clearPipelineROIs c s).2)) = []
   <-> c < t) /\
  (t = defaultDetectionConfidence ->
   clearPipelineROIs (dec 89 100) s = (Ok (), cleared s) /\
   clearPipelineROIs (dec 90 100) s = (Ok (), s) /\
   clearPipelineROIs (dec 91 100) s = (Ok (), s)).
Proof.
  intros t. unfold clearPipelineROIs. fold t.
  split; [|split; [|split]].
  - intros Hlt. apply ltb_lt in Hlt. by rewrite Hlt.
  - intros Hge. apply ltb_ge in Hge. by rewrite Hge.
  - intros Hrois. destruct (ltb c t) eqn:E.
    + apply ltb_lt in E. simpl. tauto.
    + simpl. apply ltb_ge in E. apply Qcle_ngt in E. tauto.
  - intros ->. by vm_compute.
Qed.

Lemma clearPipelineROIs_threshold_witness :
  (dec 89 100 < detectionConfidence (self trackingState) /\
   clearPipelineROIs (dec 89 100) trackingState
   = (Ok (), cleared trackingState)) /\
  (detectionConfidence (self trackingState) ≤ dec 90 100 /\
   clearPipelineROIs (dec 90 100) trackingState = (Ok (), trackingState)) /\
  (regionsOfInterest (pipeline (self trackingState)) <> [] /\
   (regionsOfInterest
      (pipeline (self (clearPipelineROIs (dec 91 100) trackingState).2)) = []
    <-> dec 91 100 < detectionConfidence (self trackingState))) /\
  (detectionConfidence (self trackingState) = defaultDetectionConfidence /\
   clearPipelineROIs (dec 91 100) trackingState = (Ok (), trackingState)).
Proof.
  split; [|split; [|split]].
  - assert (H : dec 89 100 < detectionConfidence (self trackingState))
      by (by vm_compute).
    split; [exact H|].
    exact (proj1 (clearPipelineROIs_threshold (dec 89 100) trackingState) H).
  - assert (H : detectionConfidence (self trackingState) ≤ dec 90 100)
      by (by vm_compute).
    split; [exact H|].
    exact (proj1 (proj2 (clearPipelineROIs_threshold (dec 90 100) trackingState)) H).
  - assert (H : regionsOfInterest (pipeline (self trackingState)) <> [])
      by discriminate.
    split; [exact H|].
    exact (proj1 (proj2 (proj2
             (clearPipelineROIs_threshold (dec 91 100) trackingState))) H).
  - split; [reflexivity|].
    exact (proj2 (proj2 (proj2 (proj2 (proj2
             (clearPipelineROIs_threshold 0 trackingState))) eq_refl))).
Defined.

(** ** Running the tensor operations *)

Lemma bind_run {A B} (m : M A) (k : A -> M B) s a s' :
  m s = (Ok a, s') -> bind m k s = k a s'.
Proof. unfold bind. by intros ->. Qed.

Lemma bind_throw {A B} (m : M A) (k : A -> M B) s e s' :
  m s = (Throw e, s') -> bind m k s = (Throw e, s').
Proof. unfold bind. by intros ->. Qed.

Lemma bump_bump (n m : nat) (s : State) : bump n (bump m s) = bump (n + m) s.
Proof. unfold bump. simpl. by rewrite Nat.add_assoc. Qed.

Lemma live_bump (n : nat) (s : State) (t : Tensor) :
  live (bump n s) t <-> live s t.
Proof. done. Qed.

Lemma engineOk_bump (n : nat) (s : State) :
  engineOk (engine s) = true -> engineOk (engine (bump n s)) = true.
Proof.
  unfold engineOk. rewrite !bool_decide_eq_true. simpl.
  intros H i Hi. specialize (H i Hi). simpl in H. lia.
Qed.

(** A tensor that the runtime has yet to allocate is not disposed. *)
Lemma fresh_live (s : State) (t : Tensor) :
  engineOk (engine s) = true ->
  (nextTensorId (engine s) <= id t)%nat -> live s t.
Proof.
  unfold engineOk, live, tf.isDisposed.
  rewrite bool_decide_eq_true, bool_decide_eq_false.
  intros H Hle Hin. specialize (H _ Hin). simpl in H. lia.
Qed.

Lemma throwIfDisposed_run (t : Tensor) (s : State) :
  live s t -> tf.throwIfDisposed t s = (Ok (), s).
Proof. unfold live, tf.throwIfDisposed. by intros ->. Qed.

Lemma make_run (sh : list nat) (vs : list number) (s : State) :
  tf.make sh vs s = (Ok (mkTensor (nextTensorId (engine s)) sh vs), bump 1 s).
Proof. done. Qed.

Lemma slice_run (t : Tensor) (b sz d : nat) (rest : list nat) (s : State) :
  live s t -> shape t = d :: rest -> (b + sz <= d)%nat ->
  tf.slice t b sz s
  = (Ok (mkTensor (nextTensorId (engine s)) (sz :: rest)
           (take (sz * tf.sizeFromShape rest)
                 (drop (b * tf.sizeFromShape rest) (values t)))),
     bump 1 s).
Proof.
  intros Hl Hsh Hle. unfold tf.slice.
  rewrite (bind_run _ _ _ _ _ (throwIfDisposed_run _ _ Hl)), Hsh.
  apply Nat.leb_le in Hle. by rewrite Hle.
Qed.

Lemma slice_out_of_range (t : Tensor) (b sz d : nat) (rest : list nat)
    (s : State) :
  live s t -> shape t = d :: rest -> (d < b + sz)%nat ->
  tf.slice t b sz s = (Throw ShapeError, s).
Proof.
  intros Hl Hsh Hlt. unfold tf.slice.
  rewrite (bind_run _ _ _ _ _ (throwIfDisposed_run _ _ Hl)), Hsh.
  apply Nat.leb_gt in Hlt. by rewrite Hlt.
Qed.

Lemma concat_run (a b : Tensor) (da db : nat) (rest : list nat) (s : State) :
  live s a -> live s b -> shape a = da :: rest -> shape b = db :: rest ->
  tf.concat [a; b] s
  = (Ok (mkTensor (nextTensorId (engine s)) ((da + db)%nat :: rest)
           (values a ++ values b)),
     bump 1 s).
Proof.
  intros Ha Hb Hsa Hsb. unfold tf.concat. simpl mapM.
  rewrite (bind_run _ _ s [(); ()] s).
  2:{ rewrite (bind_run _ _ _ _ _ (throwIfDisposed_run _ _ Ha)).
      rewrite (bind_run _ _ s [()] s); [done|].
      by rewrite (bind_run _ _ _ _ _ (throwIfDisposed_run _ _ Hb)). }
  rewrite Hsa. cbn [forallb map sum_list flat_map hd]. rewrite Hsa, Hsb.
  cbn [tail hd]. rewrite !bool_decide_eq_true_2 by done.
  rewrite !bool_decide_eq_false_2 by done. cbn [negb andb].
  rewrite make_run.
  by rewrite Nat.add_0_r, app_nil_r.
Qed.

Lemma binaryOp_run f (a b : Tensor) (sh : list nat) (s : State) :
  live s a -> live s b ->
  tf.broadcastShape (shape a) (shape b) = Some sh ->
  tf.binaryOp f a b s
  = (Ok (mkTensor (nextTensorId (engine s)) sh
           (tf.broadcastValues f (tf.padShape (length sh) (shape a))
              (tf.padShape (length sh) (shape b)) (values a) (values b))),
     bump 1 s).
Proof.
  intros Ha Hb Hsh. unfold tf.binaryOp.
  rewrite (bind_run _ _ _ _ _ (throwIfDisposed_run _ _ Ha)).
  rewrite (bind_run _ _ _ _ _ (throwIfDisposed_run _ _ Hb)).
  by rewrite Hsh.
Qed.

Lemma points_unpoints (l : list Point) : tf.points (unpoints l) = l.
Proof. induction l as [|[x y] l IH]; simpl; by rewrite ?IH. Qed.

Lemma length_unpoints (l : list Point) :
  length (unpoints l) = (length l * 2)%nat.
Proof. induction l as [|[x y] l IH]; simpl; by rewrite ?IH. Qed.

Lemma unpoints_points (n : nat) (vs : list number) :
  length vs = (n * 2)%nat ->
  unpoints (tf.points vs) = vs /\ length (tf.points vs) = n.
Proof.
  revert vs. induction n as [|n IH]; intros vs Hlen.
  - by destruct vs.
  - destruct vs as [|x [|y vs]]; simpl in Hlen; try lia.
    destruct (IH vs) as [IH1 IH2]; [lia|]. simpl. by rewrite IH1, IH2.
Qed.

Lemma chunks_unpoints (l : list Point) :
  tf.chunks (length l) 2 (unpoints l) = map (fun p => [p.1; p.2]) l.
Proof.
  induction l as [|[x y] l IH]; simpl; [done|].
  by rewrite take_0, drop_0, IH.
Qed.

(** A row [[a, b]] against [n] rows of two values, on either side. *)
Lemma broadcastValues_row_l f (a b : number) (l : list Point) :
  tf.broadcastValues f [1%nat; 2%nat] [length l; 2%nat] [a; b] (unpoints l)
  = unpoints (map (fun p => (f a p.1, f b p.2)) l).
Proof.
  assert (Hrows : mjoin (map (tf.broadcastValues f [2%nat] [2%nat] [a; b])
                             (map (fun p : Point => [p.1; p.2]) l))
                  = unpoints (map (fun p => (f a p.1, f b p.2)) l)).
  { induction l as [|[x y] l IH]; [done|]. simpl in *. by rewrite IH. }
  cbn [tf.broadcastValues]. change (tf.sizeFromShape [2%nat]) with 2%nat.
  rewrite chunks_unpoints.
  destruct (1 =? length l)%nat eqn:E; [|done].
  apply Nat.eqb_eq in E. destruct l as [|[x y] [|? ?]]; done.
Qed.

Lemma broadcastValues_row_r f (a b : number) (l : list Point) :
  tf.broadcastValues f [length l; 2%nat] [1%nat; 2%nat] (unpoints l) [a; b]
  = unpoints (map (fun p => (f p.1 a, f p.2 b)) l).
Proof.
  assert (Hrows : mjoin (map (fun x => tf.broadcastValues f [2%nat] [2%nat]
                                         x [a; b])
                             (map (fun p : Point => [p.1; p.2]) l))
                  = unpoints (map (fun p => (f p.1 a, f p.2 b)) l)).
  { induction l as [|[x y] l IH]; [done|]. simpl in *. by rewrite IH. }
  cbn [tf.broadcastValues]. change (tf.sizeFromShape [2%nat]) with 2%nat.
  rewrite chunks_unpoints.
  destruct (length l =? 1)%nat eqn:E; [|done].
  apply Nat.eqb_eq in E. destruct l as [|[x y] [|? ?]]; done.
Qed.

(** ** The tensor branch of the flip *)

Lemma asPoint_inv (t : Tensor) (p : Point) :
  tf.asPoint t = Some p -> shape t = [2%nat] /\ values t = [p.1; p.2].
Proof.
  unfold tf.asPoint. intros H.
  destruct (shape t) as [|[|[|[|?]]] [|? ?]]; try done.
  destruct (values t) as [|x [|y [|? ?]]]; try done.
  by inversion H.
Qed.

Lemma cornerPoint_inv (t : Tensor) (p : Point) :
  cornerPoint t = Some p ->
  (shape t = [2%nat] \/ shape t = [2%nat; 1%nat]) /\ values t = [p.1; p.2].
Proof.
  unfold cornerPoint. intros H.
  destruct (shape t) as [|[|[|[|?]]] [|[|[|?]] [|? ?]]]; try done;
    destruct (values t) as [|x [|y [|? ?]]]; try done;
    inversion H; auto.
Qed.

Lemma cornerPoint_make (i : nat) (sh : list nat) (x y : number) :
  sh = [2%nat] \/ sh = [2%nat; 1%nat] ->
  cornerPoint (mkTensor i sh [x; y]) = Some (x, y).
Proof. by intros [-> | ->]. Qed.

Lemma asPoint_cornerPoint (t : Tensor) (p : Point) :
  tf.asPoint t = Some p -> cornerPoint t = Some p.
Proof.
  intros H. destruct (asPoint_inv _ _ H) as [Hsh Hvs].
  unfold cornerPoint. rewrite Hsh, Hvs. by destruct p.
Qed.

Lemma asPoints_inv (t : Tensor) (l : list Point) :
  tf.asPoints t = Some l ->
  shape t = [length l; 2%nat] /\ values t = unpoints l.
Proof.
  unfold tf.asPoints. intros H.
  destruct (shape t) as [|n [|[|[|[|?]]] [|? ?]]]; try done.
  destruct (length (values t) =? n * 2)%nat eqn:E; [|done].
  apply Nat.eqb_eq in E. inversion H; subst l.
  destruct (unpoints_points n (values t) E) as [-> ->]. done.
Qed.

Lemma asPoints_unpoints (i n : nat) (l : list Point) :
  n = length l ->
  tf.asPoints (mkTensor i [n; 2%nat] (unpoints l)) = Some l.
Proof.
  intros ->. unfold tf.asPoints. simpl.
  by rewrite length_unpoints, Nat.eqb_refl, points_unpoints.
Qed.

(** Liveness side conditions of a run that only allocates. *)
Ltac live_tac :=
  repeat rewrite live_bump;
  first [ assumption | apply fresh_live; [assumption | simpl; lia] ].

Lemma flipCornerTensor_run (W : number) (corner : Tensor) (p : Point)
    (s : State) :
  engineOk (engine s) = true -> live s corner ->
  cornerPoint corner = Some p ->
  flipCornerTensor W corner s
  = (Ok (mkTensor (4 + nextTensorId (engine s)) (shape corner)
                  [W - 1 - p.1; p.2]),
     bump 5 s).
Proof.
  intros Hok Hl Hp. destruct (cornerPoint_inv _ _ Hp) as [[Hsh|Hsh] Hvs].
  - unfold flipCornerTensor.
    erewrite bind_run;
      [|by apply (slice_run _ 0 1 2 []); [live_tac|done|lia]].
    erewrite bind_run; [|apply make_run].
    erewrite bind_run;
      [|by apply (binaryOp_run _ _ _ [1%nat]); [live_tac|live_tac|done]].
    erewrite bind_run;
      [|by apply (slice_run _ 1 1 2 []); [live_tac|done|simpl; lia]].
    erewrite concat_run; [|live_tac|live_tac|done|done].
    rewrite Hsh, Hvs, !bump_bump. done.
  - unfold flipCornerTensor.
    erewrite bind_run;
      [|by apply (slice_run _ 0 1 2 [1%nat]); [live_tac|done|lia]].
    erewrite bind_run; [|apply make_run].
    erewrite bind_run;
      [|by apply (binaryOp_run _ _ _ [1%nat; 1%nat]);
        [live_tac|live_tac|done]].
    erewrite bind_run;
      [|by apply (slice_run _ 1 1 2 [1%nat]); [live_tac|done|simpl; lia]].
    erewrite concat_run; [|live_tac|live_tac|done|done].
    rewrite Hsh, Hvs, !bump_bump. done.
Qed.

(** A corner stored as one row [[[x, y]]], of shape [[1, 2]], holds no
    point in the sense of [cornerPoint], and the corner expression fails on
    it: its first axis has no row 1 for [slice(1, 1)]. *)
Remark flipCornerTensor_row (W x y : number) (i : nat) (s : State) :
  engineOk (engine s) = true ->
  live s (mkTensor i [1%nat; 2%nat] [x; y]) ->
  (flipCornerTensor W (mkTensor i [1%nat; 2%nat] [x; y]) s).1
  = Throw ShapeError.
Proof.
  intros Hok Hl. unfold flipCornerTensor.
  erewrite bind_run;
    [|by apply (slice_run _ 0 1 1 [2%nat]); [live_tac|done|lia]].
  erewrite bind_run; [|apply make_run].
  erewrite bind_run;
    [|by apply (binaryOp_run _ _ _ [1%nat; 2%nat]);
      [live_tac|live_tac|done]].
  erewrite bind_throw;
    [|by apply (slice_out_of_range _ 1 1 1 [2%nat]); [live_tac|done|lia]].
  done.
Qed.


(** ** Rounding *)

Section RoundingFacts.

Local Open Scope Q_scope.

Lemma Qpow2_pos (e : Z) : 0 < 2 ^ e.
Proof. apply Qpower_0_lt. reflexivity. Qed.

Lemma Qpow2_plus (a b : Z) : 2 ^ (a + b) == 2 ^ a * 2 ^ b.
Proof. apply Qpower_plus. discriminate. Qed.

Lemma Qpow2_succ (a : Z) : 2 ^ (a + 1) == 2 * 2 ^ a.
Proof. rewrite Qpow2_plus. change (2 ^ 1) with 2. ring. Qed.

Lemma Qpow2_Z (n : Z) : (0 <= n)%Z -> inject_Z (2 ^ n) == 2 ^ n.
Proof. intros H. rewrite Zpower_Qpower by exact H. reflexivity. Qed.

Lemma Qpow2_le (a b : Z) : (a <= b)%Z -> 2 ^ a <= 2 ^ b.
Proof. intros H. apply Qpower_le_compat_l; [exact H|]. discriminate. Qed.

Lemma Qpow2_lt (a b : Z) : (a < b)%Z -> 2 ^ a < 2 ^ b.
Proof. intros H. apply Qpower_lt_compat_l; [exact H|]. reflexivity. Qed.

Lemma Qnum_den_mult (q : Q) : q * inject_Z (Zpos (Qden q)) == inject_Z (Qnum q).
Proof.
  destruct q as [a b]. unfold Qeq, Qmult, inject_Z. simpl. lia.
Qed.

Lemma ilog2_spec (q : Q) :
  0 < q -> 2 ^ ilog2 q <= q /\ q < 2 ^ (ilog2 q + 1).
Proof.
  intros Hq.
  assert (Ha : (0 < Qnum q)%Z).
  { destruct q as [a b]. unfold Qlt in Hq. simpl in *. lia. }
  assert (Hb : (0 < Zpos (Qden q))%Z) by lia.
  pose proof (Qnum_den_mult q) as Hmul.
  destruct (Z.log2_spec _ Ha) as [Ha1 Ha2].
  destruct (Z.log2_spec _ Hb) as [Hb1 Hb2].
  pose proof (Z.log2_nonneg (Qnum q)) as Hla.
  pose proof (Z.log2_nonneg (Zpos (Qden q))) as Hlb.
  set (la := Z.log2 (Qnum q)) in *. set (lb := Z.log2 (Zpos (Qden q))) in *.
  set (A := inject_Z (Qnum q)) in *. set (B := inject_Z (Zpos (Qden q))) in *.
  assert (HA1 : 2 ^ la <= A).
  { rewrite <- Qpow2_Z by exact Hla. unfold A. rewrite <- Zle_Qle. exact Ha1. }
  assert (HA2 : A < 2 ^ (la + 1)).
  { rewrite <- Qpow2_Z by lia. unfold A. rewrite <- Zlt_Qlt. exact Ha2. }
  assert (HB1 : 2 ^ lb <= B).
  { rewrite <- Qpow2_Z by exact Hlb. unfold B. rewrite <- Zle_Qle. exact Hb1. }
  assert (HB2 : B < 2 ^ (lb + 1)).
  { rewrite <- Qpow2_Z by lia. unfold B. rewrite <- Zlt_Qlt. exact Hb2. }
  set (k := (la - lb)%Z).
  assert (Hk1 : 2 ^ (la + 1) == 2 ^ (k + 1) * 2 ^ lb).
  { rewrite <- Qpow2_plus. replace (k + 1 + lb)%Z with (la + 1)%Z by lia.
    reflexivity. }
  assert (Hk2 : 2 ^ la == 2 ^ (k - 1) * 2 ^ (lb + 1)).
  { rewrite <- Qpow2_plus. replace (k - 1 + (lb + 1))%Z with la by lia.
    reflexivity. }
  pose proof (Qpow2_pos lb) as Plb. pose proof (Qpow2_pos (k + 1)) as Pk1.
  pose proof (Qpow2_pos (k - 1)) as Pk0. pose proof (Qpow2_pos (lb + 1)) as Plb1.
  assert (Hup : q < 2 ^ (k + 1)).
  { apply Qnot_le_lt. intros Hge.
    assert (H1 : 2 ^ (k + 1) * 2 ^ lb <= q * B) by nra.
    rewrite <- Hk1, Hmul in H1. lra. }
  assert (Hlo : 2 ^ (k - 1) < q).
  { apply Qnot_le_lt. intros Hle.
    assert (H1 : q * B < 2 ^ (k - 1) * 2 ^ (lb + 1)) by nra.
    rewrite <- Hk2, Hmul in H1. lra. }
  unfold ilog2. fold la lb k.
  destruct (Qle_bool (2 ^ k) q) eqn:E.
  - apply Qle_bool_iff in E. split; assumption.
  - assert (Hlt : q < 2 ^ k).
    { apply Qnot_le_lt. intros H. apply Qle_bool_iff in H. congruence. }
    replace (k - 1 + 1)%Z with k by lia. split; [apply Qlt_le_weak|]; assumption.
Qed.

Lemma ilog2_unique (q : Q) (e : Z) :
  2 ^ e <= q -> q < 2 ^ (e + 1) -> ilog2 q = e.
Proof.
  intros H1 H2.
  assert (Hq : 0 < q) by (pose proof (Qpow2_pos e); lra).
  destruct (ilog2_spec q Hq) as [H3 H4].
  destruct (Z.lt_trichotomy (ilog2 q) e) as [Hlt|[Heq|Hgt]]; [|exact Heq|].
  - exfalso. assert (H : 2 ^ (ilog2 q + 1) <= 2 ^ e) by (apply Qpow2_le; lia).
    lra.
  - exfalso. assert (H : 2 ^ (e + 1) <= 2 ^ ilog2 q) by (apply Qpow2_le; lia).
    lra.
Qed.

Lemma ilog2_comp (q q' : Q) : 0 < q -> q == q' -> ilog2 q = ilog2 q'.
Proof.
  intros Hq E. destruct (ilog2_spec q Hq) as [H1 H2].
  symmetry. apply ilog2_unique; rewrite <- E; assumption.
Qed.

Lemma nearestEven_spec (m : Q) :
  m - (1 # 2) <= inject_Z (nearestEven m) <= m + (1 # 2).
Proof.
  unfold nearestEven.
  pose proof (Qfloor_le m) as H1. pose proof (Qlt_floor m) as H2.
  rewrite inject_Z_plus in H2. change (inject_Z 1) with 1 in H2.
  destruct (Qcompare_spec (m - inject_Z (Qfloor m)) (1 # 2)) as [E|E|E].
  - destruct (Z.even (Qfloor m)).
    + lra.
    + rewrite inject_Z_plus. change (inject_Z 1) with 1. lra.
  - lra.
  - rewrite inject_Z_plus. change (inject_Z 1) with 1. lra.
Qed.

Lemma nearestEven_Z (z : Z) : nearestEven (inject_Z z) = z.
Proof.
  unfold nearestEven. rewrite Qfloor_Z.
  destruct (Qcompare_spec (inject_Z z - inject_Z z) (1 # 2)) as [E|E|E].
  - exfalso. lra.
  - reflexivity.
  - exfalso. lra.
Qed.

Lemma nearestEven_comp (m m' : Q) : m == m' -> nearestEven m = nearestEven m'.
Proof.
  intros E. unfold nearestEven. rewrite (Qfloor_comp _ _ E).
  assert (E' : m - inject_Z (Qfloor m') == m' - inject_Z (Qfloor m'))
    by (rewrite E; reflexivity).
  rewrite (Qcompare_comp _ _ E' (1#2) (1#2) (Qeq_refl _)). reflexivity.
Qed.

Lemma nearestEven_ge (m : Q) (a : Z) :
  inject_Z a <= m -> (a <= nearestEven m)%Z.
Proof.
  intros H. pose proof (nearestEven_spec m) as [H1 _].
  assert (H2 : inject_Z a < inject_Z (nearestEven m) + 1) by lra.
  change 1 with (inject_Z 1) in H2. rewrite <- inject_Z_plus in H2.
  rewrite <- Zlt_Qlt in H2. lia.
Qed.

Lemma nearestEven_le (m : Q) (b : Z) :
  m <= inject_Z b -> (nearestEven m <= b)%Z.
Proof.
  intros H. pose proof (nearestEven_spec m) as [_ H1].
  assert (H2 : inject_Z (nearestEven m) < inject_Z b + 1) by lra.
  change 1 with (inject_Z 1) in H2. rewrite <- inject_Z_plus in H2.
  rewrite <- Zlt_Qlt in H2. lia.
Qed.

(** The pieces of [roundPos p q]. *)
Lemma roundPos_pieces (p : Z) (q : Q) :
  (1 <= p)%Z -> 0 < q ->
  let e := ilog2 q in
  let u := 2 ^ (e - p + 1) in
  let n := nearestEven (q / u) in
  roundPos p q == inject_Z n * u /\ 0 < u /\
  (2 ^ (p - 1) <= n <= 2 ^ p)%Z /\
  2 ^ e <= inject_Z n * u <= 2 ^ (e + 1) /\
  q - u / 2 <= inject_Z n * u <= q + u / 2 /\
  u == 2 ^ e * 2 ^ (1 - p).
Proof.
  intros Hp Hq e u n.
  destruct (ilog2_spec q Hq) as [H1 H2]. fold e in H1, H2.
  pose proof (Qpow2_pos (e - p + 1)) as Hu. fold u in Hu.
  assert (Hm : q == (q / u) * u) by (field; lra).
  assert (Hlo : 2 ^ e == inject_Z (2 ^ (p - 1)) * u).
  { rewrite Qpow2_Z by lia. unfold u. rewrite <- Qpow2_plus.
    replace (p - 1 + (e - p + 1))%Z with e by lia. reflexivity. }
  assert (Hhi : 2 ^ (e + 1) == inject_Z (2 ^ p) * u).
  { rewrite Qpow2_Z by lia. unfold u. rewrite <- Qpow2_plus.
    replace (p + (e - p + 1))%Z with (e + 1)%Z by lia. reflexivity. }
  assert (Hm1 : inject_Z (2 ^ (p - 1)) <= q / u).
  { apply Qnot_lt_le. intros Hlt.
    assert (q / u * u < inject_Z (2 ^ (p - 1)) * u) by nra. lra. }
  assert (Hm2 : q / u <= inject_Z (2 ^ p)).
  { apply Qnot_lt_le. intros Hlt.
    assert (inject_Z (2 ^ p) * u < q / u * u) by nra. lra. }
  pose proof (nearestEven_ge _ _ Hm1) as Hn1.
  pose proof (nearestEven_le _ _ Hm2) as Hn2. fold n in Hn1, Hn2.
  pose proof (nearestEven_spec (q / u)) as [Hs1 Hs2]. fold n in Hs1, Hs2.
  split; [reflexivity|]. split; [exact Hu|]. split; [lia|].
  assert (Hn1' : inject_Z (2 ^ (p - 1)) <= inject_Z n)
    by (rewrite <- Zle_Qle; exact Hn1).
  assert (Hn2' : inject_Z n <= inject_Z (2 ^ p))
    by (rewrite <- Zle_Qle; exact Hn2).
  assert (Eu : u == 2 ^ e * 2 ^ (1 - p)).
  { unfold u. rewrite <- Qpow2_plus.
    replace (e + (1 - p))%Z with (e - p + 1)%Z by lia. reflexivity. }
  split; [|split; [|exact Eu]].
  - rewrite Hlo, Hhi. clear -Hu Hn1' Hn2'.
    set (a := inject_Z (2 ^ (p - 1))) in *. set (b := inject_Z (2 ^ p)) in *.
    set (c := inject_Z n) in *. clearbody a b c u. split; nra.
  - clear -Hu Hm Hs1 Hs2. set (m := q / u) in *. set (c := inject_Z n) in *.
    clearbody m c u.
    assert (H1 : 0 <= (c - (m - (1 # 2))) * u)
      by (apply Qmult_le_0_compat; lra).
    assert (H2 : 0 <= (m + (1 # 2) - c) * u)
      by (apply Qmult_le_0_compat; lra).
    assert (E2 : u / 2 == u * (1 # 2)) by (field).
    rewrite E2. split; lra.
Qed.

Lemma roundPos_pos (p : Z) (q : Q) :
  (1 <= p)%Z -> 0 < q -> 0 < roundPos p q.
Proof.
  intros Hp Hq.
  destruct (roundPos_pieces p q Hp Hq) as (E & Hu & _ & [H1 _] & _).
  rewrite E. pose proof (Qpow2_pos (ilog2 q)). lra.
Qed.

Lemma roundPos_error (p : Z) (q : Q) :
  (1 <= p)%Z -> 0 < q ->
  Qabs.Qabs (roundPos p q - q) <= 2 ^ (- p) * q.
Proof.
  intros Hp Hq.
  destruct (roundPos_pieces p q Hp Hq) as (E & Hu & _ & _ & [H1 H2] & Eu).
  destruct (ilog2_spec q Hq) as [H3 _].
  rewrite E. apply Qabs.Qabs_Qle_condition.
  assert (Hh : 2 ^ (1 - p) == 2 * 2 ^ (- p)).
  { replace (1 - p)%Z with (- p + 1)%Z by lia. apply Qpow2_succ. }
  pose proof (Qpow2_pos (- p)) as Hpp.
  set (u := 2 ^ (ilog2 q - p + 1)) in *. set (n := nearestEven (q / u)) in *.
  assert (Hu2 : u / 2 <= 2 ^ (- p) * q).
  { rewrite Eu, Hh. assert (2 ^ ilog2 q * 2 ^ (- p) <= q * 2 ^ (- p)) by nra.
    field_simplify. lra. }
  split; lra.
Qed.

Lemma roundPos_comp (p : Z) (q q' : Q) :
  0 < q -> q == q' -> roundPos p q == roundPos p q'.
Proof.
  intros Hq E. unfold roundPos. rewrite <- (ilog2_comp q q' Hq E).
  assert (E' : q / 2 ^ (ilog2 q - p + 1) == q' / 2 ^ (ilog2 q - p + 1))
    by (apply Qdiv_comp; [exact E|reflexivity]).
  rewrite (nearestEven_comp _ _ E'). reflexivity.
Qed.

Lemma roundPos_fixed (p : Z) (n e : Z) :
  (1 <= p)%Z -> (2 ^ (p - 1) <= n < 2 ^ p)%Z ->
  roundPos p (inject_Z n * 2 ^ (e - p + 1)) == inject_Z n * 2 ^ (e - p + 1).
Proof.
  intros Hp [Hn1 Hn2].
  pose proof (Qpow2_pos (e - p + 1)) as Hu.
  assert (Hlo : 2 ^ e == inject_Z (2 ^ (p - 1)) * 2 ^ (e - p + 1)).
  { rewrite Qpow2_Z by lia. rewrite <- Qpow2_plus.
    replace (p - 1 + (e - p + 1))%Z with e by lia. reflexivity. }
  assert (Hhi : 2 ^ (e + 1) == inject_Z (2 ^ p) * 2 ^ (e - p + 1)).
  { rewrite Qpow2_Z by lia. rewrite <- Qpow2_plus.
    replace (p + (e - p + 1))%Z with (e + 1)%Z by lia. reflexivity. }
  assert (Hn1' : inject_Z (2 ^ (p - 1)) <= inject_Z n)
    by (rewrite <- Zle_Qle; exact Hn1).
  assert (Hn2' : inject_Z n < inject_Z (2 ^ p))
    by (rewrite <- Zlt_Qlt; exact Hn2).
  assert (He : ilog2 (inject_Z n * 2 ^ (e - p + 1)) = e).
  { apply ilog2_unique; nra. }
  unfold roundPos. rewrite He.
  assert (Em : inject_Z n * 2 ^ (e - p + 1) / 2 ^ (e - p + 1) == inject_Z n)
    by (field; lra).
  rewrite (nearestEven_comp _ _ Em), nearestEven_Z. reflexivity.
Qed.

Lemma roundPos_idempotent (p : Z) (q : Q) :
  (1 <= p)%Z -> 0 < q -> roundPos p (roundPos p q) == roundPos p q.
Proof.
  intros Hp Hq.
  destruct (roundPos_pieces p q Hp Hq) as (E & Hu & [Hn1 Hn2] & _).
  set (e := ilog2 q) in *. set (u := 2 ^ (e - p + 1)) in *.
  set (n := nearestEven (q / u)) in *.
  assert (Hpos : 0 < roundPos p q) by (apply roundPos_pos; assumption).
  rewrite (roundPos_comp p _ _ Hpos E).
  destruct (Z.eq_dec n (2 ^ p)%Z) as [Hn|Hn].
  - assert (E2 : inject_Z n * u
                 == inject_Z (2 ^ (p - 1)) * 2 ^ ((e + 1) - p + 1)).
    { rewrite Hn. rewrite !Qpow2_Z by lia. unfold u. rewrite <- !Qpow2_plus.
      replace (p - 1 + (e + 1 - p + 1))%Z with (p + (e - p + 1))%Z by lia.
      reflexivity. }
    assert (Hpos2 : 0 < inject_Z n * u) by (rewrite <- E; exact Hpos).
    rewrite (roundPos_comp p _ _ Hpos2 E2).
    rewrite roundPos_fixed; [symmetry; exact E2|exact Hp|].
    split; [lia|]. apply Z.pow_lt_mono_r; lia.
  - unfold u. apply roundPos_fixed; [exact Hp|lia].
Qed.

Lemma roundQ_pos (p : Z) (q : Q) : 0 < q -> roundQ p q = roundPos p q.
Proof.
  intros H. unfold roundQ.
  destruct (Qcompare_spec q 0) as [E|E|E]; [exfalso; lra|exfalso; lra|].
  reflexivity.
Qed.

Lemma roundQ_neg (p : Z) (q : Q) : q < 0 -> roundQ p q = - roundPos p (- q).
Proof.
  intros H. unfold roundQ.
  destruct (Qcompare_spec q 0) as [E|E|E]; [exfalso; lra| |exfalso; lra].
  reflexivity.
Qed.

Lemma roundQ_zero (p : Z) (q : Q) : q == 0 -> roundQ p q = 0.
Proof.
  intros H. unfold roundQ.
  destruct (Qcompare_spec q 0) as [E|E|E]; [|exfalso; lra|exfalso; lra].
  reflexivity.
Qed.

Lemma roundQ_comp (p : Z) (q q' : Q) : q == q' -> roundQ p q == roundQ p q'.
Proof.
  intros E. destruct (Q_dec q 0) as [[H|H]|H].
  - rewrite (roundQ_neg p q H), (roundQ_neg p q') by lra.
    apply Qopp_comp. apply roundPos_comp; [lra|]. rewrite E. reflexivity.
  - rewrite (roundQ_pos p q H), (roundQ_pos p q') by lra.
    apply roundPos_comp; assumption.
  - rewrite (roundQ_zero p q H), (roundQ_zero p q') by lra. reflexivity.
Qed.

Lemma roundQ_opp (p : Z) (q : Q) : roundQ p (- q) == - roundQ p q.
Proof.
  destruct (Q_dec q 0) as [[H|H]|H].
  - rewrite (roundQ_neg p q H), (roundQ_pos p (- q)) by lra. ring.
  - rewrite (roundQ_pos p q H), (roundQ_neg p (- q)) by lra.
    apply Qopp_comp. apply roundPos_comp; [lra|]. ring.
  - rewrite (roundQ_zero p q H), (roundQ_zero p (- q)) by lra. ring.
Qed.

Lemma roundQ_error (p : Z) (q : Q) :
  (1 <= p)%Z -> Qabs.Qabs (roundQ p q - q) <= 2 ^ (- p) * Qabs.Qabs q.
Proof.
  intros Hp. pose proof (Qpow2_pos (- p)) as Hpp.
  destruct (Q_dec q 0) as [[H|H]|H].
  - rewrite (roundQ_neg p q H). rewrite (Qabs.Qabs_neg q) by lra.
    pose proof (roundPos_error p (- q) Hp ltac:(lra)) as He.
    apply Qabs.Qabs_Qle_condition in He. apply Qabs.Qabs_Qle_condition.
    lra.
  - rewrite (roundQ_pos p q H). rewrite (Qabs.Qabs_pos q) by lra.
    apply roundPos_error; assumption.
  - rewrite (roundQ_zero p q H). apply Qabs.Qabs_Qle_condition.
    pose proof (Qabs.Qabs_nonneg q). split; nra.
Qed.

Lemma roundQ_idempotent (p : Z) (q : Q) :
  (1 <= p)%Z -> roundQ p (roundQ p q) == roundQ p q.
Proof.
  intros Hp. destruct (Q_dec q 0) as [[H|H]|H].
  - rewrite (roundQ_neg p q H).
    pose proof (roundPos_pos p (- q) Hp ltac:(lra)) as Hpos.
    rewrite roundQ_opp. apply Qopp_comp.
    rewrite (roundQ_pos p _ Hpos). apply roundPos_idempotent; [exact Hp|lra].
  - rewrite (roundQ_pos p q H).
    pose proof (roundPos_pos p q Hp H) as Hpos.
    rewrite (roundQ_pos p _ Hpos). apply roundPos_idempotent; assumption.
  - rewrite (roundQ_zero p q H). reflexivity.
Qed.

(** Two mirrorings in an arithmetic that rounds with relative error [eps]. *)
Lemma mirror_twice_error (r : Q -> Q) (eps w x : Q) :
  0 <= eps ->
  (forall q, Qabs.Qabs (r q - q) <= eps * Qabs.Qabs q) ->
  Qabs.Qabs (r (w - r (w - x)) - x)
  <= eps * (Qabs.Qabs x + (1 + eps) * Qabs.Qabs (w - x)).
Proof.
  intros He Hr.
  pose proof (Hr (w - x)) as H1. pose proof (Hr (w - r (w - x))) as H2.
  set (x1 := r (w - x)) in *. set (x2 := r (w - x1)) in *.
  set (A := Qabs.Qabs (w - x)) in *.
  assert (HA : 0 <= A) by apply Qabs.Qabs_nonneg.
  pose proof (Qabs.Qabs_nonneg x) as HX.
  assert (H3 : Qabs.Qabs (w - x1) <= Qabs.Qabs x + eps * A).
  { assert (E : w - x1 == x + - (x1 - (w - x))) by ring.
    rewrite E. eapply Qle_trans; [apply Qabs.Qabs_triangle|].
    rewrite Qabs.Qabs_opp. lra. }
  set (B := Qabs.Qabs (w - x1)) in *. set (X := Qabs.Qabs x) in *.
  assert (H4 : 0 <= eps * (X + eps * A - B))
    by (apply Qmult_le_0_compat; lra).
  assert (E : x2 - x == (x2 - (w - x1)) + - (x1 - (w - x))) by ring.
  rewrite E. eapply Qle_trans; [apply Qabs.Qabs_triangle|].
  rewrite Qabs.Qabs_opp. fold A. lra.
Qed.

End RoundingFacts.

(** *** Rounding of numbers *)

Section RoundTo.

#[local] Instance roundQ_Proper (p : Z) : Proper (Qeq ==> Qeq) (roundQ p).
Proof. intros q q' E. by apply roundQ_comp. Qed.

Lemma this_plus (a b : Qc) : (this (a + b) == this a + this b)%Q.
Proof. simpl. apply Qred_correct. Qed.

Lemma this_minus (a b : Qc) : (this (a - b) == this a - this b)%Q.
Proof.
  unfold Qcminus. rewrite this_plus. simpl. by rewrite Qred_correct.
Qed.

Lemma this_mult (a b : Qc) : (this (a * b) == this a * this b)%Q.
Proof. simpl. apply Qred_correct. Qed.

Lemma this_opp (a : Qc) : (this (- a) == - this a)%Q.
Proof. simpl. apply Qred_correct. Qed.

Lemma this_magnitude (a : Qc) : (this (magnitude a) == Qabs.Qabs (this a))%Q.
Proof. reflexivity. Qed.

Lemma this_pow2 (e : Z) : (this (pow2 e) == 2 ^ e)%Q.
Proof. unfold pow2. simpl. apply Qred_correct. Qed.

Lemma this_roundTo (p : Z) (q : Qc) : (this (roundTo p q) == roundQ p q)%Q.
Proof. unfold roundTo. simpl. apply Qred_correct. Qed.

Lemma roundTo_opp (p : Z) (q : number) : roundTo p (- q) = - roundTo p q.
Proof.
  apply Qc_is_canon.
  by rewrite this_roundTo, !this_opp, this_roundTo, roundQ_opp.
Qed.

Lemma roundTo_idempotent (p : Z) (q : number) :
  (1 <= p)%Z -> roundTo p (roundTo p q) = roundTo p q.
Proof.
  intros Hp. apply Qc_is_canon.
  by rewrite !this_roundTo, roundQ_idempotent.
Qed.

Lemma unitRoundoff_nonneg (p : Z) : 0 <= unitRoundoff p.
Proof.
  unfold unitRoundoff, Qcle. rewrite this_pow2.
  apply Qlt_le_weak, Qpow2_pos.
Qed.

(** [roundTo p] has relative error at most [2 ^ - p]. *)
Lemma roundTo_error (p : Z) (q : number) :
  (1 <= p)%Z ->
  distance (roundTo p q) q <= unitRoundoff p * magnitude q.
Proof.
  intros Hp. unfold distance, unitRoundoff, Qcle.
  rewrite this_mult, !this_magnitude, this_minus, this_roundTo, this_pow2.
  by apply roundQ_error.
Qed.

(** Mirroring twice about [w], each subtraction rounded to [p] bits. *)
Lemma roundTo_mirror_twice (p : Z) (w x : number) :
  (1 <= p)%Z ->
  distance (roundTo p (w - roundTo p (w - x))) x
  <= unitRoundoff p
     * (magnitude x + (1 + unitRoundoff p) * magnitude (w - x)).
Proof.
  intros Hp. unfold distance, unitRoundoff, Qcle.
  rewrite this_mult, this_plus, this_mult, this_plus, !this_magnitude.
  rewrite !this_minus, this_roundTo, this_minus, this_roundTo, this_minus.
  rewrite this_pow2. change (this 1) with 1%Q.
  apply mirror_twice_error.
  - apply Qlt_le_weak, Qpow2_pos.
  - intros q. by apply roundQ_error.
Qed.

End RoundTo.

(** ** The flip in an arithmetic *)

(** Without rounding, the flip in an arithmetic is the flip above. *)
Lemma flipFaceHorizontalIn_exact (face : AnnotatedPrediction) (W : number) :
  flipFaceHorizontalIn exact face W = flipFaceHorizontal face W.
Proof. by destruct face. Qed.

Section FlipInFacts.

Variable A : Arithmetic.

Lemma flipCornerTensorIn_run (W : number) (corner : Tensor) (p : Point)
    (s : State) :
  engineOk (engine s) = true -> live s corner ->
  cornerPoint corner = Some p ->
  flipCornerTensorIn A W corner s
  = (Ok (mkTensor (4 + nextTensorId (engine s)) (shape corner)
                  [(cornerFormula A W p).1; (cornerFormula A W p).2]),
     bump 5 s).
Proof.
  intros Hok Hl Hp. destruct (cornerPoint_inv _ _ Hp) as [[Hsh|Hsh] Hvs].
  - unfold flipCornerTensorIn.
    erewrite bind_run;
      [|by apply (slice_run _ 0 1 2 []); [live_tac|done|lia]].
    erewrite bind_run; [|apply make_run].
    erewrite bind_run;
      [|by apply (binaryOp_run _ _ _ [1%nat]); [live_tac|live_tac|done]].
    erewrite bind_run;
      [|by apply (slice_run _ 1 1 2 []); [live_tac|done|simpl; lia]].
    erewrite concat_run; [|live_tac|live_tac|done|done].
    rewrite Hsh, Hvs, !bump_bump. done.
  - unfold flipCornerTensorIn.
    erewrite bind_run;
      [|by apply (slice_run _ 0 1 2 [1%nat]); [live_tac|done|lia]].
    erewrite bind_run; [|apply make_run].
    erewrite bind_run;
      [|by apply (binaryOp_run _ _ _ [1%nat; 1%nat]);
        [live_tac|live_tac|done]].
    erewrite bind_run;
      [|by apply (slice_run _ 1 1 2 [1%nat]); [live_tac|done|simpl; lia]].
    erewrite concat_run; [|live_tac|live_tac|done|done].
    rewrite Hsh, Hvs, !bump_bump. done.
Qed.

Lemma flipMeshTensorIn_run (W : number) (m : Tensor) (l : list Point)
    (s : State) :
  engineOk (engine s) = true -> live s m ->
  tf.asPoints m = Some l ->
  flipMeshTensorIn A W m s
  = (Ok (mkTensor (3 + nextTensorId (engine s)) [length l; 2%nat]
                  (unpoints (map (meshFormula A W) l))),
     bump 4 s).
Proof.
  intros Hok Hl Hm. destruct (asPoints_inv _ _ Hm) as [Hsh Hvs].
  unfold flipMeshTensorIn.
  erewrite bind_run; [|apply make_run].
  erewrite bind_run;
    [|apply (binaryOp_run _ _ _ [length l; 2%nat]);
      [live_tac|live_tac|by rewrite Hsh]].
  erewrite bind_run; [|apply make_run].
  erewrite binaryOp_run with (sh := [length l; 2%nat]);
    [|live_tac|live_tac|done].
  rewrite !bump_bump. f_equal. f_equal. cbn [shape values map].
  rewrite Hsh, Hvs.
  change (tf.padShape _ [length l; 2%nat]) with [length l; 2%nat].
  change (tf.padShape _ [2%nat]) with [1%nat; 2%nat].
  change (tf.padShape _ [length _]) with [1%nat; 2%nat].
  rewrite broadcastValues_row_l.
  set (l1 := map (fun p : Point =>
                    (tminus A (store A (minus A W 1)) p.1,
                     tminus A (store A 0) p.2)) l).
  replace (length l) with (length l1) by apply length_map.
  rewrite broadcastValues_row_r. subst l1. rewrite length_map, map_map.
  done.
Qed.

Lemma flipFaceHorizontalIn_arrays (W : number) (face : ArrayFace)
    (s : State) :
  flipFaceHorizontalIn A (Arrays face) W s
  = (Ok (Arrays (mkFace (faceInViewConfidence face)
                   (mkBoundingBox
                      (flipCoordIn A W (topLeft (boundingBox face)))
                      (flipCoordIn A W (bottomRight (boundingBox face))))
                   (map (flipCoordIn A W) (mesh face))
                   (map (flipCoordIn A W) (scaledMesh face))
                   (annotations face))), s).
Proof. done. Qed.

Lemma flipFaceHorizontalIn_tensors (W : number) (face : TensorFace)
    (c : Coordinates) (s : State) :
  engineOk (engine s) = true -> buffersLive s face ->
  tensorCoordinates face = Some c ->
  exists face',
    flipFaceHorizontalIn A (Tensors face) W s
    = (Ok (Tensors face'), bump 18 s) /\
    tensorCoordinates face' = Some (flipTensorCoordinates A W c) /\
    buffersLive (bump 18 s) face' /\
    faceInViewConfidence face' = faceInViewConfidence face /\
    annotations face' = annotations face.
Proof.
  intros Hok (Htl & Hbr & Hm & Hsm) Hc. unfold tensorCoordinates in Hc.
  destruct (cornerPoint (topLeft (boundingBox face))) as [tl|] eqn:Etl;
    [|done].
  destruct (cornerPoint (bottomRight (boundingBox face))) as [br|] eqn:Ebr;
    [|done].
  destruct (tf.asPoints (mesh face)) as [m|] eqn:Em; [|done].
  destruct (tf.asPoints (scaledMesh face)) as [sm|] eqn:Esm; [|done].
  simpl in Hc. inversion Hc; subst c; clear Hc.
  eexists. split; [|split; [|split]].
  - unfold flipFaceHorizontalIn.
    erewrite bind_run; [|by apply flipCornerTensorIn_run].
    erewrite bind_run;
      [|apply flipCornerTensorIn_run;
        [by apply engineOk_bump|live_tac|exact Ebr]].
    rewrite bump_bump.
    erewrite bind_run;
      [|apply flipMeshTensorIn_run;
        [by apply engineOk_bump|live_tac|exact Em]].
    rewrite bump_bump.
    erewrite bind_run;
      [|apply flipMeshTensorIn_run;
        [by apply engineOk_bump|live_tac|exact Esm]].
    rewrite bump_bump. reflexivity.
  - unfold tensorCoordinates. cbn [boundingBox topLeft bottomRight mesh
      scaledMesh]. rewrite !asPoints_unpoints by (by rewrite length_map).
    rewrite !cornerPoint_make
      by (eapply proj1, cornerPoint_inv; eassumption).
    done.
  - unfold buffersLive. cbn [boundingBox topLeft bottomRight mesh scaledMesh].
    repeat split; live_tac.
  - done.
Qed.

(** Every result of the tensor branch has the flipped [topLeft] of the input
    as its [topLeft] and the flipped [bottomRight] as its [bottomRight]. *)
Lemma flipFaceHorizontalIn_tensors_corners (W : number) (face : TensorFace)
    (s : State) r s' :
  flipFaceHorizontalIn A (Tensors face) W s = (Ok r, s') ->
  exists face' s1 s2,
    r = Tensors face' /\
    flipCornerTensorIn A W (topLeft (boundingBox face)) s
    = (Ok (topLeft (boundingBox face')), s1) /\
    flipCornerTensorIn A W (bottomRight (boundingBox face)) s1
    = (Ok (bottomRight (boundingBox face')), s2).
Proof.
  cbn [flipFaceHorizontalIn]. unfold bind.
  destruct (flipCornerTensorIn A W (topLeft (boundingBox face)) s)
    as [[tl|e] s1] eqn:Htl; [|done].
  destruct (flipCornerTensorIn A W (bottomRight (boundingBox face)) s1)
    as [[br|e] s2] eqn:Hbr; [|done].
  destruct (flipMeshTensorIn A W (mesh face) s2) as [[m|e] s3]; [|done].
  destruct (flipMeshTensorIn A W (scaledMesh face) s3) as [[sm|e] s4];
    [|done].
  intros H. inversion H; subst. eexists _, s1, s2. split; [reflexivity|].
  split; [reflexivity|exact Hbr].
Qed.

End FlipInFacts.

(** *** In the arithmetic of the runtime *)

Lemma binary32_0 : binary32 0 = 0.
Proof. by apply Qc_is_canon. Qed.

Lemma binary32_1 : binary32 1 = 1.
Proof. by apply Qc_is_canon. Qed.

Lemma binary32_opp (q : number) : binary32 (- q) = - binary32 q.
Proof. apply roundTo_opp. Qed.

Lemma binary32_idempotent (q : number) : binary32 (binary32 q) = binary32 q.
Proof. by apply roundTo_idempotent. Qed.

Lemma Qc_zero_minus (y : Qc) : 0 - y = - y.
Proof. ring. Qed.

Lemma Qc_opp_times_opp_1 (y : Qc) : - y * - 1 = y.
Proof. ring. Qed.

Lemma cornerFormula_ieee (W : number) (p : Point) :
  cornerFormula ieee W p = (mirror32 W p.1, p.2).
Proof. done. Qed.

(** The products with 1 and with -1 round nothing: a mesh point goes to
    [(W - 1) - x] in binary32 and to its own [y], as an entry. *)
Lemma meshFormula_ieee (W : number) (p : Point) :
  meshFormula ieee W p = (mirror32 W p.1, binary32 p.2).
Proof.
  unfold meshFormula, mirror32. cbn [ieee minus store tminus ttimes].
  rewrite binary32_1, binary32_0, binary32_opp, binary32_1.
  rewrite Qcmult_1_r, binary32_idempotent.
  rewrite Qc_zero_minus, binary32_opp, Qc_opp_times_opp_1.
  by rewrite binary32_idempotent.
Qed.

Lemma Forall_unpoints (P : number -> Prop) (l : list Point) :
  Forall P (unpoints l) <-> Forall (fun p => P p.1 /\ P p.2) l.
Proof.
  induction l as [|[x y] l IH]; simpl.
  - split; constructor.
  - rewrite !Forall_cons, IH. simpl. tauto.
Qed.

Lemma flipFaceHorizontal_arrays (W : number) (face : ArrayFace) (s : State) :
  exists face',
    flipFaceHorizontal (Arrays face) W s = (Ok (Arrays face'), s) /\
    arrayCoordinates face' = flipCoordinates W (arrayCoordinates face) /\
    faceInViewConfidence face' = faceInViewConfidence face /\
    annotations face' = annotations face.
Proof. eexists. split; [reflexivity|]. done. Qed.


(** ** Horizontal flip *)

Lemma Forall2_mirrorsBy_map (f : number -> number) (g : Point -> Point)
    (l : list Point) :
  Forall (fun p => g p = (f p.1, p.2)) l ->
  Forall2 (mirrorsBy f) l (map g l).
Proof.
  induction 1 as [|p l Hp _ IH]; simpl; constructor; [|exact IH].
  rewrite Hp. by split.
Qed.

Lemma Forall2_closePoint_map (eps w : number) (g : Point -> Point)
    (l : list Point) :
  (forall p, closePoint eps w p (g p)) ->
  Forall2 (closePoint eps w) l (map g l).
Proof. intros Hg. induction l as [|p l IH]; simpl; constructor; auto. Qed.

Lemma unitRoundoff_magnitude_nonneg (p : Z) (v : number) :
  0 <= unitRoundoff p * magnitude v.
Proof.
  unfold Qcle. rewrite this_mult. apply Qmult_le_0_compat.
  - apply (unitRoundoff_nonneg p).
  - apply Qabs.Qabs_nonneg.
Qed.

Lemma distance_same (p : Z) (v : number) :
  distance v v <= unitRoundoff p * magnitude v.
Proof.
  unfold distance. replace (v - v) with (0 : Qc) by ring.
  apply unitRoundoff_magnitude_nonneg.
Qed.

(** Two mirrorings of a point, by either expression of either branch: the
    second result is the point within the tolerance. *)
Lemma flipCoordIn_twice_close (W : number) (p : Point) :
  closePoint (unitRoundoff 53) (binary64 (W - 1)) p
    (flipCoordIn ieee W (flipCoordIn ieee W p)).
Proof.
  split; cbn [flipCoordIn ieee minus fst snd].
  - by apply roundTo_mirror_twice.
  - apply distance_same.
Qed.

Lemma cornerFormula_twice_close (W : number) (p : Point) :
  closePoint (unitRoundoff 24) (binary32 (binary64 (W - 1))) p
    (cornerFormula ieee W (cornerFormula ieee W p)).
Proof.
  rewrite !cornerFormula_ieee. split; cbn [fst snd].
  - by apply roundTo_mirror_twice.
  - apply distance_same.
Qed.

Lemma meshFormula_twice_close (W : number) (p : Point) :
  closePoint (unitRoundoff 24) (binary32 (binary64 (W - 1))) p
    (meshFormula ieee W (meshFormula ieee W p)).
Proof.
  rewrite !meshFormula_ieee. split; cbn [fst snd].
  - by apply roundTo_mirror_twice.
  - rewrite binary32_idempotent. by apply roundTo_error.
Qed.

(** The worked example of the specification: width 640, point (100, 50). *)
Example flipCoord_640 :
  flipCoordIn ieee (dec 640 1) (dec 100 1, dec 50 1) = (dec 539 1, dec 50 1).
Proof. unfold flipCoordIn. simpl. f_equal. by apply Qc_is_canon. Qed.

(** The number 0.1, mirrored twice about the width 640, comes back as
    0.10000000000002274; the entry 0.1 of a tensor, which is
    0.100000001490116, comes back as 0.0999755859375. *)
Example flipCoord_twice_one_tenth :
  (flipCoordIn ieee (dec 640 1)
     (flipCoordIn ieee (dec 640 1) (binary64 (dec 1 10), 0))).1
  = dec 879609302221 8796093022208 /\
  (cornerFormula ieee (dec 640 1)
     (cornerFormula ieee (dec 640 1) (binary32 (dec 1 10), 0))).1
  = dec 819 8192.
Proof. split; by apply Qc_is_canon. Qed.

(** C1: in the arithmetic of the runtime and for a width and coordinates
    below overflow, [flipFaceHorizontal] sends an array-typed face to an
    array-typed face in which every x is [(W - 1) - x], each subtraction
    rounded to binary64, and every y is the y of the input, for both
    corners of the bounding box, every mesh point and every scaled mesh
    point; and it sends a tensor-typed face that holds coordinates to new
    tensors in which every x is [(W - 1) - x], rounded to binary32, and every
    y is the y of the input.  A tensor face holds coordinates when its
    buffers are live, its meshes have shape [[n, 2]], its corners have x and
    y along the first axis and its entries are binary32 floats. *)
Theorem flipFaceHorizontal_mirrors (W : number) :
  (forall (face : ArrayFace) (s : State),
     belowOverflow 1000 W (arrayCoordinates face) ->
     exists face',
       flipFaceHorizontalIn ieee (Arrays face) W s
       = (Ok (Arrays face'), s) /\
       mirroredBy (mirror64 W) (arrayCoordinates face)
         (arrayCoordinates face')) /\
  (forall (face : TensorFace) (c : Coordinates) (s : State),
     engineOk (engine s) = true -> buffersLive s face ->
     tensorCoordinates face = Some c ->
     float32Values c -> belowOverflow 100 W c ->
     exists face' c' s',
       flipFaceHorizontalIn ieee (Tensors face) W s
       = (Ok (Tensors face'), s') /\
       tensorCoordinates face' = Some c' /\
       mirroredBy (mirror32 W) c c').
Proof.
  split.
  - intros face s _. eexists. split; [apply flipFaceHorizontalIn_arrays|].
    cbn [arrayCoordinates boundingBox topLeft bottomRight mesh scaledMesh
         mirroredBy].
    repeat split; apply Forall2_mirrorsBy_map, Forall_forall; done.
  - intros face c s Hok Hlive Hc Hf _.
    destruct (flipFaceHorizontalIn_tensors ieee W face c s Hok Hlive Hc)
      as (face' & Hrun & Hc' & _).
    exists face', (flipTensorCoordinates ieee W c), (bump 18 s).
    split; [exact Hrun|]. split; [exact Hc'|].
    destruct c as [[[tl br] m] sm]. unfold float32Values in Hf.
    cbn [coordinateValues] in Hf.
    rewrite !Forall_app, !Forall_unpoints in Hf.
    destruct Hf as (_ & Hm & Hsm).
    cbn [flipTensorCoordinates mirroredBy]. rewrite !cornerFormula_ieee.
    repeat split; apply Forall2_mirrorsBy_map;
      (eapply Forall_impl; [eassumption|]);
      intros p [_ Hy]; rewrite meshFormula_ieee; cbn beta; by rewrite Hy.
Qed.

Lemma sampleFloat_live : buffersLive emptyState sampleFloatTensorFace.
Proof. by vm_compute. Qed.

Lemma sampleFloat_holds :
  tensorCoordinates sampleFloatTensorFace
  = Some (arrayCoordinates sampleFloatArrayFace).
Proof. reflexivity. Qed.

Lemma sampleFloat_float32 :
  float32Values (arrayCoordinates sampleFloatArrayFace).
Proof.
  unfold float32Values.
  cbn [coordinateValues arrayCoordinates sampleFloatArrayFace boundingBox
       topLeft bottomRight mesh scaledMesh unpoints app fst snd].
  repeat (apply List.Forall_cons; [by apply Qc_is_canon|]).
  apply List.Forall_nil.
Qed.

Lemma sampleFloat_belowOverflow (e : Z) :
  (10 <= e)%Z ->
  belowOverflow e (dec 640 1) (arrayCoordinates sampleFloatArrayFace).
Proof.
  intros He.
  assert (Hle : forall v, magnitude v <= pow2 10 -> magnitude v <= pow2 e).
  { intros v Hv. eapply Qcle_trans; [exact Hv|]. unfold Qcle.
    rewrite !this_pow2. by apply Qpow2_le. }
  split; [by apply Hle|].
  cbn [coordinateValues arrayCoordinates sampleFloatArrayFace boundingBox
       topLeft bottomRight mesh scaledMesh unpoints app fst snd].
  repeat (apply List.Forall_cons; [by apply Hle|]).
  apply List.Forall_nil.
Qed.

Lemma flipFaceHorizontal_mirrors_witness :
  engineOk (engine emptyState) = true /\
  buffersLive emptyState sampleFloatTensorFace /\
  tensorCoordinates sampleFloatTensorFace
  = Some (arrayCoordinates sampleFloatArrayFace) /\
  float32Values (arrayCoordinates sampleFloatArrayFace) /\
  belowOverflow 100 (dec 640 1) (arrayCoordinates sampleFloatArrayFace) /\
  exists face' c' s',
    flipFaceHorizontalIn ieee (Tensors sampleFloatTensorFace) (dec 640 1)
      emptyState
    = (Ok (Tensors face'), s') /\
    tensorCoordinates face' = Some c' /\
    mirroredBy (mirror32 (dec 640 1))
      (arrayCoordinates sampleFloatArrayFace) c'.
Proof.
  assert (H1 : engineOk (engine emptyState) = true) by (by vm_compute).
  assert (H5 : belowOverflow 100 (dec 640 1)
                 (arrayCoordinates sampleFloatArrayFace))
    by (apply sampleFloat_belowOverflow; lia).
  split; [exact H1|]. split; [exact sampleFloat_live|].
  split; [exact sampleFloat_holds|]. split; [exact sampleFloat_float32|].
  split; [exact H5|].
  exact (proj2 (flipFaceHorizontal_mirrors (dec 640 1))
           sampleFloatTensorFace _ emptyState H1 sampleFloat_live
           sampleFloat_holds sampleFloat_float32 H5).
Defined.

(** C1 as stated fails in its last part: on the entry 0.1 of a tensor and
    the width 640 the array branch computes 638.89999999850988 and the
    tensor branch 638.9000244140625; and on a tensor face whose corners are
    rows [[x, y]] the tensor branch throws where the array branch returns
    the mirror image. *)
Lemma flipFaceHorizontal_variants_differ :
  ~ variantsAgree ieee (dec 640 1) sampleFloatArrayFace sampleFloatTensorFace
      emptyState /\
  (flipFaceHorizontalIn ieee (Tensors sampleRowFace) (dec 640 1)
     emptyState).1
  = Throw ShapeError.
Proof.
  split; [|by vm_compute].
  intros H. destruct (H sampleFloat_holds) as (af' & tf' & s' & Ha & Ht & E).
  rewrite flipFaceHorizontalIn_arrays in Ha. inversion Ha; subst af'.
  destruct (flipFaceHorizontalIn_tensors ieee (dec 640 1)
              sampleFloatTensorFace _ emptyState eq_refl sampleFloat_live
              sampleFloat_holds) as (face' & Hrun & Hc & _).
  rewrite Hrun in Ht. inversion Ht; subst tf'. rewrite Hc in E.
  apply (f_equal (fun o : option Coordinates =>
                     match o with
                     | Some (_, _, p :: _, _) => this p.1
                     | _ => 0%Q
                     end)) in E.
  vm_compute in E. discriminate E.
Qed.

(** C4: in the arithmetic of the runtime and for a width and coordinates
    below overflow, flipping twice with the same width gives back the
    coordinates of the input within a tolerance: every x comes back within
    [u * (|x| + (1 + u) * |w - x|)], where [w] is the float that holds
    [W - 1] and [u] the unit roundoff, 2^-53 for the numbers of the array
    branch and 2^-24 for the entries of the tensor branch, and every y
    within [u * |y|]; 0.1 comes back as 0.10000000000002274.  On tensors
    the second result is made of new tensors. *)
Theorem flipFaceHorizontal_twice (W : number) :
  (forall (face : ArrayFace) (s : State),
     belowOverflow 1000 W (arrayCoordinates face) ->
     exists face1 face2,
       flipFaceHorizontalIn ieee (Arrays face) W s
       = (Ok (Arrays face1), s) /\
       flipFaceHorizontalIn ieee (Arrays face1) W s
       = (Ok (Arrays face2), s) /\
       withinTolerance (unitRoundoff 53) (binary64 (W - 1))
         (arrayCoordinates face) (arrayCoordinates face2)) /\
  (forall (face : TensorFace) (c : Coordinates) (s : State),
     engineOk (engine s) = true -> buffersLive s face ->
     tensorCoordinates face = Some c ->
     belowOverflow 100 W c ->
     exists face1 s1 face2 s2 c2,
       flipFaceHorizontalIn ieee (Tensors face) W s
       = (Ok (Tensors face1), s1) /\
       flipFaceHorizontalIn ieee (Tensors face1) W s1
       = (Ok (Tensors face2), s2) /\
       tensorCoordinates face2 = Some c2 /\
       withinTolerance (unitRoundoff 24) (binary32 (binary64 (W - 1)))
         c c2).
Proof.
  split.
  - intros face s _. eexists _, _.
    split; [apply flipFaceHorizontalIn_arrays|].
    split; [apply flipFaceHorizontalIn_arrays|].
    cbn [arrayCoordinates boundingBox topLeft bottomRight mesh scaledMesh
         withinTolerance].
    rewrite !map_map.
    split; [apply flipCoordIn_twice_close|].
    split; [apply flipCoordIn_twice_close|].
    split; apply Forall2_closePoint_map; intros p;
      apply flipCoordIn_twice_close.
  - intros face c s Hok Hlive Hc _.
    destruct (flipFaceHorizontalIn_tensors ieee W face c s Hok Hlive Hc)
      as (face1 & Hrun1 & Hc1 & Hlive1 & _).
    destruct (flipFaceHorizontalIn_tensors ieee W face1 _ (bump 18 s)
                (engineOk_bump _ _ Hok) Hlive1 Hc1)
      as (face2 & Hrun2 & Hc2 & _).
    exists face1, (bump 18 s), face2, (bump 18 (bump 18 s)).
    eexists. split; [exact Hrun1|]. split; [exact Hrun2|].
    split; [exact Hc2|].
    destruct c as [[[tl br] m] sm].
    cbn [flipTensorCoordinates withinTolerance]. rewrite !map_map.
    split; [apply cornerFormula_twice_close|].
    split; [apply cornerFormula_twice_close|].
    split; apply Forall2_closePoint_map; intros p;
      apply meshFormula_twice_close.
Qed.

Lemma flipFaceHorizontal_twice_witness :
  engineOk (engine emptyState) = true /\
  buffersLive emptyState sampleFloatTensorFace /\
  tensorCoordinates sampleFloatTensorFace
  = Some (arrayCoordinates sampleFloatArrayFace) /\
  belowOverflow 100 (dec 640 1) (arrayCoordinates sampleFloatArrayFace) /\
  exists face1 s1 face2 s2 c2,
    flipFaceHorizontalIn ieee (Tensors sampleFloatTensorFace) (dec 640 1)
      emptyState
    = (Ok (Tensors face1), s1) /\
    flipFaceHorizontalIn ieee (Tensors face1) (dec 640 1) s1
    = (Ok (Tensors face2), s2) /\
    tensorCoordinates face2 = Some c2 /\
    withinTolerance (unitRoundoff 24) (binary32 (binary64 (dec 640 1 - 1)))
      (arrayCoordinates sampleFloatArrayFace) c2.
Proof.
  assert (H1 : engineOk (engine emptyState) = true) by (by vm_compute).
  assert (H4 : belowOverflow 100 (dec 640 1)
                 (arrayCoordinates sampleFloatArrayFace))
    by (apply sampleFloat_belowOverflow; lia).
  split; [exact H1|]. split; [exact sampleFloat_live|].
  split; [exact sampleFloat_holds|]. split; [exact H4|].
  exact (proj2 (flipFaceHorizontal_twice (dec 640 1))
           sampleFloatTensorFace _ emptyState H1 sampleFloat_live
           sampleFloat_holds H4).
Defined.

(** C9: in every arithmetic, the flip mirrors each corner of the bounding
    box on its own and keeps the labels.  In the array branch the new
    [topLeft] is the mirror image of the old [topLeft] and the new
    [bottomRight] that of the old [bottomRight], whichever lies left of the
    other.  In the tensor branch every result has as its [topLeft] the
    tensor that the corner expression returns on the old [topLeft] and as
    its [bottomRight] the one it returns on the old [bottomRight], and on a
    live corner tensor that holds a point this is a tensor that holds the
    mirror image of the point. *)
Theorem flipFaceHorizontal_keeps_corner_labels (A : Arithmetic)
    (W : number) :
  (forall (face : ArrayFace) (s : State),
     exists face',
       flipFaceHorizontalIn A (Arrays face) W s = (Ok (Arrays face'), s) /\
       let tl := topLeft (boundingBox face) in
       let br := bottomRight (boundingBox face) in
       topLeft (boundingBox face') = (minus A (minus A W 1) tl.1, tl.2) /\
       bottomRight (boundingBox face')
       = (minus A (minus A W 1) br.1, br.2)) /\
  (forall (face : TensorFace) (s : State) r s',
     flipFaceHorizontalIn A (Tensors face) W s = (Ok r, s') ->
     exists face' s1 s2,
       r = Tensors face' /\
       flipCornerTensorIn A W (topLeft (boundingBox face)) s
       = (Ok (topLeft (boundingBox face')), s1) /\
       flipCornerTensorIn A W (bottomRight (boundingBox face)) s1
       = (Ok (bottomRight (boundingBox face')), s2)) /\
  (forall (corner : Tensor) (p : Point) (s : State),
     engineOk (engine s) = true -> live s corner ->
     cornerPoint corner = Some p ->
     exists corner' s',
       flipCornerTensorIn A W corner s = (Ok corner', s') /\
       cornerPoint corner'
       = Some (tminus A (store A (minus A W 1)) p.1, p.2)).
Proof.
  split; [|split].
  - intros face s. eexists. split; [apply flipFaceHorizontalIn_arrays|].
    done.
  - intros face s r s'. apply flipFaceHorizontalIn_tensors_corners.
  - intros corner p s Hok Hl Hp. eexists _, _.
    split; [by apply flipCornerTensorIn_run|].
    apply cornerPoint_make. by apply cornerPoint_inv in Hp as [Hsh _].
Qed.

Lemma flipFaceHorizontal_keeps_corner_labels_witness :
  engineOk (engine emptyState) = true /\
  live emptyState (topLeft (boundingBox sampleFloatTensorFace)) /\
  cornerPoint (topLeft (boundingBox sampleFloatTensorFace))
  = Some (dec 100 1, dec 50 1) /\
  (exists corner' s',
     flipCornerTensorIn ieee (dec 640 1)
       (topLeft (boundingBox sampleFloatTensorFace)) emptyState
     = (Ok corner', s') /\
     cornerPoint corner' = Some (dec 539 1, dec 50 1)) /\
  exists face',
    flipFaceHorizontalIn ieee (Arrays sampleFloatArrayFace) (dec 640 1)
      emptyState
    = (Ok (Arrays face'), emptyState) /\
    topLeft (boundingBox face') = (dec 539 1, dec 50 1) /\
    bottomRight (boundingBox face') = (dec 339 1, dec 250 1) /\
    (bottomRight (boundingBox face')).1 < (topLeft (boundingBox face')).1.
Proof.
  assert (H1 : engineOk (engine emptyState) = true) by (by vm_compute).
  assert (H2 : live emptyState (topLeft (boundingBox sampleFloatTensorFace)))
    by (by vm_compute).
  assert (H3 : cornerPoint (topLeft (boundingBox sampleFloatTensorFace))
               = Some (dec 100 1, dec 50 1)) by reflexivity.
  split; [exact H1|]. split; [exact H2|]. split; [exact H3|].
  destruct (flipFaceHorizontal_keeps_corner_labels ieee (dec 640 1))
    as (Harr & _ & Hcorner).
  split.
  - destruct (Hcorner _ _ emptyState H1 H2 H3) as (corner' & s' & Hrun & Hp).
    exists corner', s'. split; [exact Hrun|]. rewrite Hp.
    do 2 f_equal. by apply Qc_is_canon.
  - destruct (Harr sampleFloatArrayFace emptyState)
      as (face' & Hrun & Htl & Hbr).
    exists face'. split; [exact Hrun|].
    assert (Etl : topLeft (boundingBox face') = (dec 539 1, dec 50 1)).
    { rewrite Htl. f_equal. by apply Qc_is_canon. }
    assert (Ebr : bottomRight (boundingBox face') = (dec 339 1, dec 250 1)).
    { rewrite Hbr. f_equal. by apply Qc_is_canon. }
    split; [exact Etl|]. split; [exact Ebr|]. rewrite Etl, Ebr. done.
Defined.

(** ** The structure of a run of [estimateFaces] *)

Lemma bind_inv {A B} (m : M A) (k : A -> M B) s b s' :
  bind m k s = (Ok b, s') ->
  exists a s1, m s = (Ok a, s1) /\ k a s1 = (Ok b, s').
Proof.
  unfold bind. destruct (m s) as [[a|e] s1]; [eauto|done].
Qed.

Lemma promiseAll_runAll {A} (ks : list (M A)) s l s' :
  promiseAll ks s = (Ok l, s') <-> runAll ks s l s'.
Proof.
  split.
  - revert s l s'. induction ks as [|k ks IH]; intros s l s' H; simpl in H.
    + inversion H. constructor.
    + destruct (k s) as [[a|e] s1] eqn:Ek;
        destruct (promiseAll ks s1) as [[l1|e1] s2] eqn:Eks;
        inversion H; subst.
      econstructor; eauto.
  - induction 1 as [|k ks s a s1 l s2 Hk _ IH]; simpl; [done|].
    by rewrite Hk, IH.
Qed.

(** The results of a successful [promiseAll] over [map f xs] come from the
    elements of [xs], position by position. *)
Lemma runAll_map_Forall2 {A B} (f : A -> M B) (xs : list A) s l s' :
  runAll (map f xs) s l s' ->
  Forall2 (fun x r => exists st st', f x st = (Ok r, st')) xs l.
Proof.
  revert s l. induction xs as [|x xs IH]; intros s l H; simpl in H.
  - inversion H. constructor.
  - inversion H; subst. constructor; eauto.
Qed.

Section Run.

Variable MESH_ANNOTATIONS : Obj (list nat).
Variable predict : Tensor -> M (option (list Prediction)).

Lemma estimateFaces_unprepared input returnTensors flipHorizontal s e s1 :
  prepareImage input s = (Throw e, s1) ->
  estimateFaces MESH_ANNOTATIONS predict input returnTensors flipHorizontal s
  = (Throw e, s1).
Proof.
  unfold estimateFaces, prepareImage, bind.
  destruct (inputTensor input s)
    as [[t|e0] sa]; [|by intros [= <- <-]].
  destruct (tf.toFloat t sa) as [[f|e0] sb]; [|by intros [= <- <-]].
  destruct (tf.expandDims0 f sb) as [[im|e0] sc]; [|by intros [= <- <-]].
  done.
Qed.

Lemma estimateFaces_rejected input returnTensors flipHorizontal s
    input' inputToFloat image s1 e s2 :
  prepareImage input s = (Ok (input', inputToFloat, image), s1) ->
  predict image s1 = (Throw e, s2) ->
  estimateFaces MESH_ANNOTATIONS predict input returnTensors flipHorizontal s
  = (Throw e, s2).
Proof.
  unfold estimateFaces, prepareImage, bind.
  destruct (inputTensor input s)
    as [[t|e0] sa]; [|done].
  destruct (tf.toFloat t sa) as [[f|e0] sb]; [|done].
  destruct (tf.expandDims0 f sb) as [[im|e0] sc]; [|done].
  intros [= <- <- <- <-] Hp. by rewrite Hp.
Qed.

Lemma estimateFaces_resolved input returnTensors flipHorizontal s
    input' inputToFloat image s1 predictions s2 :
  prepareImage input s = (Ok (input', inputToFloat, image), s1) ->
  predict image s1 = (Ok predictions, s2) ->
  estimateFaces MESH_ANNOTATIONS predict input returnTensors flipHorizontal s
  = let s3 := released input' inputToFloat s2 in
    match predictions with
    | Some (p :: ps) =>
        (results <- promiseAll
                      (map (estimateFace MESH_ANNOTATIONS returnTensors
                              flipHorizontal (nth 1 (shape input') 0%nat) s3)
                           (p :: ps));;
         ret (Some results)) s3
    | _ => (Ok None, s3)
    end.
Proof.
  unfold estimateFaces, prepareImage, bind.
  destruct (inputTensor input s) as [[t|e0] sa]; [|done].
  destruct (tf.toFloat t sa) as [[f|e0] sb]; [|done].
  destruct (tf.expandDims0 f sb) as [[im|e0] sc]; [|done].
  intros [= <- <- <- <-] Hp. rewrite Hp.
  by destruct predictions as [[|p ps]|].
Qed.

(** A run that returns faces: the facade resolved to a non-empty array and
    every callback succeeded, one after the other from the state in which
    the input and its float conversion are released. *)
Lemma estimateFaces_faces input returnTensors flipHorizontal s
    input' inputToFloat image s1 results s' :
  prepareImage input s = (Ok (input', inputToFloat, image), s1) ->
  estimateFaces MESH_ANNOTATIONS predict input returnTensors flipHorizontal s
  = (Ok (Some results), s') ->
  exists predictions s2,
    predict image s1 = (Ok (Some predictions), s2) /\
    predictions <> [] /\
    let s3 := released input' inputToFloat s2 in
    runAll (map (estimateFace MESH_ANNOTATIONS returnTensors flipHorizontal
                   (nth 1 (shape input') 0%nat) s3) predictions)
           s3 results s'.
Proof.
  intros Hprep Hrun.
  destruct (predict image s1) as [[predictions|e] s2] eqn:Hp.
  - rewrite (estimateFaces_resolved _ _ _ _ _ _ _ _ _ _ Hprep Hp) in Hrun.
    destruct predictions as [[|p ps]|]; [done| |done].
    cbv zeta in Hrun. apply bind_inv in Hrun as (l & s4 & Hall & Hret).
    inversion Hret; subst. exists (p :: ps), s2.
    split; [done|]. split; [done|]. by apply promiseAll_runAll.
  - by rewrite (estimateFaces_rejected _ _ _ _ _ _ _ _ _ _ Hprep Hp) in Hrun.
Qed.

Lemma prepareImage_total input returnTensors flipHorizontal s r s' :
  estimateFaces MESH_ANNOTATIONS predict input returnTensors flipHorizontal s
  = (Ok r, s') ->
  exists input' inputToFloat image s1,
    prepareImage input s = (Ok (input', inputToFloat, image), s1).
Proof.
  intros Hrun.
  destruct (prepareImage input s) as [[[[input' itf] image]|e] s1] eqn:Hprep.
  - eauto.
  - by rewrite (estimateFaces_unprepared _ _ _ _ _ _ Hprep) in Hrun.
Qed.

End Run.

(** ** What a computation disposes and allocates *)

Create HintDb effects.

Lemma disposesWithin_weaken {A} (D D' : gset nat) (m : M A) :
  D ⊆ D' -> disposesWithin D m -> disposesWithin D' m.
Proof.
  intros HD Hm s. destruct (Hm s) as (H1 & H2 & H3).
  split; [done|]. split; [set_solver|done].
Qed.

Lemma disposesWithin_ret {A} D (a : A) : disposesWithin D (ret a).
Proof. intros s. simpl. split; [done|]. split; [set_solver|done]. Qed.

Lemma disposesWithin_throw {A} D e : disposesWithin D (@throw A e).
Proof. intros s. simpl. split; [done|]. split; [set_solver|done]. Qed.

Lemma disposesWithin_cast {A} D (o : option A) : disposesWithin D (cast o).
Proof.
  destruct o; [apply disposesWithin_ret|apply disposesWithin_throw].
Qed.

Lemma disposesWithin_bind {A B} D (m : M A) (k : A -> M B) :
  disposesWithin D m -> (forall a, disposesWithin D (k a)) ->
  disposesWithin D (bind m k).
Proof.
  intros Hm Hk s. unfold bind. specialize (Hm s).
  destruct (m s) as [[a|e] s1]; simpl in Hm; [|done].
  specialize (Hk a s1). destruct Hm as (H1 & H2 & H3), Hk as (K1 & K2 & K3).
  split; [set_solver|]. split; [set_solver|lia].
Qed.

Lemma disposesWithin_mapM {A B} D (f : A -> M B) (l : list A) :
  (forall a, disposesWithin D (f a)) -> disposesWithin D (mapM f l).
Proof.
  intros Hf. induction l as [|a l IH]; simpl.
  - apply disposesWithin_ret.
  - apply disposesWithin_bind; [done|]. intros b.
    apply disposesWithin_bind; [done|]. intros bs. apply disposesWithin_ret.
Qed.

Lemma disposesWithin_promiseAll {A} D (ks : list (M A)) :
  Forall (disposesWithin D) ks -> disposesWithin D (promiseAll ks).
Proof.
  induction 1 as [|k ks Hk _ IH]; intros s; simpl.
  - split; [done|]. split; [set_solver|done].
  - specialize (Hk s). destruct (k s) as [r s1]. simpl in Hk.
    specialize (IH s1). destruct (promiseAll ks s1) as [rs s2]. simpl in *.
    destruct Hk as (H1 & H2 & H3), IH as (K1 & K2 & K3).
    split; [set_solver|]. split; [set_solver|lia].
Qed.

Lemma disposesWithin_make D sh vs : disposesWithin D (tf.make sh vs).
Proof. intros s. simpl. split; [done|]. split; [set_solver|lia]. Qed.

Lemma disposesWithin_throwIfDisposed D t :
  disposesWithin D (tf.throwIfDisposed t).
Proof.
  intros s. unfold tf.throwIfDisposed. destruct (tf.isDisposed t s); simpl;
    (split; [done|]; split; [set_solver|done]).
Qed.

Lemma disposesWithin_dispose D t :
  id t ∈ D -> disposesWithin D (tf.dispose t).
Proof. intros Ht s. simpl. split; [set_solver|]. split; [set_solver|done]. Qed.

#[local] Hint Resolve disposesWithin_ret disposesWithin_throw
  disposesWithin_cast disposesWithin_make disposesWithin_throwIfDisposed
  disposesWithin_mapM : effects.

Ltac effects_tac :=
  repeat first
    [ solve [eauto with effects]
    | apply disposesWithin_bind; [|intros ?] ].

Lemma disposesWithin_slice D t b sz : disposesWithin D (tf.slice t b sz).
Proof.
  unfold tf.slice. effects_tac.
  destruct (shape t); [eauto with effects|].
  destruct (b + sz <=? n)%nat; eauto with effects.
Qed.

Lemma disposesWithin_concat D ts : disposesWithin D (tf.concat ts).
Proof.
  unfold tf.concat. effects_tac.
  destruct ts as [|t0 ts']; [eauto with effects|].
  destruct (shape t0); [eauto with effects|].
  match goal with |- context [forallb ?f ?l] => destruct (forallb f l) end;
    eauto with effects.
Qed.

Lemma disposesWithin_binaryOp D f a b : disposesWithin D (tf.binaryOp f a b).
Proof.
  unfold tf.binaryOp. effects_tac.
  destruct (tf.broadcastShape (shape a) (shape b)); eauto with effects.
Qed.

#[local] Hint Resolve disposesWithin_slice disposesWithin_concat
  disposesWithin_binaryOp : effects.

Lemma disposesWithin_flipCornerTensor D W t :
  disposesWithin D (flipCornerTensor W t).
Proof.
  unfold flipCornerTensor, tf.scalar, tf.sub. effects_tac.
Qed.

Lemma disposesWithin_flipMeshTensor D W t :
  disposesWithin D (flipMeshTensor W t).
Proof.
  unfold flipMeshTensor, tf.tensor1d, tf.sub, tf.mul. effects_tac.
Qed.

#[local] Hint Resolve disposesWithin_flipCornerTensor
  disposesWithin_flipMeshTensor : effects.

Lemma disposesWithin_flipFaceHorizontal D face W :
  disposesWithin D (flipFaceHorizontal face W).
Proof. destruct face; simpl; effects_tac. Qed.

Lemma disposesWithin_issuedAt {A} D s0 (m : M A) :
  disposesWithin D (issuedAt s0 m).
Proof. intros s. simpl. split; [done|]. split; [set_solver|done]. Qed.

Lemma disposesWithin_clearPipelineROIs D c :
  disposesWithin D (clearPipelineROIs c).
Proof.
  intros s. unfold clearPipelineROIs.
  destruct (ltb c (detectionConfidence (self s))); simpl;
    (split; [done|]; split; [set_solver|done]).
Qed.

Lemma disposesWithin_array D t : disposesWithin D (tf.array t).
Proof. unfold tf.array. effects_tac. Qed.

#[local] Hint Resolve disposesWithin_flipFaceHorizontal
  disposesWithin_issuedAt disposesWithin_clearPipelineROIs
  disposesWithin_dispose disposesWithin_array : effects.
#[local] Hint Extern 1 (_ ∈ _) => set_solver : effects.

(** With tensors returned, the callback disposes the confidence tensor and
    nothing else. *)
Lemma disposesWithin_estimateFace_raw tbl flipHorizontal w s0 p :
  disposesWithin {[id (flag p)]}
    (estimateFace tbl true flipHorizontal w s0 p).
Proof.
  unfold estimateFace. effects_tac.
  destruct flipHorizontal; eauto with effects.
Qed.

(** In every mode it disposes at most the confidence tensor and the two
    meshes of its prediction. *)
Lemma disposesWithin_estimateFace tbl returnTensors flipHorizontal w s0 p :
  disposesWithin {[id (flag p); id (scaledCoords p); id (coords p)]}
    (estimateFace tbl returnTensors flipHorizontal w s0 p).
Proof.
  destruct returnTensors.
  - eapply disposesWithin_weaken;
      [|apply disposesWithin_estimateFace_raw]. set_solver.
  - unfold estimateFace. effects_tac.
    match goal with
    | arrays : (list Point * list Point * Point * Point)%type |- _ =>
        destruct arrays as [[[coordsArr coordsArrScaled] tl] br]
    end.
    effects_tac.
    + destruct flipHorizontal; eauto with effects.
    + match goal with
      | r : AnnotatedPrediction |- _ => destruct r; eauto with effects
      end.
Qed.

Lemma disposesWithin_next {A} D (m : M A) s :
  disposesWithin D m ->
  (nextTensorId (engine s) <= nextTensorId (engine (m s).2))%nat.
Proof. intros Hm. apply Hm. Qed.

Lemma disposesWithin_run {A} D (m : M A) s r s' :
  disposesWithin D m -> m s = (r, s') ->
  disposedTensors (engine s) ⊆ disposedTensors (engine s') /\
  disposedTensors (engine s') ⊆ D ∪ disposedTensors (engine s) /\
  (nextTensorId (engine s) <= nextTensorId (engine s'))%nat.
Proof. intros Hm Hr. specialize (Hm s). by rewrite Hr in Hm. Qed.

Lemma returnsFresh_make sh vs : returnsFresh (tf.make sh vs).
Proof. intros s t s' [= <- <-]. simpl. lia. Qed.

Lemma returnsFresh_throw e : returnsFresh (throw e).
Proof. by intros s t s'. Qed.

Lemma returnsFresh_bind {A} (m : M A) (k : A -> M Tensor) :
  disposesWithin ∅ m -> (forall a, returnsFresh (k a)) ->
  returnsFresh (bind m k).
Proof.
  intros Hm Hk s t s' H. apply bind_inv in H as (a & s1 & Hms & Hks).
  apply Hk in Hks. pose proof (disposesWithin_next _ m s Hm) as Hn.
  rewrite Hms in Hn. simpl in Hn. lia.
Qed.

#[local] Hint Resolve returnsFresh_make returnsFresh_throw : effects.

Ltac fresh_tac :=
  repeat first
    [ solve [eauto with effects]
    | apply returnsFresh_bind; [solve [eauto with effects]|intros ?] ].

Lemma returnsFresh_slice t b sz : returnsFresh (tf.slice t b sz).
Proof.
  unfold tf.slice. fresh_tac.
  destruct (shape t); [eauto with effects|].
  destruct (b + sz <=? n)%nat; eauto with effects.
Qed.

Lemma returnsFresh_concat ts : returnsFresh (tf.concat ts).
Proof.
  unfold tf.concat. fresh_tac.
  destruct ts as [|t0 ts']; [eauto with effects|].
  destruct (shape t0); [eauto with effects|].
  match goal with |- context [forallb ?f ?l] => destruct (forallb f l) end;
    eauto with effects.
Qed.

Lemma returnsFresh_binaryOp f a b : returnsFresh (tf.binaryOp f a b).
Proof.
  unfold tf.binaryOp. fresh_tac.
  destruct (tf.broadcastShape (shape a) (shape b)); eauto with effects.
Qed.

#[local] Hint Resolve returnsFresh_slice returnsFresh_concat
  returnsFresh_binaryOp : effects.

Lemma returnsFresh_flipCornerTensor W t : returnsFresh (flipCornerTensor W t).
Proof. unfold flipCornerTensor, tf.scalar, tf.sub. fresh_tac. Qed.

Lemma returnsFresh_flipMeshTensor W t : returnsFresh (flipMeshTensor W t).
Proof. unfold flipMeshTensor, tf.tensor1d, tf.sub, tf.mul. fresh_tac. Qed.

(** The tensor branch of the flip, read backwards from a result: the
    confidence and the annotations are those of the input, and the four
    buffers are tensors that the flip allocated. *)
Lemma flipFaceHorizontal_tensors_inv W (face : TensorFace) s r s' :
  flipFaceHorizontal (Tensors face) W s = (Ok r, s') ->
  exists face',
    r = Tensors face' /\
    faceInViewConfidence face' = faceInViewConfidence face /\
    annotations face' = annotations face /\
    Forall (fun t => (nextTensorId (engine s) <= id t)%nat) (faceBuffers face').
Proof.
  unfold flipFaceHorizontal. intros H.
  apply bind_inv in H as (tl & s1 & H1 & H).
  apply bind_inv in H as (br & s2 & H2 & H).
  apply bind_inv in H as (m & s3 & H3 & H).
  apply bind_inv in H as (sm & s4 & H4 & H).
  inversion H; subst; clear H. eexists. split; [reflexivity|].
  split; [done|]. split; [done|].
  destruct (disposesWithin_run ∅ _ _ _ _
              (disposesWithin_flipCornerTensor _ _ _) H1) as (_ & _ & N1).
  destruct (disposesWithin_run ∅ _ _ _ _
              (disposesWithin_flipCornerTensor _ _ _) H2) as (_ & _ & N2).
  destruct (disposesWithin_run ∅ _ _ _ _
              (disposesWithin_flipMeshTensor _ _ _) H3) as (_ & _ & N3).
  apply returnsFresh_flipCornerTensor in H1, H2.
  apply returnsFresh_flipMeshTensor in H3, H4.
  unfold faceBuffers. cbn [mesh scaledMesh boundingBox topLeft bottomRight].
  repeat constructor; lia.
Qed.

Lemma flipFaceHorizontal_arrays_inv W (face : ArrayFace) s r s' :
  flipFaceHorizontal (Arrays face) W s = (Ok r, s') ->
  exists face', r = Arrays face'.
Proof. intros [= <- <-]. eauto. Qed.

(** ** The callback of [estimateFaces], read backwards from its result *)

Section Callback.

Variable MESH_ANNOTATIONS : Obj (list nat).

(** With tensors returned: a tensor face without annotations, whose
    confidence is the prediction's flag tensor, disposed by now, and whose
    buffers are the prediction's own (no flip) or newly allocated (flip). *)
Lemma estimateFace_raw_inv flipHorizontal w s0 p st r st' :
  estimateFace MESH_ANNOTATIONS true flipHorizontal w s0 p st = (Ok r, st') ->
  exists face,
    r = Tensors face /\
    faceInViewConfidence face = flag p /\
    annotations face = None /\
    id (flag p) ∈ disposedTensors (engine st') /\
    (flipHorizontal = false -> faceBuffers face = predictionBuffers p) /\
    (flipHorizontal = true ->
     Forall (fun t => (nextTensorId (engine st) <= id t)%nat)
            (faceBuffers face)).
Proof.
  unfold estimateFace. intros H.
  apply bind_inv in H as (tv & s1 & H1 & H).
  assert (Hst : s1 = st) by (by inversion H1). subst s1.
  apply bind_inv in H as (flagValue & s1 & H1' & H).
  assert (Hst : s1 = st) by (destruct (_ ≫= _); by inversion H1').
  subst s1.
  apply bind_inv in H as ([] & s2 & H2 & H).
  apply bind_inv in H as ([] & s3 & H3 & H).
  destruct (disposesWithin_run ∅ _ _ _ _
              (disposesWithin_clearPipelineROIs _ _) H3) as (Hc & _ & Hn).
  inversion H2; subst s2; clear H2. simpl in Hc, Hn.
  destruct flipHorizontal.
  - destruct (disposesWithin_run ∅ _ _ _ _
                (disposesWithin_flipFaceHorizontal _ _ _) H) as (Hsub & _).
    apply flipFaceHorizontal_tensors_inv in H
      as (face & -> & Hconf & Hann & Hfresh).
    exists face. repeat split; try done; [set_solver|].
    intros _. eapply Forall_impl; [exact Hfresh|]. simpl. intros; lia.
  - inversion H; subst. eexists. split; [reflexivity|].
    repeat split; try done. set_solver.
Qed.

End Callback.

Lemma cast_inv {A} (o : option A) s a s' :
  cast o s = (Ok a, s') -> o = Some a /\ s' = s.
Proof. destruct o; [by intros [= <- <-]|done]. Qed.

(** The reads return the tensors that were read. *)
Lemma mapM_array_inv (l : list Tensor) s tv s' :
  mapM tf.array l s = (Ok tv, s') -> tv = l.
Proof.
  revert s tv s'. induction l as [|t l IH]; intros s tv s' H; simpl in H.
  - by inversion H.
  - apply bind_inv in H as (t' & s1 & Ht & H).
    apply bind_inv in H as (tv' & s2 & Hl & H).
    inversion H; subst. apply IH in Hl as ->.
    unfold tf.array in Ht. apply bind_inv in Ht as ([] & s3 & _ & Ht).
    by inversion Ht.
Qed.

Section CallbackArrays.

Variable MESH_ANNOTATIONS : Obj (list nat).

(** The confidence of a result is that of its prediction. *)
Lemma estimateFace_confidence returnTensors flipHorizontal w s0 p st r st' :
  estimateFace MESH_ANNOTATIONS returnTensors flipHorizontal w s0 p st
  = (Ok r, st') ->
  sameConfidence p r.
Proof.
  destruct returnTensors.
  - intros H. by apply estimateFace_raw_inv in H as (face & -> & Hc & _).
  - unfold estimateFace. intros H.
    apply bind_inv in H as (tv & s1 & Hread & H).
    apply bind_inv in H as (flagValue & s1' & Hflag & H).
    apply bind_inv in H as ([] & s2 & _ & H).
    apply bind_inv in H as ([] & s3 & _ & H).
    apply bind_inv in H
      as ([[[coordsArr coordsArrScaled] tl] br] & s4 & _ & H).
    apply bind_inv in H as ([] & s5 & _ & H).
    apply bind_inv in H as ([] & s6 & _ & H).
    apply bind_inv in H as (ap & s7 & Hflip & H).
    assert (Htv : tv = tensorsToRead false p).
    { unfold issuedAt in Hread.
      destruct (mapM tf.array (tensorsToRead false p) s0) as [o s0'] eqn:E.
      inversion Hread; subst. by apply mapM_array_inv in E. }
    subst tv. apply cast_inv in Hflag as [Hflag _]. simpl in Hflag.
    assert (Hap : exists face,
               ap = Arrays face /\ faceInViewConfidence face = flagValue).
    { destruct flipHorizontal.
      - inversion Hflip; subst. eauto.
      - inversion Hflip; subst. eauto. }
    destruct Hap as (face & -> & Hconf). inversion H; subst. done.
Qed.

(** With arrays returned: an array face whose annotations are computed
    from its own scaled mesh, that is from the flipped one after a flip. *)
Lemma estimateFace_arrays_inv flipHorizontal w s0 p st r st' :
  estimateFace MESH_ANNOTATIONS false flipHorizontal w s0 p st = (Ok r, st') ->
  exists face,
    r = Arrays face /\
    annotations face = Some (annotate MESH_ANNOTATIONS (scaledMesh face)).
Proof.
  unfold estimateFace. intros H.
  apply bind_inv in H as (tv & s1 & _ & H).
  apply bind_inv in H as (flagValue & s1' & _ & H).
  apply bind_inv in H as ([] & s2 & _ & H).
  apply bind_inv in H as ([] & s3 & _ & H).
  apply bind_inv in H as ([[[coordsArr coordsArrScaled] tl] br] & s4 & _ & H).
  apply bind_inv in H as ([] & s5 & _ & H).
  apply bind_inv in H as ([] & s6 & _ & H).
  apply bind_inv in H as (ap & s7 & Hflip & H).
  destruct ap as [face|face]; [|done].
  inversion H; subst. eauto.
Qed.

End CallbackArrays.

(** ** Annotations *)

Lemma objSet_new {V} (o : Obj V) (key : string) (v : V) :
  key ∉ o.*1 -> objSet o key v = o ++ [(key, v)].
Proof. intros H. unfold objSet. by rewrite bool_decide_eq_false_2. Qed.

Lemma foldl_objSet {V W} (g : V -> W) (acc : Obj W) (tbl : Obj V) :
  NoDup (acc.*1 ++ tbl.*1) ->
  foldl (fun o '(key, v) => objSet o key (g v)) acc tbl
  = acc ++ map (fun kv => (kv.1, g kv.2)) tbl.
Proof.
  revert acc. induction tbl as [|[key v] tbl IH]; intros acc Hnd; simpl.
  - by rewrite app_nil_r.
  - simpl in Hnd. rewrite objSet_new.
    + rewrite IH; [by rewrite <- app_assoc|].
      by rewrite fmap_app, <- app_assoc.
    + apply NoDup_app in Hnd as (_ & Hnin & _). intros Hin.
      apply (Hnin _ Hin). left.
Qed.

Lemma annotate_map (tbl : Obj (list nat)) (sm : list Point) :
  NoDup tbl.*1 ->
  annotate tbl sm
  = map (fun kv => (kv.1, map (fun index : nat => sm !! index) kv.2)) tbl.
Proof.
  intros Hnd. unfold annotate.
  by rewrite (foldl_objSet (fun indices => map (fun index : nat => sm !! index)
                               indices) [] tbl).
Qed.

Lemma objGet_map {V W} (g : V -> W) (tbl : Obj V) (key : string) (v : V) :
  NoDup tbl.*1 -> (key, v) ∈ tbl ->
  objGet (map (fun kv => (kv.1, g kv.2)) tbl) key = Some (g v).
Proof.
  induction tbl as [|[k v'] tbl IH]; intros Hnd Hin; simpl in *.
  - by apply elem_of_nil in Hin.
  - apply NoDup_cons in Hnd as [Hk Hnd]. apply elem_of_cons in Hin as [Heq|Hin].
    + inversion Heq; subst. by rewrite bool_decide_eq_true_2.
    + rewrite bool_decide_eq_false_2; [by apply IH|].
      intros ->. apply Hk. apply list_elem_of_fmap. by exists (key, v).
Qed.

Section EstimateFacesProperties.

Variable MESH_ANNOTATIONS : Obj (list nat).
Variable predict : Tensor -> M (option (list Prediction)).

(** C3: when the facade resolves to no predictions, an empty array or
    nothing at all, [estimateFaces] returns [null], whatever the input and
    the two flags. *)
Theorem estimateFaces_null_on_empty input returnTensors flipHorizontal s
    input' inputToFloat image s1 predictions s2 :
  prepareImage input s = (Ok (input', inputToFloat, image), s1) ->
  predict image s1 = (Ok predictions, s2) ->
  predictions = None \/ predictions = Some [] ->
  (estimateFaces MESH_ANNOTATIONS predict input returnTensors flipHorizontal
     s).1 = Ok None.
Proof.
  intros Hprep Hp Hempty.
  rewrite (estimateFaces_resolved _ _ _ _ _ _ _ _ _ _ _ _ Hprep Hp).
  by destruct Hempty as [-> | ->].
Qed.

(** C5: with arrays returned, every result carries an [annotations] map
    with the keys of the table in the order of the table; the value of a
    key is as long as the index list of the key, and its [i]-th entry is the
    entry of the result's [scaledMesh] at the [i]-th index of that list. *)
Theorem estimateFaces_annotations input flipHorizontal s results s' :
  NoDup MESH_ANNOTATIONS.*1 ->
  estimateFaces MESH_ANNOTATIONS predict input false flipHorizontal s
  = (Ok (Some results), s') ->
  forall r, r ∈ results ->
    exists face ann,
      r = Arrays face /\ annotations face = Some ann /\
      ann.*1 = MESH_ANNOTATIONS.*1 /\
      forall key indices, (key, indices) ∈ MESH_ANNOTATIONS ->
        exists pts,
          objGet ann key = Some pts /\ length pts = length indices /\
          forall (i index : nat),
            indices !! i = Some index ->
            pts !! i = Some (scaledMesh face !! index).
Proof.
  intros Hnd Hrun r Hr.
  destruct (prepareImage_total _ _ _ _ _ _ _ _ Hrun)
    as (input' & itf & image & s1 & Hprep).
  destruct (estimateFaces_faces _ _ _ _ _ _ _ _ _ _ _ _ Hprep Hrun)
    as (ps & s2 & _ & _ & Hall).
  apply runAll_map_Forall2 in Hall.
  apply list_elem_of_lookup in Hr as [i Hi].
  destruct (Forall2_lookup_r _ _ _ _ _ Hall Hi) as (p & _ & st & st' & Hp).
  apply estimateFace_arrays_inv in Hp as (face & -> & Hann).
  exists face, (annotate MESH_ANNOTATIONS (scaledMesh face)).
  split; [done|]. split; [done|]. rewrite (annotate_map _ _ Hnd). split.
  - rewrite <- list_fmap_compose. by apply list_fmap_ext.
  - intros key indices Hin. eexists. split; [by apply objGet_map|].
    split; [by rewrite length_map|].
    intros j index Hj. by rewrite list_lookup_fmap, Hj.
Qed.

(** C6: with tensors returned, no result has an [annotations] field. *)
Theorem estimateFaces_raw_no_annotations input flipHorizontal s results s' :
  estimateFaces MESH_ANNOTATIONS predict input true flipHorizontal s
  = (Ok (Some results), s') ->
  forall r, r ∈ results ->
    exists face, r = Tensors face /\ annotations face = None.
Proof.
  intros Hrun r Hr.
  destruct (prepareImage_total _ _ _ _ _ _ _ _ Hrun)
    as (input' & itf & image & s1 & Hprep).
  destruct (estimateFaces_faces _ _ _ _ _ _ _ _ _ _ _ _ Hprep Hrun)
    as (ps & s2 & _ & _ & Hall).
  apply runAll_map_Forall2 in Hall.
  apply list_elem_of_lookup in Hr as [i Hi].
  destruct (Forall2_lookup_r _ _ _ _ _ Hall Hi) as (p & _ & st & st' & Hp).
  apply estimateFace_raw_inv in Hp as (face & -> & _ & Hann & _).
  eauto.
Qed.

(** C8: the results are in the order of the facade's predictions: no
    predictions give [null], and [k > 0] predictions give [k] results of
    which the one at position [i] is what the callback returns for the
    prediction at position [i], and carries its confidence. *)
Theorem estimateFaces_keeps_order input returnTensors flipHorizontal s
    input' inputToFloat image s1 predictions s2 res s' :
  prepareImage input s = (Ok (input', inputToFloat, image), s1) ->
  predict image s1 = (Ok (Some predictions), s2) ->
  estimateFaces MESH_ANNOTATIONS predict input returnTensors flipHorizontal s
  = (Ok res, s') ->
  (predictions = [] -> res = None) /\
  (predictions <> [] ->
   exists results,
     res = Some results /\ length results = length predictions /\
     forall i p r,
       predictions !! i = Some p -> results !! i = Some r ->
       sameConfidence p r /\
       exists st st',
         estimateFace MESH_ANNOTATIONS returnTensors flipHorizontal
           (nth 1 (shape input') 0%nat) (released input' inputToFloat s2)
           p st = (Ok r, st')).
Proof.
  intros Hprep Hp Hrun.
  rewrite (estimateFaces_resolved _ _ _ _ _ _ _ _ _ _ _ _ Hprep Hp) in Hrun.
  split.
  - intros ->. by inversion Hrun.
  - intros Hne. destruct predictions as [|p0 ps]; [done|].
    cbv zeta in Hrun. apply bind_inv in Hrun as (l & s4 & Hall & Hret).
    inversion Hret; subst. exists l. split; [done|].
    apply promiseAll_runAll, runAll_map_Forall2 in Hall.
    split; [symmetry; by eapply Forall2_length|].
    intros i p r Hip Hir.
    destruct (Forall2_lookup_l _ _ _ _ _ Hall Hip)
      as (r' & Hir' & st & st' & Hrel).
    simplify_eq. split; [by eapply estimateFace_confidence|eauto].
Qed.

End EstimateFacesProperties.

(** ** The sample run *)

Lemma sample_prepared :
  prepareImage (InTensor sampleInput) emptyState
  = (Ok (sampleInput, sampleFloat, sampleImage), preparedState).
Proof. reflexivity. Qed.

Lemma sample_predicted :
  samplePredict sampleImage preparedState
  = (Ok (Some samplePredictions), predictedState).
Proof. reflexivity. Qed.

Lemma sampleTable_NoDup : NoDup sampleTable.*1.
Proof. apply (bool_decide_unpack _). by vm_compute. Qed.

Lemma estimateFaces_null_on_empty_witness :
  prepareImage (InTensor sampleInput) emptyState
  = (Ok (sampleInput, sampleFloat, sampleImage), preparedState) /\
  (emptyPredict sampleImage preparedState = (Ok (Some []), preparedState) /\
   (estimateFaces sampleTable emptyPredict (InTensor sampleInput) true true
      emptyState).1 = Ok None) /\
  (absentPredict sampleImage preparedState = (Ok None, preparedState) /\
   (estimateFaces sampleTable absentPredict (InTensor sampleInput) false false
      emptyState).1 = Ok None).
Proof.
  split; [exact sample_prepared|]. split.
  - split; [reflexivity|].
    exact (estimateFaces_null_on_empty sampleTable emptyPredict
             (InTensor sampleInput) true true emptyState _ _ _ _ _ _
             sample_prepared eq_refl (or_intror eq_refl)).
  - split; [reflexivity|].
    exact (estimateFaces_null_on_empty sampleTable absentPredict
             (InTensor sampleInput) false false emptyState _ _ _ _ _ _
             sample_prepared eq_refl (or_introl eq_refl)).
Defined.

Lemma estimateFaces_annotations_witness :
  NoDup sampleTable.*1 /\
  exists results s',
    estimateFaces sampleTable samplePredict (InTensor sampleInput) false true
      emptyState = (Ok (Some results), s') /\
    length results = 3%nat /\
    forall r, r ∈ results ->
      exists face ann,
        r = Arrays face /\ annotations face = Some ann /\
        ann.*1 = sampleTable.*1 /\
        forall key indices, (key, indices) ∈ sampleTable ->
          exists pts,
            objGet ann key = Some pts /\ length pts = length indices /\
            forall (i index : nat),
              indices !! i = Some index ->
              pts !! i = Some (scaledMesh face !! index).
Proof.
  split; [exact sampleTable_NoDup|].
  destruct (estimateFaces sampleTable samplePredict (InTensor sampleInput)
              false true emptyState) as [[[results|]|e] s'] eqn:Hrun;
    [|by vm_compute in Hrun..].
  exists results, s'. split; [reflexivity|]. split.
  - vm_compute in Hrun. by inversion Hrun.
  - exact (estimateFaces_annotations sampleTable samplePredict _ true
             emptyState results s' sampleTable_NoDup Hrun).
Defined.

Lemma estimateFaces_raw_no_annotations_witness :
  exists results s',
    estimateFaces sampleTable samplePredict (InTensor sampleInput) true true
      emptyState = (Ok (Some results), s') /\
    length results = 3%nat /\
    forall r, r ∈ results ->
      exists face, r = Tensors face /\ annotations face = None.
Proof.
  destruct (estimateFaces sampleTable samplePredict (InTensor sampleInput)
              true true emptyState) as [[[results|]|e] s'] eqn:Hrun;
    [|by vm_compute in Hrun..].
  exists results, s'. split; [reflexivity|]. split.
  - vm_compute in Hrun. by inversion Hrun.
  - exact (estimateFaces_raw_no_annotations sampleTable samplePredict _ true
             emptyState results s' Hrun).
Defined.

Lemma estimateFaces_keeps_order_witness :
  prepareImage (InTensor sampleInput) emptyState
  = (Ok (sampleInput, sampleFloat, sampleImage), preparedState) /\
  samplePredict sampleImage preparedState
  = (Ok (Some samplePredictions), predictedState) /\
  samplePredictions <> [] /\
  exists results s',
    estimateFaces sampleTable samplePredict (InTensor sampleInput) false false
      emptyState = (Ok (Some results), s') /\
    length results = length samplePredictions /\
    forall i p r,
      samplePredictions !! i = Some p -> results !! i = Some r ->
      sameConfidence p r /\
      exists st st',
        estimateFace sampleTable false false
          (nth 1 (shape sampleInput) 0%nat)
          (released sampleInput sampleFloat predictedState) p st
        = (Ok r, st').
Proof.
  split; [exact sample_prepared|]. split; [exact sample_predicted|].
  split; [discriminate|].
  destruct (estimateFaces sampleTable samplePredict (InTensor sampleInput)
              false false emptyState) as [[res|e] s'] eqn:Hrun;
    [|by vm_compute in Hrun].
  destruct (proj2 (estimateFaces_keeps_order sampleTable samplePredict
                     _ false false emptyState _ _ _ _ _ _ res s'
                     sample_prepared sample_predicted Hrun))
    as (results & -> & Hlen & Hpos); [discriminate|].
  exists results, s'. split; [reflexivity|]. split; [exact Hlen|exact Hpos].
Defined.

(** ** Release of the input and of the confidence tensors *)

Lemma isDisposed_released_input input inputToFloat s :
  id input ∈ disposedTensors (engine (released input inputToFloat s)) /\
  id inputToFloat ∈ disposedTensors (engine (released input inputToFloat s)).
Proof. unfold released. simpl. set_solver. Qed.

Lemma released_disposed input inputToFloat s :
  disposedTensors (engine (released input inputToFloat s))
  = {[id inputToFloat]} ∪ ({[id input]} ∪ disposedTensors (engine s)).
Proof. done. Qed.

Lemma released_next input inputToFloat s :
  nextTensorId (engine (released input inputToFloat s))
  = nextTensorId (engine s).
Proof. done. Qed.

Section Release.

Variable MESH_ANNOTATIONS : Obj (list nat).
Variable predict : Tensor -> M (option (list Prediction)).

(** The callbacks never revive a tensor. *)
Lemma callbacks_keep_disposed returnTensors flipHorizontal w s0 ps s :
  disposedTensors (engine s)
  ⊆ disposedTensors
      (engine (promiseAll (map (estimateFace MESH_ANNOTATIONS returnTensors
                                  flipHorizontal w s0) ps) s).2).
Proof.
  set (D := list_to_set
              (ps ≫= fun p => [id (flag p); id (scaledCoords p);
                               id (coords p)]) : gset nat).
  apply (disposesWithin_promiseAll D). apply Forall_fmap, Forall_forall.
  intros p Hp. simpl.
  eapply disposesWithin_weaken; [|apply disposesWithin_estimateFace].
  intros i Hi. apply elem_of_list_to_set, list_elem_of_bind.
  exists p. split; [|done]. set_solver.
Qed.

(** C7, as the code has it: once the facade's [predict] has resolved, the
    input tensor and its float conversion are disposed by the end of the
    call, whether it returns [null], returns faces or fails in a callback;
    when [predict] rejects, [estimateFaces] rejects in the state in which
    [predict] left the runtime, without a [dispose]. *)
Theorem estimateFaces_releases_after_predict input returnTensors
    flipHorizontal s input' inputToFloat image s1 :
  prepareImage input s = (Ok (input', inputToFloat, image), s1) ->
  let run := estimateFaces MESH_ANNOTATIONS predict input returnTensors
               flipHorizontal s in
  (forall predictions s2,
     predict image s1 = (Ok predictions, s2) ->
     tf.isDisposed input' run.2 = true /\
     tf.isDisposed inputToFloat run.2 = true) /\
  (forall e s2, predict image s1 = (Throw e, s2) -> run = (Throw e, s2)).
Proof.
  intros Hprep run. split.
  - intros predictions s2 Hp. subst run.
    rewrite (estimateFaces_resolved _ _ _ _ _ _ _ _ _ _ _ _ Hprep Hp).
    destruct (isDisposed_released_input input' inputToFloat s2) as [H1 H2].
    unfold tf.isDisposed. rewrite !bool_decide_eq_true.
    destruct predictions as [[|p ps]|]; [done| |done].
    cbv zeta.
    pose proof (callbacks_keep_disposed returnTensors flipHorizontal
                  (nth 1 (shape input') 0%nat)
                  (released input' inputToFloat s2) (p :: ps)
                  (released input' inputToFloat s2)) as Hsub.
    unfold bind.
    destruct (promiseAll _ (released input' inputToFloat s2)) as [[l|e] s4];
      simpl in *; set_solver.
  - intros e s2 Hp. subst run.
    by apply (estimateFaces_rejected _ _ _ _ _ _ _ _ _ _ _ _ Hprep Hp).
Qed.

End Release.

Lemma sample_rejected :
  rejectingPredict sampleImage preparedState
  = (Throw (Rejected "predict failed"), preparedState).
Proof. reflexivity. Qed.

Lemma estimateFaces_releases_after_predict_witness :
  prepareImage (InTensor sampleInput) emptyState
  = (Ok (sampleInput, sampleFloat, sampleImage), preparedState) /\
  samplePredict sampleImage preparedState
  = (Ok (Some samplePredictions), predictedState) /\
  (let run := estimateFaces sampleTable samplePredict (InTensor sampleInput)
                false false emptyState in
   tf.isDisposed sampleInput run.2 = true /\
   tf.isDisposed sampleFloat run.2 = true) /\
  rejectingPredict sampleImage preparedState
  = (Throw (Rejected "predict failed"), preparedState) /\
  estimateFaces sampleTable rejectingPredict (InTensor sampleInput)
    false false emptyState
  = (Throw (Rejected "predict failed"), preparedState).
Proof.
  split; [exact sample_prepared|]. split; [exact sample_predicted|].
  split.
  - exact (proj1 (estimateFaces_releases_after_predict sampleTable
                    samplePredict _ false false emptyState _ _ _ _
                    sample_prepared) _ _ sample_predicted).
  - split; [exact sample_rejected|].
    exact (proj2 (estimateFaces_releases_after_predict sampleTable
                    rejectingPredict _ false false emptyState _ _ _ _
                    sample_prepared) _ _ sample_rejected).
Defined.

(** C7 as stated fails: when the facade rejects, the call ends with the
    input tensor and its float conversion still live. *)
Lemma estimateFaces_leaks_on_rejection :
  ~ releasesOnEveryPath sampleTable rejectingPredict (InTensor sampleInput)
      false false emptyState.
Proof.
  intros H. destruct (H _ _ _ _ sample_prepared) as [Hin _].
  by vm_compute in Hin.
Qed.

(** ** Returned tensors *)

Section RawCallbacks.

Variable MESH_ANNOTATIONS : Obj (list nat).

(** A successful run of the callbacks with tensors returned disposes the
    confidence tensors and nothing else; every result carries the
    confidence tensor of its prediction, and buffers that are the
    prediction's own or were allocated during the run. *)
Lemma runAll_raw flipHorizontal w s0 ps st rs st' :
  runAll (map (estimateFace MESH_ANNOTATIONS true flipHorizontal w s0) ps)
         st rs st' ->
  disposedTensors (engine st')
  ⊆ list_to_set (map id (map flag ps)) ∪ disposedTensors (engine st) /\
  (nextTensorId (engine st) <= nextTensorId (engine st'))%nat /\
  Forall2 (fun p r =>
             exists face,
               r = Tensors face /\
               faceInViewConfidence face = flag p /\
               id (flag p) ∈ disposedTensors (engine st') /\
               (flipHorizontal = false ->
                faceBuffers face = predictionBuffers p) /\
               (flipHorizontal = true ->
                Forall (fun t => (nextTensorId (engine st) <= id t)%nat)
                       (faceBuffers face)))
          ps rs.
Proof.
  revert st rs. induction ps as [|p ps IH]; intros st rs H; simpl in H.
  - inversion H; subst. split; [set_solver|]. split; [done|constructor].
  - inversion H as [|k ks s a s1 l s2 Hk Hks]; subst.
    destruct (IH _ _ Hks) as (Hd & Hn & Hall).
    destruct (disposesWithin_run _ _ _ _ _
                (disposesWithin_estimateFace_raw _ _ _ _ _) Hk)
      as (Hd1 & Hd2 & Hn1).
    pose proof (callbacks_keep_disposed MESH_ANNOTATIONS true flipHorizontal
                  w s0 ps s1) as Hs1.
    rewrite (proj2 (promiseAll_runAll _ _ _ _) Hks) in Hs1. simpl in Hs1.
    apply estimateFace_raw_inv in Hk
      as (face & -> & Hconf & _ & Hflag & Hsame & Hfresh).
    split; [cbn [map]; rewrite list_to_set_cons; clear -Hd Hd2; set_solver|].
    split; [lia|]. constructor.
    + exists face. repeat split; try done. clear -Hflag Hs1. set_solver.
    + eapply Forall2_impl; [exact Hall|].
      intros q r (face' & -> & Hc & Hf & Hs & Hfr).
      exists face'. repeat split; try done.
      intros Hfl. eapply Forall_impl; [exact (Hfr Hfl)|].
      simpl. intros; lia.
Qed.

End RawCallbacks.

Section Raw.

Variable MESH_ANNOTATIONS : Obj (list nat).
Variable predict : Tensor -> M (option (list Prediction)).

(** C10: with tensors returned, the [faceInViewConfidence] of every result
    is the confidence tensor of its prediction, on which [dispose] has run
    by the time the results are returned, while the mesh, the scaled mesh
    and the two corners in the result are live: provided the facade handed
    over live buffers that are none of the tensors the call releases, in a
    runtime whose id counter is above every tensor in play. *)
Theorem estimateFaces_raw_confidence_disposed input flipHorizontal s
    input' inputToFloat image s1 predictions s2 results s' :
  prepareImage input s = (Ok (input', inputToFloat, image), s1) ->
  predict image s1 = (Ok (Some predictions), s2) ->
  estimateFaces MESH_ANNOTATIONS predict input true flipHorizontal s
  = (Ok (Some results), s') ->
  engineOk (engine s2) = true ->
  Forall (allocated s2) (releasedTensors input' inputToFloat predictions) ->
  Forall (fun p =>
            Forall (fun t =>
                      live s2 t /\
                      id t ∉ map id (releasedTensors input' inputToFloat
                                       predictions))
                   (predictionBuffers p))
         predictions ->
  forall i r,
    results !! i = Some r ->
    exists p face,
      predictions !! i = Some p /\ r = Tensors face /\
      faceInViewConfidence face = flag p /\
      tf.isDisposed (flag p) s' = true /\
      Forall (live s') (faceBuffers face).
Proof.
  intros Hprep Hp Hrun Hok Halloc Hbuf i r Hi.
  rewrite (estimateFaces_resolved _ _ _ _ _ _ _ _ _ _ _ _ Hprep Hp) in Hrun.
  destruct predictions as [|p0 ps]; [done|].
  cbv zeta in Hrun. apply bind_inv in Hrun as (l & s4 & Hall & Hret).
  inversion Hret; subst l s4; clear Hret.
  apply promiseAll_runAll, runAll_raw in Hall as (Hd & Hn & Hall).
  rewrite released_disposed in Hd. rewrite released_next in Hn.
  destruct (Forall2_lookup_r _ _ _ _ _ Hall Hi)
    as (p & Hip & face & -> & Hconf & Hflag & Hsame & Hfresh).
  exists p, face. split; [exact Hip|]. split; [done|]. split; [done|].
  split; [by apply bool_decide_eq_true|].
  assert (Hrel : forall j,
            j ∈ disposedTensors (engine s') ->
            j ∈ disposedTensors (engine s2) \/
            j ∈ map id (releasedTensors input' inputToFloat (p0 :: ps))).
  { intros j Hj. apply Hd in Hj. unfold releasedTensors.
    rewrite !elem_of_union, elem_of_list_to_set, !elem_of_singleton in Hj.
    cbn [map] in *. rewrite !elem_of_cons in *. tauto. }
  apply Forall_forall. intros t Ht.
  unfold live, tf.isDisposed. apply bool_decide_eq_false. intros Hin.
  apply Hrel in Hin. destruct flipHorizontal.
  - pose proof (proj1 (Forall_forall _ _) (Hfresh eq_refl) t Ht) as Hge.
    simpl in Hge. destruct Hin as [Hin|Hin].
    + unfold engineOk in Hok. apply bool_decide_eq_true in Hok.
      specialize (Hok _ Hin). simpl in Hok. lia.
    + apply list_elem_of_fmap in Hin as (u & Hu & Hin).
      pose proof (proj1 (Forall_forall _ _) Halloc u Hin) as Hlt.
      unfold allocated in Hlt. lia.
  - rewrite (Hsame eq_refl) in Ht.
    apply list_elem_of_lookup_2 in Hip.
    pose proof (proj1 (Forall_forall _ _) Hbuf p Hip) as Hb.
    destruct (proj1 (Forall_forall _ _) Hb t Ht) as [Hlive Hnot].
    destruct Hin as [Hin|Hin]; [|done].
    unfold live, tf.isDisposed in Hlive.
    by apply bool_decide_eq_false in Hlive.
Qed.

End Raw.

Lemma sample_allocated :
  Forall (allocated predictedState)
         (releasedTensors sampleInput sampleFloat samplePredictions).
Proof. repeat constructor; unfold allocated; simpl; lia. Qed.

Lemma sample_buffers :
  Forall (fun p =>
            Forall (fun t =>
                      live predictedState t /\
                      id t ∉ map id (releasedTensors sampleInput sampleFloat
                                       samplePredictions))
                   (predictionBuffers p))
         samplePredictions.
Proof.
  repeat constructor; try reflexivity;
    apply (bool_decide_unpack _); by vm_compute.
Qed.

Lemma estimateFaces_raw_confidence_disposed_witness :
  prepareImage (InTensor sampleInput) emptyState
  = (Ok (sampleInput, sampleFloat, sampleImage), preparedState) /\
  samplePredict sampleImage preparedState
  = (Ok (Some samplePredictions), predictedState) /\
  engineOk (engine predictedState) = true /\
  exists results s',
    estimateFaces sampleTable samplePredict (InTensor sampleInput) true true
      emptyState = (Ok (Some results), s') /\
    length results = 3%nat /\
    forall i r,
      results !! i = Some r ->
      exists p face,
        samplePredictions !! i = Some p /\ r = Tensors face /\
        faceInViewConfidence face = flag p /\
        tf.isDisposed (flag p) s' = true /\
        Forall (live s') (faceBuffers face).
Proof.
  split; [exact sample_prepared|]. split; [exact sample_predicted|].
  split; [reflexivity|].
  destruct (estimateFaces sampleTable samplePredict (InTensor sampleInput)
              true true emptyState) as [[[results|]|e] s'] eqn:Hrun;
    [|by vm_compute in Hrun..].
  exists results, s'. split; [reflexivity|]. split.
  - vm_compute in Hrun. by inversion Hrun.
  - exact (estimateFaces_raw_confidence_disposed sampleTable samplePredict
             _ true emptyState _ _ _ _ _ _ results s'
             sample_prepared sample_predicted Hrun eq_refl
             sample_allocated sample_buffers).
Defined.

(** * Further properties *)

(** ** What a successful run does to the state *)

Lemma staysOnOk_ret {A} (a : A) : staysOnOk (ret a).
Proof. by intros s b s' [= _ <-]. Qed.

Lemma staysOnOk_throw {A} e : staysOnOk (@throw A e).
Proof. by intros s b s'. Qed.

Lemma staysOnOk_cast {A} (o : option A) : staysOnOk (cast o).
Proof. destruct o; [apply staysOnOk_ret|apply staysOnOk_throw]. Qed.

Lemma staysOnOk_bind {A B} (m : M A) (k : A -> M B) :
  staysOnOk m -> (forall a, staysOnOk (k a)) -> staysOnOk (bind m k).
Proof.
  intros Hm Hk s b s' H. apply bind_inv in H as (a & s1 & H1 & H2).
  apply Hm in H1 as ->. by apply Hk in H2.
Qed.

Lemma staysOnOk_mapM {A B} (f : A -> M B) (l : list A) :
  (forall a, staysOnOk (f a)) -> staysOnOk (mapM f l).
Proof.
  intros Hf. induction l as [|a l IH]; simpl.
  - apply staysOnOk_ret.
  - apply staysOnOk_bind; [done|]. intros b.
    apply staysOnOk_bind; [done|]. intros bs. apply staysOnOk_ret.
Qed.

Lemma staysOnOk_throwIfDisposed t : staysOnOk (tf.throwIfDisposed t).
Proof.
  intros s u s'. unfold tf.throwIfDisposed.
  destruct (tf.isDisposed t s); [done|by intros [= _ <-]].
Qed.

Lemma staysOnOk_array t : staysOnOk (tf.array t).
Proof.
  apply staysOnOk_bind; [apply staysOnOk_throwIfDisposed|].
  intros _. apply staysOnOk_ret.
Qed.

Lemma staysOnOk_issuedAt {A} s0 (m : M A) : staysOnOk (issuedAt s0 m).
Proof. by intros s a s' [= _ <-]. Qed.

Lemma bumpsOnOk_make sh vs : bumpsOnOk 1 (tf.make sh vs).
Proof. by intros s t s' [= _ <-]. Qed.

Lemma bumpsOnOk_throw {A} n e : bumpsOnOk n (@throw A e).
Proof. by intros s b s'. Qed.

Lemma bumpsOnOk_after {A B} n (m : M A) (k : A -> M B) :
  staysOnOk m -> (forall a, bumpsOnOk n (k a)) -> bumpsOnOk n (bind m k).
Proof.
  intros Hm Hk s b s' H. apply bind_inv in H as (a & s1 & H1 & H2).
  apply Hm in H1 as ->. by apply Hk in H2.
Qed.

Lemma bumpsOnOk_bind {A B} n k (m : M A) (f : A -> M B) :
  bumpsOnOk n m -> (forall a, bumpsOnOk k (f a)) ->
  bumpsOnOk (k + n) (bind m f).
Proof.
  intros Hm Hf s b s' H. apply bind_inv in H as (a & s1 & H1 & H2).
  apply Hm in H1 as ->. apply Hf in H2 as ->. apply bump_bump.
Qed.

Lemma bumpsOnOk_then_ret {A B} n (m : M A) (f : A -> B) :
  bumpsOnOk n m -> bumpsOnOk n (bind m (fun a => ret (f a))).
Proof.
  intros Hm s b s' H. apply bind_inv in H as (a & s1 & H1 & H2).
  apply Hm in H1 as ->. by inversion H2.
Qed.

Lemma bumpsOnOk_slice t b sz : bumpsOnOk 1 (tf.slice t b sz).
Proof.
  apply bumpsOnOk_after; [apply staysOnOk_throwIfDisposed|]. intros _.
  destruct (shape t); [apply bumpsOnOk_throw|].
  destruct (b + sz <=? n)%nat; [apply bumpsOnOk_make|apply bumpsOnOk_throw].
Qed.

Lemma bumpsOnOk_concat ts : bumpsOnOk 1 (tf.concat ts).
Proof.
  apply bumpsOnOk_after;
    [apply staysOnOk_mapM, staysOnOk_throwIfDisposed|]. intros _.
  destruct ts as [|t0 ts']; [apply bumpsOnOk_throw|].
  destruct (shape t0); [apply bumpsOnOk_throw|].
  match goal with |- context [forallb ?f ?l] => destruct (forallb f l) end;
    [apply bumpsOnOk_make|apply bumpsOnOk_throw].
Qed.

Lemma bumpsOnOk_binaryOp f a b : bumpsOnOk 1 (tf.binaryOp f a b).
Proof.
  apply bumpsOnOk_after; [apply staysOnOk_throwIfDisposed|]. intros _.
  apply bumpsOnOk_after; [apply staysOnOk_throwIfDisposed|]. intros _.
  destruct (tf.broadcastShape (shape a) (shape b));
    [apply bumpsOnOk_make|apply bumpsOnOk_throw].
Qed.

Lemma bumpsOnOk_flipCornerTensor W t : bumpsOnOk 5 (flipCornerTensor W t).
Proof.
  unfold flipCornerTensor.
  apply (bumpsOnOk_bind 1 4); [apply bumpsOnOk_slice|]. intros x.
  apply (bumpsOnOk_bind 1 3); [apply bumpsOnOk_make|]. intros w.
  apply (bumpsOnOk_bind 1 2); [apply bumpsOnOk_binaryOp|]. intros d.
  apply (bumpsOnOk_bind 1 1); [apply bumpsOnOk_slice|]. intros y.
  apply bumpsOnOk_concat.
Qed.

Lemma bumpsOnOk_flipMeshTensor W t : bumpsOnOk 4 (flipMeshTensor W t).
Proof.
  unfold flipMeshTensor.
  apply (bumpsOnOk_bind 1 3); [apply bumpsOnOk_make|]. intros a.
  apply (bumpsOnOk_bind 1 2); [apply bumpsOnOk_binaryOp|]. intros d.
  apply (bumpsOnOk_bind 1 1); [apply bumpsOnOk_make|]. intros b.
  apply bumpsOnOk_binaryOp.
Qed.

Lemma bumpsOnOk_flipFaceHorizontal_tensors W (face : TensorFace) :
  bumpsOnOk 18 (flipFaceHorizontal (Tensors face) W).
Proof.
  unfold flipFaceHorizontal.
  apply (bumpsOnOk_bind 5 13); [apply bumpsOnOk_flipCornerTensor|]. intros tl.
  apply (bumpsOnOk_bind 5 8); [apply bumpsOnOk_flipCornerTensor|]. intros br.
  apply (bumpsOnOk_bind 4 4); [apply bumpsOnOk_flipMeshTensor|]. intros m.
  apply bumpsOnOk_then_ret. apply bumpsOnOk_flipMeshTensor.
Qed.

(** The fields of the [FaceMesh] object are out of reach of the tensor
    operations. *)
Lemma keepsSelf_ret {A} (a : A) : keepsSelf (ret a).
Proof. done. Qed.

Lemma keepsSelf_throw {A} e : keepsSelf (@throw A e).
Proof. done. Qed.

Lemma keepsSelf_bind {A B} (m : M A) (k : A -> M B) :
  keepsSelf m -> (forall a, keepsSelf (k a)) -> keepsSelf (bind m k).
Proof.
  intros Hm Hk s. unfold bind. specialize (Hm s).
  destruct (m s) as [[a|e] s1]; simpl in *; [|done].
  by rewrite Hk.
Qed.

Lemma keepsSelf_mapM {A B} (f : A -> M B) (l : list A) :
  (forall a, keepsSelf (f a)) -> keepsSelf (mapM f l).
Proof.
  intros Hf. induction l as [|a l IH]; simpl; [done|].
  apply keepsSelf_bind; [done|]. intros b.
  apply keepsSelf_bind; [done|]. by intros bs.
Qed.

Lemma keepsSelf_make sh vs : keepsSelf (tf.make sh vs).
Proof. done. Qed.

Lemma keepsSelf_throwIfDisposed t : keepsSelf (tf.throwIfDisposed t).
Proof. intros s. unfold tf.throwIfDisposed. by destruct (tf.isDisposed t s). Qed.

Create HintDb frame.
#[local] Hint Resolve keepsSelf_ret keepsSelf_throw keepsSelf_make
  keepsSelf_throwIfDisposed keepsSelf_mapM : frame.

Ltac frame_tac :=
  repeat first
    [ solve [eauto with frame]
    | apply keepsSelf_bind; [|intros ?] ].

Lemma keepsSelf_slice t b sz : keepsSelf (tf.slice t b sz).
Proof.
  unfold tf.slice. frame_tac.
  destruct (shape t); [eauto with frame|].
  destruct (b + sz <=? n)%nat; eauto with frame.
Qed.

Lemma keepsSelf_concat ts : keepsSelf (tf.concat ts).
Proof.
  unfold tf.concat. frame_tac.
  destruct ts as [|t0 ts']; [eauto with frame|].
  destruct (shape t0); [eauto with frame|].
  match goal with |- context [forallb ?f ?l] => destruct (forallb f l) end;
    eauto with frame.
Qed.

Lemma keepsSelf_binaryOp f a b : keepsSelf (tf.binaryOp f a b).
Proof.
  unfold tf.binaryOp. frame_tac.
  destruct (tf.broadcastShape (shape a) (shape b)); eauto with frame.
Qed.

#[local] Hint Resolve keepsSelf_slice keepsSelf_concat keepsSelf_binaryOp
  : frame.

Lemma keepsSelf_flipCornerTensor W t : keepsSelf (flipCornerTensor W t).
Proof. unfold flipCornerTensor, tf.scalar, tf.sub. frame_tac. Qed.

Lemma keepsSelf_flipMeshTensor W t : keepsSelf (flipMeshTensor W t).
Proof. unfold flipMeshTensor, tf.tensor1d, tf.sub, tf.mul. frame_tac. Qed.

#[local] Hint Resolve keepsSelf_flipCornerTensor keepsSelf_flipMeshTensor
  : frame.

Lemma keepsSelf_flipFaceHorizontal face W :
  keepsSelf (flipFaceHorizontal face W).
Proof. destruct face; simpl; frame_tac. Qed.

(** ** The flip: effects and failures *)

Lemma disposesWithin_empty_eq {A} (m : M A) s :
  disposesWithin ∅ m ->
  disposedTensors (engine (m s).2) = disposedTensors (engine s).
Proof. intros Hm. destruct (Hm s) as (H1 & H2 & _). set_solver. Qed.

Lemma isDisposed_same (t : Tensor) (s s1 : State) :
  disposedTensors (engine s1) = disposedTensors (engine s) ->
  tf.isDisposed t s1 = tf.isDisposed t s.
Proof. unfold tf.isDisposed. by intros ->. Qed.

(** X1: [flipFaceHorizontal] disposes and revives none of the tensors that
    exist when it is called and does not touch the [FaceMesh] object, whether
    it succeeds or fails.  When it succeeds, the result is of the kind of the
    input and has the input's confidence and annotations, which are not
    mirrored; the array branch leaves the runtime as it is, and the four
    buffers of a result of the tensor branch are tensors allocated by the
    call. *)
Theorem flipFaceHorizontal_effect (face : AnnotatedPrediction) (W : number)
    (s : State) :
  let run := flipFaceHorizontal face W s in
  (forall t, allocated s t -> tf.isDisposed t run.2 = tf.isDisposed t s) /\
  self run.2 = self s /\
  (nextTensorId (engine s) <= nextTensorId (engine run.2))%nat /\
  forall r, run.1 = Ok r ->
    match face, r with
    | Arrays f, Arrays f' =>
        run.2 = s /\
        faceInViewConfidence f' = faceInViewConfidence f /\
        annotations f' = annotations f
    | Tensors f, Tensors f' =>
        faceInViewConfidence f' = faceInViewConfidence f /\
        annotations f' = annotations f /\
        Forall (fun t => (nextTensorId (engine s) <= id t
                          < nextTensorId (engine run.2))%nat)
               (faceBuffers f')
    | _, _ => False
    end.
Proof.
  intros run. split; [|split; [|split]].
  - intros t _. apply isDisposed_same.
    apply disposesWithin_empty_eq, disposesWithin_flipFaceHorizontal.
  - apply keepsSelf_flipFaceHorizontal.
  - apply (disposesWithin_flipFaceHorizontal ∅ face W s).
  - intros r Hr. subst run.
    destruct (flipFaceHorizontal face W s) as [o s'] eqn:Hrun.
    simpl in Hr. subst o. destruct face as [f|f].
    + inversion Hrun; subst. done.
    + pose proof (bumpsOnOk_flipFaceHorizontal_tensors W f _ _ _ Hrun) as ->.
      unfold flipFaceHorizontal in Hrun.
      apply bind_inv in Hrun as (tl & s1 & H1 & H).
      apply bind_inv in H as (br & s2 & H2 & H).
      apply bind_inv in H as (m & s3 & H3 & H).
      apply bind_inv in H as (sm & s4 & H4 & H).
      inversion H; subst; clear H. simpl.
      split; [done|]. split; [done|].
      pose proof (bumpsOnOk_flipCornerTensor _ _ _ _ _ H1) as ->.
      pose proof (bumpsOnOk_flipCornerTensor _ _ _ _ _ H2) as E2.
      rewrite bump_bump in E2. subst s2.
      pose proof (bumpsOnOk_flipMeshTensor _ _ _ _ _ H3) as E3.
      rewrite bump_bump in E3. subst s3.
      apply returnsFresh_flipCornerTensor in H1, H2.
      apply returnsFresh_flipMeshTensor in H3, H4.
      unfold faceBuffers.
      cbn [mesh scaledMesh boundingBox topLeft bottomRight].
      simpl in *.
      apply List.Forall_cons; [lia|]. apply List.Forall_cons; [lia|].
      apply List.Forall_cons; [lia|]. apply List.Forall_cons; [lia|].
      apply List.Forall_nil.
Qed.

Lemma flipFaceHorizontal_effect_witness :
  allocated emptyState (mesh sampleTensorFace) /\
  tf.isDisposed (mesh sampleTensorFace)
    (flipFaceHorizontal (Tensors sampleTensorFace) (dec 640 1) emptyState).2
  = false /\
  exists f',
    (flipFaceHorizontal (Tensors sampleTensorFace) (dec 640 1) emptyState).1
    = Ok (Tensors f') /\
    annotations f' = annotations sampleTensorFace.
Proof.
  assert (Hal : allocated emptyState (mesh sampleTensorFace))
    by (unfold allocated; simpl; lia).
  destruct (flipFaceHorizontal_effect (Tensors sampleTensorFace) (dec 640 1)
              emptyState) as (Hd & _ & _ & H).
  split; [exact Hal|]. split; [by rewrite (Hd _ Hal)|].
  destruct (flipFaceHorizontal (Tensors sampleTensorFace) (dec 640 1)
              emptyState) as [[[f'|f']|e] s'] eqn:Hrun;
    try (by vm_compute in Hrun).
  destruct (H _ eq_refl) as (_ & Ha & _).
  exists f'. auto.
Defined.

Lemma reverse_snoc_cons (sh : list nat) (c : nat) :
  reverse (sh ++ [c]) = c :: reverse sh.
Proof. by rewrite reverse_app. Qed.

Lemma broadcastShape_columns (sh : list nat) (c : nat) :
  c <> 1%nat -> c <> 2%nat -> tf.broadcastShape [2%nat] (sh ++ [c]) = None.
Proof.
  intros H1 H2. unfold tf.broadcastShape. rewrite reverse_snoc_cons.
  change (reverse [2%nat]) with [2%nat]. cbn [tf.broadcastRev].
  apply Nat.eqb_neq in H1. rewrite H1.
  assert (H : (2 =? c)%nat = false) by (apply Nat.eqb_neq; congruence).
  by rewrite H.
Qed.

Lemma binaryOp_mismatch f (a b : Tensor) (s : State) :
  live s a -> live s b -> tf.broadcastShape (shape a) (shape b) = None ->
  tf.binaryOp f a b s = (Throw ShapeError, s).
Proof.
  intros Ha Hb Hsh. unfold tf.binaryOp.
  rewrite (bind_run _ _ _ _ _ (throwIfDisposed_run _ _ Ha)).
  rewrite (bind_run _ _ _ _ _ (throwIfDisposed_run _ _ Hb)).
  by rewrite Hsh.
Qed.

Lemma flipMeshTensor_columns (W : number) (m : Tensor) (sh : list nat)
    (c : nat) (s : State) :
  engineOk (engine s) = true -> live s m ->
  shape m = sh ++ [c] -> c <> 1%nat -> c <> 2%nat ->
  flipMeshTensor W m s = (Throw ShapeError, bump 1 s).
Proof.
  intros Hok Hl Hsh H1 H2. unfold flipMeshTensor.
  erewrite bind_run; [|apply make_run].
  erewrite bind_throw; [done|].
  apply binaryOp_mismatch; [live_tac|live_tac|].
  cbn [shape length]. rewrite Hsh. by apply broadcastShape_columns.
Qed.

(** X2: the tensor branch of the flip is for landmarks of two columns: on a
    live face whose corners hold points and whose mesh has a last axis of
    another size than 1 or 2, such as the shape [[n, 3]] of landmarks with
    a depth, it fails with a shape error. *)
Theorem flipFaceHorizontal_mesh_columns (W : number) (face : TensorFace)
    (tl br : Point) (sh : list nat) (c : nat) (s : State) :
  engineOk (engine s) = true -> buffersLive s face ->
  cornerPoint (topLeft (boundingBox face)) = Some tl ->
  cornerPoint (bottomRight (boundingBox face)) = Some br ->
  shape (mesh face) = sh ++ [c] -> c <> 1%nat -> c <> 2%nat ->
  (flipFaceHorizontal (Tensors face) W s).1 = Throw ShapeError.
Proof.
  intros Hok (Htl & Hbr & Hm & Hsm) Etl Ebr Hsh H1 H2.
  unfold flipFaceHorizontal.
  erewrite bind_run; [|by apply flipCornerTensor_run].
  erewrite bind_run;
    [|apply flipCornerTensor_run;
      [by apply engineOk_bump|live_tac|exact Ebr]].
  erewrite bind_throw; [done|].
  apply (flipMeshTensor_columns _ _ sh c);
    [by do 2 apply engineOk_bump|live_tac|done..].
Qed.

Lemma flipFaceHorizontal_mesh_columns_witness :
  engineOk (engine emptyState) = true /\
  buffersLive emptyState sampleTensorFace3D /\
  shape (mesh sampleTensorFace3D) = [2%nat] ++ [3%nat] /\
  (flipFaceHorizontal (Tensors sampleTensorFace3D) (dec 640 1) emptyState).1
  = Throw ShapeError.
Proof.
  assert (H1 : engineOk (engine emptyState) = true) by (by vm_compute).
  assert (H2 : buffersLive emptyState sampleTensorFace3D) by (by vm_compute).
  split; [exact H1|]. split; [exact H2|]. split; [reflexivity|].
  exact (flipFaceHorizontal_mesh_columns (dec 640 1) sampleTensorFace3D
           (dec 100 1, dec 50 1) (dec 300 1, dec 250 1) [2%nat] 3%nat
           emptyState H1 H2 eq_refl eq_refl eq_refl
           ltac:(discriminate) ltac:(discriminate)).
Defined.

Lemma slice_disposed (t : Tensor) (b sz : nat) (s : State) :
  tf.isDisposed t s = true -> tf.slice t b sz s = (Throw TensorDisposed, s).
Proof.
  intros H. unfold tf.slice.
  apply bind_throw. unfold tf.throwIfDisposed. by rewrite H.
Qed.

Lemma flipCornerTensor_disposed (W : number) (t : Tensor) (s : State) :
  tf.isDisposed t s = true ->
  flipCornerTensor W t s = (Throw TensorDisposed, s).
Proof.
  intros H. unfold flipCornerTensor.
  apply bind_throw. by apply slice_disposed.
Qed.

(** X3: the tensor branch of the flip fails on a face with a disposed
    corner: [slice] checks the tensor it is called on.  On a disposed
    [topLeft] it fails with "Tensor is disposed" before anything is
    allocated. *)
Theorem flipFaceHorizontal_disposed_corner (W : number) (face : TensorFace)
    (s : State) :
  (tf.isDisposed (topLeft (boundingBox face)) s = true ->
   flipFaceHorizontal (Tensors face) W s = (Throw TensorDisposed, s)) /\
  (tf.isDisposed (bottomRight (boundingBox face)) s = true ->
   exists e, (flipFaceHorizontal (Tensors face) W s).1 = Throw e).
Proof.
  split.
  - intros Hd. unfold flipFaceHorizontal.
    apply bind_throw. by apply flipCornerTensor_disposed.
  - intros Hd. unfold flipFaceHorizontal, bind.
    destruct (flipCornerTensor W (topLeft (boundingBox face)) s)
      as [[tl|e] s1] eqn:H1; [|eauto].
    pose proof (disposesWithin_empty_eq _ s
                  (disposesWithin_flipCornerTensor ∅ W
                     (topLeft (boundingBox face)))) as E1.
    rewrite H1 in E1. simpl in E1.
    rewrite (flipCornerTensor_disposed W (bottomRight (boundingBox face)) s1)
      by (by rewrite (isDisposed_same _ _ _ E1)).
    eauto.
Qed.

Lemma flipFaceHorizontal_disposed_corner_witness :
  tf.isDisposed (bottomRight (boundingBox sampleTensorFace)) staleCornerState
  = true /\
  exists e,
    (flipFaceHorizontal (Tensors sampleTensorFace) (dec 640 1)
       staleCornerState).1
    = Throw e.
Proof.
  assert (H : tf.isDisposed (bottomRight (boundingBox sampleTensorFace))
                staleCornerState = true) by (by vm_compute).
  split; [exact H|].
  exact (proj2 (flipFaceHorizontal_disposed_corner (dec 640 1)
                  sampleTensorFace staleCornerState) H).
Defined.

(** ** The input *)

Lemma toFloat_run (t : Tensor) (s : State) :
  live s t ->
  tf.toFloat t s
  = (Ok (mkTensor (nextTensorId (engine s)) (shape t) (values t)), bump 1 s).
Proof.
  intros Hl. unfold tf.toFloat.
  by rewrite (bind_run _ _ _ _ _ (throwIfDisposed_run _ _ Hl)).
Qed.

Lemma expandDims0_run (t : Tensor) (s : State) :
  live s t ->
  tf.expandDims0 t s
  = (Ok (mkTensor (nextTensorId (engine s)) (1%nat :: shape t) (values t)),
     bump 1 s).
Proof.
  intros Hl. unfold tf.expandDims0.
  by rewrite (bind_run _ _ _ _ _ (throwIfDisposed_run _ _ Hl)).
Qed.

(** X4: in a runtime whose id counter is above the disposed tensors, the
    preparation of the input succeeds unless the input is a disposed tensor.
    The tensor that is disposed later is then the caller's own tensor, or
    the conversion of the pixel source; the image handed to the facade holds
    its values under a batch axis of size 1; and the height and width read
    from it are those of the input, so that a pixel source is mirrored about
    its own width. *)
Theorem prepareImage_succeeds (input : Input) (s : State) :
  engineOk (engine s) = true ->
  (forall t, input = InTensor t -> live s t) ->
  exists input' inputToFloat image n,
    prepareImage input s = (Ok (input', inputToFloat, image), bump n s) /\
    (forall t, input = InTensor t -> input' = t) /\
    values inputToFloat = values input' /\
    shape image = 1%nat :: shape input' /\
    values image = values input' /\
    getInputTensorDimensions (InTensor input')
    = getInputTensorDimensions input.
Proof.
  intros Hok Hlive. unfold prepareImage. destruct input as [t|h w rgba].
  - specialize (Hlive t eq_refl). do 3 eexists. exists 2%nat.
    split; [|split; [|split; [|split; [|split]]]].
    + cbn [inputTensor]. erewrite bind_run; [|reflexivity].
      erewrite bind_run; [|by apply toFloat_run].
      erewrite bind_run; [|apply expandDims0_run; live_tac].
      rewrite bump_bump. reflexivity.
    + by intros t' [= ->].
    + done.
    + done.
    + done.
    + done.
  - do 3 eexists. exists 3%nat.
    split; [|split; [|split; [|split; [|split]]]].
    + cbn [inputTensor]. unfold tf.fromPixels.
      erewrite bind_run; [|apply make_run].
      erewrite bind_run; [|apply toFloat_run; live_tac].
      erewrite bind_run; [|apply expandDims0_run; live_tac].
      rewrite !bump_bump. reflexivity.
    + by intros t' [=].
    + done.
    + done.
    + done.
    + done.
Qed.

Lemma prepareImage_succeeds_witness :
  engineOk (engine emptyState) = true /\
  exists input' inputToFloat image n,
    prepareImage samplePixels emptyState
    = (Ok (input', inputToFloat, image), bump n emptyState) /\
    shape image = 1%nat :: shape input' /\
    getInputTensorDimensions (InTensor input') = (1%nat, 2%nat).
Proof.
  assert (H1 : engineOk (engine emptyState) = true) by (by vm_compute).
  split; [exact H1|].
  destruct (prepareImage_succeeds samplePixels emptyState H1)
    as (input' & itf & image & n & Hp & _ & _ & Hs & _ & Hd);
    [by intros t [=]|].
  exists input', itf, image, n. auto.
Defined.

(** A disposed tensor input stops the call at [toFloat]. *)
Lemma estimateFaces_on_disposed (MESH_ANNOTATIONS : Obj (list nat))
    (predict : Tensor -> M (option (list Prediction)))
    (t : Tensor) (returnTensors flipHorizontal : bool) (s : State) :
  tf.isDisposed t s = true ->
  estimateFaces MESH_ANNOTATIONS predict (InTensor t) returnTensors
    flipHorizontal s
  = (Throw TensorDisposed, s).
Proof.
  intros Hd. apply estimateFaces_unprepared.
  unfold prepareImage. cbn [inputTensor].
  erewrite bind_run; [|reflexivity].
  apply bind_throw. unfold tf.toFloat. apply bind_throw.
  unfold tf.throwIfDisposed. by rewrite Hd.
Qed.

(** X5: a tensor input that is disposed makes [estimateFaces] fail with
    "Tensor is disposed" before the facade is called: the outcome and the
    state are the same for every facade, and the state is the one the call
    started in. *)
Theorem estimateFaces_disposed_input (MESH_ANNOTATIONS : Obj (list nat))
    (predict : Tensor -> M (option (list Prediction)))
    (t : Tensor) (returnTensors flipHorizontal : bool) (s : State) :
  tf.isDisposed t s = true ->
  estimateFaces MESH_ANNOTATIONS predict (InTensor t) returnTensors
    flipHorizontal s
  = (Throw TensorDisposed, s).
Proof. apply estimateFaces_on_disposed. Qed.

Lemma estimateFaces_disposed_input_witness :
  tf.isDisposed (scaledMesh sampleTensorFace) staleState = true /\
  estimateFaces sampleTable samplePredict
    (InTensor (scaledMesh sampleTensorFace)) false false staleState
  = (Throw TensorDisposed, staleState).
Proof.
  assert (H : tf.isDisposed (scaledMesh sampleTensorFace) staleState = true)
    by (by vm_compute).
  split; [exact H|].
  exact (estimateFaces_disposed_input sampleTable samplePredict _ false false
           staleState H).
Defined.

Section Consumed.

Variable MESH_ANNOTATIONS : Obj (list nat).
Variable predict : Tensor -> M (option (list Prediction)).

(** Once the facade has resolved, the input is disposed at the end. *)
Lemma estimateFaces_input_released input returnTensors flipHorizontal s
    input' inputToFloat image s1 predictions s2 :
  prepareImage input s = (Ok (input', inputToFloat, image), s1) ->
  predict image s1 = (Ok predictions, s2) ->
  tf.isDisposed input'
    (estimateFaces MESH_ANNOTATIONS predict input returnTensors
       flipHorizontal s).2 = true.
Proof.
  intros Hprep Hp.
  rewrite (estimateFaces_resolved _ _ _ _ _ _ _ _ _ _ _ _ Hprep Hp).
  destruct (isDisposed_released_input input' inputToFloat s2) as [H1 _].
  unfold tf.isDisposed. rewrite bool_decide_eq_true.
  destruct predictions as [[|p ps]|]; [done| |done].
  cbv zeta.
  pose proof (callbacks_keep_disposed MESH_ANNOTATIONS returnTensors
                flipHorizontal (nth 1 (shape input') 0%nat)
                (released input' inputToFloat s2) (p :: ps)
                (released input' inputToFloat s2)) as Hsub.
  unfold bind.
  destruct (promiseAll _ (released input' inputToFloat s2)) as [[l|e] s4];
    simpl in *; set_solver.
Qed.

(** X6: [estimateFaces] consumes a tensor input.  After a call on the tensor
    [t] in which the facade resolved, a further call on [t] fails with
    "Tensor is disposed", whatever the facade and the flags of that call, and
    as long as nothing revives [t]. *)
Theorem estimateFaces_consumes_input (t : Tensor)
    (returnTensors flipHorizontal : bool) (s : State)
    input' inputToFloat image s1 predictions s2 :
  prepareImage (InTensor t) s = (Ok (input', inputToFloat, image), s1) ->
  predict image s1 = (Ok predictions, s2) ->
  let s' := (estimateFaces MESH_ANNOTATIONS predict (InTensor t)
               returnTensors flipHorizontal s).2 in
  forall (predict' : Tensor -> M (option (list Prediction)))
         (returnTensors' flipHorizontal' : bool),
    estimateFaces MESH_ANNOTATIONS predict' (InTensor t) returnTensors'
      flipHorizontal' s'
    = (Throw TensorDisposed, s').
Proof.
  intros Hprep Hp s' predict' rt' fh'.
  apply estimateFaces_on_disposed.
  assert (Ht : input' = t).
  { unfold prepareImage in Hprep. cbn [inputTensor] in Hprep.
    apply bind_inv in Hprep as (t0 & s0 & H0 & Hprep).
    apply bind_inv in Hprep as (f & sa & _ & Hprep).
    apply bind_inv in Hprep as (im & sb & _ & Hprep).
    inversion H0; subst. by inversion Hprep. }
  subst input'. subst s'. by eapply estimateFaces_input_released.
Qed.

End Consumed.

Lemma estimateFaces_consumes_input_witness :
  prepareImage (InTensor sampleInput) emptyState
  = (Ok (sampleInput, sampleFloat, sampleImage), preparedState) /\
  samplePredict sampleImage preparedState
  = (Ok (Some samplePredictions), predictedState) /\
  let s' := (estimateFaces sampleTable samplePredict (InTensor sampleInput)
               false false emptyState).2 in
  estimateFaces sampleTable emptyPredict (InTensor sampleInput) true true s'
  = (Throw TensorDisposed, s').
Proof.
  split; [exact sample_prepared|]. split; [exact sample_predicted|].
  exact (estimateFaces_consumes_input sampleTable samplePredict sampleInput
           false false emptyState _ _ _ _ _ _ sample_prepared
           sample_predicted emptyPredict true true).
Defined.

(** ** The state after a run that returns faces *)

Lemma clearPipelineROIs_inv (c : number) (s : State) u s' :
  clearPipelineROIs c s = (Ok u, s') ->
  engine s' = engine s /\
  detectionConfidence (self s') = detectionConfidence (self s) /\
  regionsOfInterest (pipeline (self s'))
  = if ltb c (detectionConfidence (self s)) then []
    else regionsOfInterest (pipeline (self s)).
Proof.
  unfold clearPipelineROIs.
  destruct (ltb c (detectionConfidence (self s))); by intros [= _ <-].
Qed.

Lemma confidenceValues_cons p ps v :
  tf.asNumber (flag p) = Some v ->
  confidenceValues (p :: ps) = v :: confidenceValues ps.
Proof. unfold confidenceValues. simpl. by intros ->. Qed.

Section CallbackState.

Variable MESH_ANNOTATIONS : Obj (list nat).

(** What one callback does to the state when it succeeds. *)
Lemma estimateFace_state returnTensors flipHorizontal w s0 p st r st' :
  estimateFace MESH_ANNOTATIONS returnTensors flipHorizontal w s0 p st
  = (Ok r, st') ->
  exists v,
    tf.asNumber (flag p) = Some v /\
    nextTensorId (engine st')
    = ((if returnTensors && flipHorizontal then 18 else 0)
       + nextTensorId (engine st))%nat /\
    disposedTensors (engine st')
    = idsOf (disposedByFace returnTensors p) ∪ disposedTensors (engine st) /\
    detectionConfidence (self st') = detectionConfidence (self st) /\
    regionsOfInterest (pipeline (self st'))
    = if ltb v (detectionConfidence (self st)) then []
      else regionsOfInterest (pipeline (self st)).
Proof.
  unfold estimateFace. intros H.
  apply bind_inv in H as (tv & s1 & Hread & H).
  pose proof (staysOnOk_issuedAt _ _ _ _ _ Hread) as ->.
  assert (Htv : tv = tensorsToRead returnTensors p).
  { unfold issuedAt in Hread.
    destruct (mapM tf.array (tensorsToRead returnTensors p) s0)
      as [o s0'] eqn:E.
    inversion Hread; subst. by apply mapM_array_inv in E. }
  subst tv.
  apply bind_inv in H as (v & s1 & Hflag & H).
  apply cast_inv in Hflag as [Hflag ->]. simpl in Hflag.
  apply bind_inv in H as ([] & s2 & Hd & H). inversion Hd; subst s2; clear Hd.
  apply bind_inv in H as ([] & s3 & Hc & H).
  apply clearPipelineROIs_inv in Hc as (He & Hdc & Hroi).
  cbn [engine self nextTensorId disposedTensors] in He, Hdc, Hroi.
  exists v. split; [exact Hflag|].
  destruct returnTensors.
  - destruct flipHorizontal.
    + pose proof (bumpsOnOk_flipFaceHorizontal_tensors _ _ _ _ _ H) as ->.
      cbn [bump engine self nextTensorId disposedTensors andb].
      rewrite He. cbn [nextTensorId disposedTensors].
      unfold idsOf, disposedByFace. cbn [map]. 
      rewrite list_to_set_cons, list_to_set_nil.
      split; [done|]. split; [set_solver|]. done.
    + inversion H; subst st'. rewrite He. cbn [nextTensorId disposedTensors].
      unfold idsOf, disposedByFace. cbn [map andb].
      rewrite list_to_set_cons, list_to_set_nil.
      split; [done|]. split; [set_solver|]. done.
  - cbn [andb].
    apply bind_inv in H as ([[[coordsArr coordsArrScaled] tl] br] & s4 & Hk & H).
    apply cast_inv in Hk as [_ ->].
    apply bind_inv in H as ([] & s5 & Hd1 & H).
    inversion Hd1; subst s5; clear Hd1.
    apply bind_inv in H as ([] & s6 & Hd2 & H).
    inversion Hd2; subst s6; clear Hd2.
    apply bind_inv in H as (ap & s7 & Hflip & H).
    assert (Hs7 : s7 = mkState
                    (mkEngine
                       (nextTensorId (engine s3))
                       ({[id (coords p)]}
                        ∪ ({[id (scaledCoords p)]}
                           ∪ disposedTensors (engine s3))))
                    (self s3)).
    { destruct flipHorizontal; by inversion Hflip. }
    assert (Hst' : st' = s7) by (destruct ap; by inversion H).
    subst st' s7. cbn [engine self nextTensorId disposedTensors].
    rewrite He. cbn [nextTensorId disposedTensors].
    unfold idsOf, disposedByFace. cbn [map].
    rewrite !list_to_set_cons, list_to_set_nil.
    split; [done|]. split; [set_solver|]. done.
Qed.

(** What the callbacks of [ps] do to the state when all of them succeed. *)
Lemma runAll_state returnTensors flipHorizontal w s0 ps st rs st' :
  runAll (map (estimateFace MESH_ANNOTATIONS returnTensors flipHorizontal
                 w s0) ps) st rs st' ->
  length (confidenceValues ps) = length ps /\
  nextTensorId (engine st')
  = ((if returnTensors && flipHorizontal then 18 * length ps else 0)
     + nextTensorId (engine st))%nat /\
  disposedTensors (engine st')
  = idsOf (ps ≫= disposedByFace returnTensors)
    ∪ disposedTensors (engine st) /\
  detectionConfidence (self st') = detectionConfidence (self st) /\
  regionsOfInterest (pipeline (self st'))
  = if existsb (fun v => ltb v (detectionConfidence (self st)))
               (confidenceValues ps)
    then [] else regionsOfInterest (pipeline (self st)).
Proof.
  revert st rs. induction ps as [|p ps IH]; intros st rs H; simpl in H.
  - inversion H; subst. simpl. split; [done|]. 
    split; [by destruct (returnTensors && flipHorizontal)|].
    split; [unfold idsOf; set_solver|]. done.
  - inversion H as [|k ks s a s1 l s2 Hk Hks]; subst.
    apply estimateFace_state in Hk as (v & Hv & Hn1 & Hd1 & Hc1 & Hr1).
    destruct (IH _ _ Hks) as (Hlen & Hn & Hd & Hc & Hr).
    rewrite (confidenceValues_cons _ _ _ Hv). cbn [length existsb].
    split; [by rewrite Hlen|].
    split; [rewrite Hn, Hn1;
            destruct (returnTensors && flipHorizontal); lia|].
    split.
    + rewrite Hd, Hd1. unfold idsOf. rewrite bind_cons.
      rewrite map_app, list_to_set_app_L.
      generalize (list_to_set (map id (disposedByFace returnTensors p))
                  : gset nat).
      generalize (list_to_set (map id (ps ≫= disposedByFace returnTensors))
                  : gset nat).
      intros A B. clear. set_solver.
    + split; [congruence|]. rewrite Hr, Hc1, Hr1.
      destruct (ltb v (detectionConfidence (self st))); cbn [orb]; [|done].
      clear. by destruct (existsb _ _).
Qed.

End CallbackState.

(** ** The state after [estimateFaces] *)

Lemma released_self input inputToFloat s :
  self (released input inputToFloat s) = self s.
Proof. done. Qed.

Lemma released_engine input inputToFloat s :
  engine (released input inputToFloat s)
  = mkEngine (nextTensorId (engine s))
             (idsOf [input; inputToFloat] ∪ disposedTensors (engine s)).
Proof.
  unfold released, tf.dispose, idsOf. cbn [engine snd map nextTensorId
                                           disposedTensors].
  f_equal. rewrite !list_to_set_cons, list_to_set_nil.
  generalize (disposedTensors (engine s)). intros D. set_solver.
Qed.

Section After.

Variable MESH_ANNOTATIONS : Obj (list nat).
Variable predict : Tensor -> M (option (list Prediction)).

(** A run that returns: the facade resolved and, when it resolved to a
    non-empty array, every callback succeeded. *)
Lemma estimateFaces_returned input returnTensors flipHorizontal s
    input' inputToFloat image s1 predictions s2 r s' :
  prepareImage input s = (Ok (input', inputToFloat, image), s1) ->
  predict image s1 = (Ok predictions, s2) ->
  estimateFaces MESH_ANNOTATIONS predict input returnTensors flipHorizontal s
  = (Ok r, s') ->
  let s3 := released input' inputToFloat s2 in
  exists rs,
    runAll (map (estimateFace MESH_ANNOTATIONS returnTensors flipHorizontal
                   (nth 1 (shape input') 0%nat) s3) (default [] predictions))
           s3 rs s' /\
    r = match default [] predictions with [] => None | _ => Some rs end.
Proof.
  intros Hprep Hp Hrun.
  rewrite (estimateFaces_resolved _ _ _ _ _ _ _ _ _ _ _ _ Hprep Hp) in Hrun.
  cbv zeta in *.
  destruct predictions as [[|p ps]|]; cbn [default].
  - inversion Hrun; subst. exists []. split; [constructor|done].
  - apply bind_inv in Hrun as (l & s4 & Hall & Hret).
    inversion Hret; subst. exists l.
    split; [by apply promiseAll_runAll|done].
  - inversion Hrun; subst. exists []. split; [constructor|done].
Qed.

(** X7: the regions of interest after a call that returns.  The threshold
    is left as the facade left it, and the regions are cleared if the
    confidence of some prediction is below the threshold, whatever the
    confidences of the predictions after it, and are otherwise those the
    facade left; a call that returns [null] leaves them too. *)
Theorem estimateFaces_regions input returnTensors flipHorizontal s
    input' inputToFloat image s1 predictions s2 r s' :
  prepareImage input s = (Ok (input', inputToFloat, image), s1) ->
  predict image s1 = (Ok predictions, s2) ->
  estimateFaces MESH_ANNOTATIONS predict input returnTensors flipHorizontal s
  = (Ok r, s') ->
  detectionConfidence (self s') = detectionConfidence (self s2) /\
  regionsOfInterest (pipeline (self s'))
  = if existsb (fun v => ltb v (detectionConfidence (self s2)))
               (confidenceValues (default [] predictions))
    then [] else regionsOfInterest (pipeline (self s2)).
Proof.
  intros Hprep Hp Hrun.
  destruct (estimateFaces_returned _ _ _ _ _ _ _ _ _ _ _ _ Hprep Hp Hrun)
    as (rs & Hall & _).
  apply runAll_state in Hall as (_ & _ & _ & Hc & Hr).
  by rewrite released_self in Hc, Hr.
Qed.

(** X8: the tensors after a call that returns.  Of the tensors that exist
    when the facade resolves, those disposed at the end are the ones
    disposed then and the input tensor, its float conversion, the confidence
    tensor of every prediction and, unless tensors are returned, the two
    mesh tensors of every prediction, and no other: the batched image and the
    corner tensors of the boxes are never disposed here.  Unless tensors are
    returned flipped, nothing is allocated after the facade has resolved and
    nothing else is disposed. *)
Theorem estimateFaces_tensors input returnTensors flipHorizontal s
    input' inputToFloat image s1 predictions s2 r s' :
  prepareImage input s = (Ok (input', inputToFloat, image), s1) ->
  predict image s1 = (Ok predictions, s2) ->
  estimateFaces MESH_ANNOTATIONS predict input returnTensors flipHorizontal s
  = (Ok r, s') ->
  let released := input' :: inputToFloat
                  :: (default [] predictions ≫= disposedByFace returnTensors)
  in
  (forall t, allocated s2 t ->
     tf.isDisposed t s' = true
     <-> id t ∈ idsOf released \/ tf.isDisposed t s2 = true) /\
  (nextTensorId (engine s2) <= nextTensorId (engine s'))%nat /\
  (returnTensors && flipHorizontal = false ->
   nextTensorId (engine s') = nextTensorId (engine s2) /\
   disposedTensors (engine s')
   = idsOf released ∪ disposedTensors (engine s2)).
Proof.
  intros Hprep Hp Hrun released.
  destruct (estimateFaces_returned _ _ _ _ _ _ _ _ _ _ _ _ Hprep Hp Hrun)
    as (rs & Hall & _).
  apply runAll_state in Hall as (_ & Hn & Hd & _ & _).
  rewrite released_engine in Hn, Hd. cbn [nextTensorId disposedTensors] in *.
  assert (Hd' : disposedTensors (engine s')
                = idsOf released ∪ disposedTensors (engine s2)).
  { rewrite Hd. unfold released, idsOf. cbn [map].
    rewrite !list_to_set_cons, list_to_set_nil.
    generalize (list_to_set
                  (map id (default [] predictions
                           ≫= disposedByFace returnTensors)) : gset nat).
    generalize (disposedTensors (engine s2)). intros D E. set_solver. }
  split; [|split].
  - intros t _. unfold tf.isDisposed. rewrite !bool_decide_eq_true, Hd'.
    apply elem_of_union.
  - rewrite Hn. lia.
  - intros Hb. rewrite Hb in Hn. split; [exact Hn|exact Hd'].
Qed.

End After.

Lemma estimateFaces_tensors_witness :
  prepareImage (InTensor sampleInput) emptyState
  = (Ok (sampleInput, sampleFloat, sampleImage), preparedState) /\
  samplePredict sampleImage preparedState
  = (Ok (Some samplePredictions), predictedState) /\
  allocated predictedState (flag (samplePrediction 20 (dec 95 100))) /\
  allocated predictedState
    (startPoint (box (samplePrediction 20 (dec 95 100)))) /\
  exists r s',
    estimateFaces sampleTable samplePredict (InTensor sampleInput) true true
      emptyState = (Ok r, s') /\
    tf.isDisposed (flag (samplePrediction 20 (dec 95 100))) s' = true /\
    tf.isDisposed (startPoint (box (samplePrediction 20 (dec 95 100)))) s'
    = false.
Proof.
  assert (Ha1 : allocated predictedState
                  (flag (samplePrediction 20 (dec 95 100))))
    by (unfold allocated; simpl; lia).
  assert (Ha2 : allocated predictedState
                  (startPoint (box (samplePrediction 20 (dec 95 100)))))
    by (unfold allocated; simpl; lia).
  split; [exact sample_prepared|]. split; [exact sample_predicted|].
  split; [exact Ha1|]. split; [exact Ha2|].
  destruct (estimateFaces sampleTable samplePredict (InTensor sampleInput)
              true true emptyState) as [[r|e] s'] eqn:Hrun;
    [|by vm_compute in Hrun].
  destruct (estimateFaces_tensors sampleTable samplePredict _ _ _ _ _ _ _ _
              _ _ r s' sample_prepared sample_predicted Hrun) as (Hd & _ & _).
  exists r, s'. split; [reflexivity|]. split.
  - apply (Hd _ Ha1). left. apply (bool_decide_unpack _). by vm_compute.
  - apply not_true_is_false. intros Hdis. apply (Hd _ Ha2) in Hdis.
    destruct Hdis as [Hin|Hdis]; [|by vm_compute in Hdis].
    revert Hin. apply (bool_decide_unpack _). by vm_compute.
Defined.

Lemma estimateFaces_regions_witness :
  prepareImage (InTensor sampleInput) emptyState
  = (Ok (sampleInput, sampleFloat, sampleImage), preparedState) /\
  samplePredict sampleImage preparedState
  = (Ok (Some samplePredictions), predictedState) /\
  exists r s',
    estimateFaces sampleTable samplePredict (InTensor sampleInput) false true
      emptyState = (Ok r, s') /\
    detectionConfidence (self s') = defaultDetectionConfidence /\
    regionsOfInterest (pipeline (self s')) = [].
Proof.
  split; [exact sample_prepared|]. split; [exact sample_predicted|].
  destruct (estimateFaces sampleTable samplePredict (InTensor sampleInput)
              false true emptyState) as [[r|e] s'] eqn:Hrun;
    [|by vm_compute in Hrun].
  destruct (estimateFaces_regions sampleTable samplePredict _ _ _ _ _ _ _ _
              _ _ r s' sample_prepared sample_predicted Hrun) as [Hc Hr].
  exists r, s'. split; [reflexivity|]. split; [exact Hc|].
  rewrite Hr. reflexivity.
Defined.

(** ** Arrays: a flipped run is the mirror image of a run without flip *)




Section Mirror.

Variable MESH_ANNOTATIONS : Obj (list nat).


Variable predict : Tensor -> M (option (list Prediction)).



End Mirror.

(** ** What a call returns, and when it fails *)

Lemma mapM_array_outcome (l : list Tensor) (s : State) :
  mapM tf.array l s
  = (if forallb (fun t => negb (tf.isDisposed t s)) l
     then Ok l else Throw TensorDisposed, s).
Proof.
  induction l as [|t l IH]; [done|].
  cbn [mapM forallb]. unfold bind at 1.
  unfold tf.array at 1, tf.throwIfDisposed, bind at 1.
  destruct (tf.isDisposed t s); [done|]. cbn [ret negb andb].
  unfold bind. rewrite IH. by destruct (forallb _ l).
Qed.

(** [promiseAll] over callbacks that either produce their expected result
    or fail with [e]: all the results, or [e]. *)
Lemma promiseAll_outcome {A B} (f : A -> M B) (ok : A -> bool)
    (R : A -> B -> Prop) (e : Error) (xs : list A) (rs : list B) (s : State) :
  (forall x r st, R x r -> (f x st).1 = if ok x then Ok r else Throw e) ->
  Forall2 R xs rs ->
  (promiseAll (map f xs) s).1
  = if forallb ok xs then Ok rs else Throw e.
Proof.
  intros Hf Hall. revert s.
  induction Hall as [|x r xs rs HR _ IH]; intros s; [done|].
  cbn [map promiseAll forallb].
  pose proof (Hf x r s HR) as Hx. destruct (f x s) as [o s1].
  specialize (IH s1). destruct (promiseAll (map f xs) s1) as [os s2].
  cbn [fst] in *. subst o os.
  by destruct (ok x), (forallb ok xs).
Qed.

Section Results.

Variable MESH_ANNOTATIONS : Obj (list nat).

Lemma estimateFace_arrays_outcome w s0 p r st :
  materialize MESH_ANNOTATIONS p = Some r ->
  (estimateFace MESH_ANNOTATIONS false false w s0 p st).1
  = if forallb (fun t => negb (tf.isDisposed t s0)) (tensorsToRead false p)
    then Ok r else Throw TensorDisposed.
Proof.
  unfold materialize. intros Hm.
  destruct (tf.asNumber (flag p)) as [v|] eqn:Hv; [|done].
  destruct (tf.asPoints (coords p)) as [m|] eqn:Hc; [|done].
  destruct (tf.asPoints (scaledCoords p)) as [sm|] eqn:Hsc; [|done].
  destruct (tf.asPoint (startPoint (box p))) as [tl|] eqn:Htl; [|done].
  destruct (tf.asPoint (endPoint (box p))) as [br|] eqn:Hbr; [|done].
  cbn in Hm. inversion Hm; subst r; clear Hm.
  unfold estimateFace, issuedAt. unfold bind at 1.
  rewrite mapM_array_outcome. cbn [fst].
  destruct (forallb _ (tensorsToRead false p)); [|done].
  unfold tensorsToRead. cbn [app lookup list_lookup mbind option_bind drop].
  rewrite Hv. unfold bind, cast, ret, tf.dispose, clearPipelineROIs,
    pipelineClearROIs.
  cbn [fst snd]. rewrite Hc, Hsc, Htl, Hbr. cbn [mbind option_bind].
  by destruct (ltb v _).
Qed.

Lemma estimateFace_raw_outcome w s0 p r st :
  is_Some (tf.asNumber (flag p)) /\ r = handedOver p ->
  (estimateFace MESH_ANNOTATIONS true false w s0 p st).1
  = if negb (tf.isDisposed (flag p) s0)
    then Ok r else Throw TensorDisposed.
Proof.
  intros [[v Hv] ->].
  unfold estimateFace, issuedAt. unfold bind at 1.
  rewrite mapM_array_outcome. cbn [fst].
  unfold tensorsToRead. cbn [app forallb].
  destruct (tf.isDisposed (flag p) s0); [done|]. cbn [negb andb].
  cbn [lookup list_lookup mbind option_bind]. rewrite Hv.
  unfold bind, cast, ret, tf.dispose, clearPipelineROIs, pipelineClearROIs.
  by destruct (ltb v _).
Qed.

Variable predict : Tensor -> M (option (list Prediction)).

(** X10: what a call returns with arrays, for predictions whose tensors have
    the types that the source casts their values to (a scalar, two lists of
    pairs, two pairs).  The reads are issued when the input and its float
    conversion have been disposed: if the five tensors of every prediction
    are readable then, the call returns for every prediction, in order, its
    confidence, corners and meshes as read, with the annotations of the
    scaled mesh; otherwise it fails with "Tensor is disposed".  A tensor
    disposed by the callback of an earlier prediction does not make the
    call fail. *)
Theorem estimateFaces_arrays_outcome input s
    input' inputToFloat image s1 predictions s2 results :
  prepareImage input s = (Ok (input', inputToFloat, image), s1) ->
  predict image s1 = (Ok (Some predictions), s2) ->
  predictions <> [] ->
  Forall2 (fun p r => materialize MESH_ANNOTATIONS p = Some r)
          predictions results ->
  (estimateFaces MESH_ANNOTATIONS predict input false false s).1
  = if forallb
         (fun p =>
            forallb (fun t => negb (tf.isDisposed t
                                      (released input' inputToFloat s2)))
                    (tensorsToRead false p))
         predictions
    then Ok (Some results) else Throw TensorDisposed.
Proof.
  intros Hprep Hp Hne Hall.
  rewrite (estimateFaces_resolved _ _ _ _ _ _ _ _ _ _ _ _ Hprep Hp).
  destruct predictions as [|p ps]; [done|]. cbv zeta.
  pose proof (promiseAll_outcome
                (estimateFace MESH_ANNOTATIONS false false
                   (nth 1 (shape input') 0%nat)
                   (released input' inputToFloat s2))
                _ _ TensorDisposed (p :: ps) results
                (released input' inputToFloat s2)
                (fun x r st H => estimateFace_arrays_outcome _ _ x r st H)
                Hall) as Hout.
  unfold bind.
  destruct (promiseAll _ (released input' inputToFloat s2)) as [[l|e] s4];
    cbn [fst] in *; destruct (forallb _ (p :: ps)); by inversion Hout.
Qed.

(** X11: what a call returns with tensors and without flip, for predictions
    whose confidence is a scalar.  Only the confidence is read: if the
    confidence tensor of every prediction is readable once the input and its
    float conversion have been disposed, the call returns for every
    prediction, in order, the tensors of the prediction themselves, whether
    or not its mesh and corner tensors are disposed; otherwise it fails with
    "Tensor is disposed". *)
Theorem estimateFaces_raw_outcome input s
    input' inputToFloat image s1 predictions s2 :
  prepareImage input s = (Ok (input', inputToFloat, image), s1) ->
  predict image s1 = (Ok (Some predictions), s2) ->
  predictions <> [] ->
  Forall (fun p => is_Some (tf.asNumber (flag p))) predictions ->
  (estimateFaces MESH_ANNOTATIONS predict input true false s).1
  = if forallb (fun p => negb (tf.isDisposed (flag p)
                                 (released input' inputToFloat s2)))
               predictions
    then Ok (Some (map handedOver predictions)) else Throw TensorDisposed.
Proof.
  intros Hprep Hp Hne Hall.
  rewrite (estimateFaces_resolved _ _ _ _ _ _ _ _ _ _ _ _ Hprep Hp).
  destruct predictions as [|p ps]; [done|]. cbv zeta.
  assert (Hall2 : Forall2 (fun p r => is_Some (tf.asNumber (flag p)) /\
                                      r = handedOver p)
                          (p :: ps) (map handedOver (p :: ps))).
  { clear -Hall. induction Hall; constructor; auto. }
  pose proof (promiseAll_outcome
                (estimateFace MESH_ANNOTATIONS true false
                   (nth 1 (shape input') 0%nat)
                   (released input' inputToFloat s2))
                (fun p => negb (tf.isDisposed (flag p)
                                  (released input' inputToFloat s2)))
                _ TensorDisposed (p :: ps) _
                (released input' inputToFloat s2)
                (fun x r st H => estimateFace_raw_outcome _ _ x r st H)
                Hall2) as Hout.
  unfold bind.
  destruct (promiseAll _ (released input' inputToFloat s2)) as [[l|e] s4];
    cbn [fst] in *; destruct (forallb _ (p :: ps)); by inversion Hout.
Qed.

End Results.

Lemma estimateFaces_arrays_outcome_witness :
  prepareImage (InTensor sampleInput) emptyState
  = (Ok (sampleInput, sampleFloat, sampleImage), preparedState) /\
  samplePredict sampleImage preparedState
  = (Ok (Some samplePredictions), predictedState) /\
  samplePredictions <> [] /\
  Forall2 (fun p r => materialize sampleTable p = Some r) samplePredictions
          (omap (materialize sampleTable) samplePredictions) /\
  (estimateFaces sampleTable samplePredict (InTensor sampleInput) false false
     emptyState).1
  = Ok (Some (omap (materialize sampleTable) samplePredictions)).
Proof.
  assert (H : Forall2 (fun p r => materialize sampleTable p = Some r)
                samplePredictions
                (omap (materialize sampleTable) samplePredictions))
    by (repeat constructor).
  split; [exact sample_prepared|]. split; [exact sample_predicted|].
  split; [discriminate|]. split; [exact H|].
  rewrite (estimateFaces_arrays_outcome sampleTable samplePredict _ _ _ _ _
             _ _ _ _ sample_prepared sample_predicted
             ltac:(discriminate) H).
  reflexivity.
Defined.

Lemma estimateFaces_raw_outcome_witness :
  prepareImage (InTensor sampleInput) emptyState
  = (Ok (sampleInput, sampleFloat, sampleImage), preparedState) /\
  samplePredict sampleImage preparedState
  = (Ok (Some samplePredictions), predictedState) /\
  samplePredictions <> [] /\
  Forall (fun p => is_Some (tf.asNumber (flag p))) samplePredictions /\
  (estimateFaces sampleTable samplePredict (InTensor sampleInput) true false
     emptyState).1
  = Ok (Some (map handedOver samplePredictions)).
Proof.
  assert (H : Forall (fun p => is_Some (tf.asNumber (flag p)))
                samplePredictions)
    by (repeat constructor; by eexists).
  split; [exact sample_prepared|]. split; [exact sample_predicted|].
  split; [discriminate|]. split; [exact H|].
  rewrite (estimateFaces_raw_outcome sampleTable samplePredict _ _ _ _ _
             _ _ _ sample_prepared sample_predicted
             ltac:(discriminate) H).
  reflexivity.
Defined.

(** ** Tensors returned flipped *)



Section RawFlip.

Variable MESH_ANNOTATIONS : Obj (list nat).



Variable predict : Tensor -> M (option (list Prediction)).


End RawFlip.



(** ** Further failures *)

Lemma slice_short (t : Tensor) (d : nat) (rest : list nat) (s : State) :
  shape t = d :: rest -> (d < 2)%nat ->
  exists e, tf.slice t 1 1 s = (Throw e, s).
Proof.
  intros Hsh Hd. unfold tf.slice, bind, tf.throwIfDisposed.
  destruct (tf.isDisposed t s); [by eexists|]. rewrite Hsh.
  assert (Hle : (1 + 1 <=? d)%nat = false) by (apply Nat.leb_gt; lia).
  rewrite Hle. by eexists.
Qed.

Lemma slice_scalar (t : Tensor) (b sz : nat) (s : State) :
  shape t = [] -> exists e, tf.slice t b sz s = (Throw e, s).
Proof.
  intros Hsh. unfold tf.slice, bind, tf.throwIfDisposed.
  destruct (tf.isDisposed t s); [by eexists|]. rewrite Hsh. by eexists.
Qed.

(** The corner expression needs two rows along the first axis. *)
Lemma flipCornerTensor_short (W : number) (corner : Tensor) (s : State) :
  (forall d rest, shape corner = d :: rest -> (d < 2)%nat) ->
  exists e, (flipCornerTensor W corner s).1 = Throw e.
Proof.
  intros Hsh. unfold flipCornerTensor, bind.
  destruct (tf.slice corner 0 1 s) as [[x|e] s1]; [|by eexists].
  destruct (tf.scalar (W - 1) s1) as [[w|e] s2]; [|by eexists].
  destruct (tf.sub w x s2) as [[fl|e] s3]; [|by eexists].
  destruct (shape corner) as [|d rest] eqn:Hc.
  - destruct (slice_scalar corner 1 1 s3 Hc) as [e ->]. by eexists.
  - destruct (slice_short corner d rest s3 Hc (Hsh d rest eq_refl)) as [e ->].
    by eexists.
Qed.

(** X13: on tensors the flip fails when a corner of the box has fewer than
    two rows along its first axis, as the scalar and as the row [[x, y]] of
    shape [1, 2] have: [slice(1, 1)] finds no row 1.  The corners that the
    tensor branch can flip are laid out along the first axis, which is not
    the layout [[x, y]] that the array branch reads. *)
Theorem flipFaceHorizontal_short_corner (W : number) (face : TensorFace)
    (s : State) :
  (exists corner,
     corner ∈ [topLeft (boundingBox face); bottomRight (boundingBox face)] /\
     forall d rest, shape corner = d :: rest -> (d < 2)%nat) ->
  exists e, (flipFaceHorizontal (Tensors face) W s).1 = Throw e.
Proof.
  intros (corner & Hin & Hsh). cbn [flipFaceHorizontal]. unfold bind.
  rewrite !elem_of_cons in Hin. destruct Hin as [->|[->|Hin]].
  - destruct (flipCornerTensor_short W (topLeft (boundingBox face)) s Hsh)
      as [e He].
    destruct (flipCornerTensor W (topLeft (boundingBox face)) s)
      as [[tl|e'] s1]; [done|by eexists].
  - destruct (flipCornerTensor W (topLeft (boundingBox face)) s)
      as [[tl|e'] s1]; [|by eexists].
    destruct (flipCornerTensor_short W (bottomRight (boundingBox face)) s1
                Hsh) as [e He].
    destruct (flipCornerTensor W (bottomRight (boundingBox face)) s1)
      as [[br|e'] s2]; [done|by eexists].
  - by apply elem_of_nil in Hin.
Qed.

Lemma flipFaceHorizontal_short_corner_witness :
  exists e,
    (flipFaceHorizontal (Tensors sampleRowFace) (dec 640 1) emptyState).1
    = Throw e.
Proof.
  apply (flipFaceHorizontal_short_corner (dec 640 1) sampleRowFace emptyState).
  exists (topLeft (boundingBox sampleRowFace)).
  split; [by left|].
  intros d rest [= <- _]. lia.
Defined.

(** X14: a rejection of the facade passes through [estimateFaces] as it
    is, and nothing runs after it: the call rejects with the reason of the
    facade and ends in the state in which the facade rejected, so that what
    was allocated for the call is disposed only if the facade did it. *)
Theorem estimateFaces_rejection (MESH_ANNOTATIONS : Obj (list nat))
    (predict : Tensor -> M (option (list Prediction)))
    input returnTensors flipHorizontal s input' inputToFloat image s1 e s2 :
  prepareImage input s = (Ok (input', inputToFloat, image), s1) ->
  predict image s1 = (Throw e, s2) ->
  estimateFaces MESH_ANNOTATIONS predict input returnTensors flipHorizontal s
  = (Throw e, s2).
Proof.
  intros Hprep Hp.
  exact (estimateFaces_rejected MESH_ANNOTATIONS predict input
           returnTensors flipHorizontal s _ _ _ _ _ _ Hprep Hp).
Qed.

Lemma estimateFaces_rejection_witness :
  prepareImage (InTensor sampleInput) emptyState
  = (Ok (sampleInput, sampleFloat, sampleImage), preparedState) /\
  rejectingPredict sampleImage preparedState
  = (Throw (Rejected "predict failed"), preparedState) /\
  estimateFaces sampleTable rejectingPredict (InTensor sampleInput) false
    false emptyState
  = (Throw (Rejected "predict failed"), preparedState).
Proof.
  split; [exact sample_prepared|]. split; [exact sample_rejected|].
  exact (estimateFaces_rejection sampleTable rejectingPredict
           (InTensor sampleInput) false false emptyState _ _ _ _ _ _
           sample_prepared sample_rejected).
Defined.
